(** * bifrost: the token entity and its three repositories

    A shallow embedding of the token code of the gateway (the [Token]
    struct, [newToken], [isValid], [renew], and the [TokenRepository]
    implementations [TokenMemStore], [tokenMongo] and [tokenRedis]),
    followed by the properties of the token persistence subsystem.

    Conventions.
    - A [time.Time] is the instant it denotes, in nanoseconds since the Unix
      epoch, as an unbounded [Z]; every time the code creates goes through
      [.UTC()], so no zone is kept.  A [time.Duration] is an [int64] count of
      nanoseconds, with Go's wrap-around written out.
    - [time.Now()] is an explicit argument [now] of every function that reads
      the clock.
    - A Go [error] result is an [option error]: [None] is [nil].
    - A panic is an outcome of its own; the store keeps the writes made
      before the panic. *)

From Stdlib Require Import ZArith String List Lia.
From stdpp Require Import gmap strings list fin_maps functions.

Local Open Scope string_scope.
Local Open Scope Z_scope.

(** ** Time *)

Module GoTime.

Definition Time := Z.
Definition Duration := Z.

Definition Nanosecond : Duration := 1.
Definition Microsecond : Duration := 1000 * Nanosecond.
Definition Millisecond : Duration := 1000 * Microsecond.
Definition Second : Duration := 1000 * Millisecond.
Definition Minute : Duration := 60 * Second.

Definition minDuration : Duration := - 2 ^ 63.
Definition maxDuration : Duration := 2 ^ 63 - 1.

(** Arithmetic on [int64] wraps around. *)
Definition wrap64 (z : Z) : Z := (z + 2 ^ 63) mod 2 ^ 64 - 2 ^ 63.

(** [time.Duration(n) * time.Minute]: a conversion to [int64] and a product
    in [int64]. *)
Definition minutes (n : Z) : Duration := wrap64 (wrap64 n * Minute).

(** [t.After(u)]: [t] is strictly later than [u]. *)
Definition After (t u : Time) : bool := u <? t.

(** [t.Add(d)]. *)
Definition Add (t : Time) (d : Duration) : Time := t + d.

(** [t.Sub(u)]: the difference, held at the largest or smallest
    [Duration] when it does not fit. *)
Definition Sub (t u : Time) : Duration :=
  Z.max minDuration (Z.min maxDuration (t - u)).

(** A finite [float64] is the rational it denotes, kept as a fraction: a
    numerator over a positive denominator.  The values the code computes
    stay far inside the range of the exponent, so what is modelled of the
    format is its precision: a result is rounded to 53 significant bits, to
    the nearest, ties to even. *)
Definition float64 : Type := Z * Z.

(** The integer nearest to [n / d], ties to even, for a positive [d]. *)
Definition nearest_even (n d : Z) : Z :=
  let q := n / d in
  let r := n mod d in
  if 2 * r <? d then q
  else if d <? 2 * r then q + 1
  else if Z.even q then q else q + 1.

(** The exponent of the leading bit of [n / d], for positive [n] and [d]. *)
Definition ilog2 (n d : Z) : Z :=
  let e := Z.log2 n - Z.log2 d in
  if n * 2 ^ Z.max 0 (- e) <? d * 2 ^ Z.max 0 e then e - 1 else e.

(** The [float64] nearest to [n / d], for a positive [d]: the quotient is
    scaled so that its leading bit is bit 52, rounded to an integer, and
    scaled back. *)
Definition round64 (n d : Z) : float64 :=
  if n =? 0 then (0, 1)
  else
    let a := Z.abs n in
    let s := 52 - ilog2 a d in
    let m := nearest_even (a * 2 ^ Z.max 0 s) (d * 2 ^ Z.max 0 (- s)) in
    (Z.sgn n * m * 2 ^ Z.max 0 (- s), 2 ^ Z.max 0 s).

(** [d.Seconds()]: [float64(sec) + float64(nsec)/1e9], with [sec := d / Second]
    and [nsec := d % Second] (a quotient toward zero and its remainder).  The
    two conversions are exact, as is the constant; the quotient and the sum
    are rounded. *)
Definition Seconds (d : Duration) : float64 :=
  let sec := Z.quot d Second in
  let nsec := Z.rem d Second in
  let (fn, fd) := round64 nsec 1000000000 in
  round64 (sec * fd + fn) fd.

(** [int64(f)]: the fraction is dropped. *)
Definition int64_of_float (f : float64) : Z := Z.quot (fst f) (snd f).

(** [int64(d.Seconds())]. *)
Definition whole_seconds (d : Duration) : Z := int64_of_float (Seconds d).

End GoTime.

Import GoTime.

(** ** The token entity *)

Record Token := mkToken {
  ID : string;
  Source : string;
  ConsumerID : string;
  IPAddress : string;
  ExpiresIn : Z;
  Expiration : Time;
  CreatedAt : Time
}.

Definition set_Expiration (e : Time) (t : Token) : Token :=
  mkToken (ID t) (Source t) (ConsumerID t) (IPAddress t) (ExpiresIn t) e (CreatedAt t).

Definition set_CreatedAt (c : Time) (t : Token) : Token :=
  mkToken (ID t) (Source t) (ConsumerID t) (IPAddress t) (ExpiresIn t) (Expiration t) c.

Definition set_ExpiresIn (n : Z) (t : Token) : Token :=
  mkToken (ID t) (Source t) (ConsumerID t) (IPAddress t) n (Expiration t) (CreatedAt t).

(** [newToken(consumerID)].  [now] is the clock reading, [uuid] the string of
    the fresh UUID and [timeout] the value of [_config.Token.Timeout], in
    minutes. *)
Definition newToken (now : Time) (uuid : string) (timeout : Z) (consumerID : string) : Token :=
  {| ID := uuid;
     Source := "";
     ConsumerID := consumerID;
     IPAddress := "";
     ExpiresIn := 0;
     Expiration := Add now (minutes timeout);
     CreatedAt := now |}.

(** [t.isValid()]. *)
Definition isValid (now : Time) (t : Token) : bool :=
  if After now (Expiration t) then false else true.

(** [t.renew()]: the token after the call. *)
Definition renew (now : Time) (timeout : Z) (t : Token) : Token :=
  set_Expiration (Add now (minutes timeout)) t.


(** ** Errors, panics and the fault script *)

(** [AppError] is declared outside the files at hand; the literals built in
    the repositories give its two fields.  An error of a driver (mgo, redis)
    is known to the code only through its [Error()] text, and so is the
    error of a panic raised by the runtime. *)
Inductive error :=
| AppError (ErrorCode Message : string)
| DriverError (text : string)
| RuntimeError (text : string).

(** The outcome of a call: it returns, or it panics with an error. *)
Inductive outcome (A : Type) :=
| Returned (a : A)
| Panicked (e : error).
Arguments Returned {A} a.
Arguments Panicked {A} e.

(** A computation over a world [W].  The world after a panic is the world at
    the panic: writes already made are not undone. *)
Definition M (W A : Type) : Type := W -> outcome A * W.

Definition ret {W A} (a : A) : M W A := fun w => (Returned a, w).

Definition bind {W A B} (m : M W A) (k : A -> M W B) : M W B :=
  fun w =>
    match m w with
    | (Returned a, w') => k a w'
    | (Panicked e, w') => (Panicked e, w')
    end.

Definition panic {W A} (e : error) : M W A := fun w => (Panicked e, w).

Declare Scope go_scope.
Delimit Scope go_scope with go.
Notation "x <- m ;; k" := (bind m (fun x => k))
  (at level 100, m at next level, right associativity) : go_scope.
Notation "m ;;; k" := (bind m (fun _ => k))
  (at level 100, right associativity) : go_scope.

(** Modelled from the spec: [panicIf] is declared outside the files at hand.
    The spec has every storage failure of the key-value repository reach the
    caller unmodified; the helper, as its name says, panics with the error
    when there is one and does nothing otherwise. *)
Definition panicIf {W} (err : option error) : M W unit :=
  match err with
  | Some e => panic e
  | None => ret tt
  end.

(** A remote store together with the script of transport faults to come: the
    n-th call to the store fails with the n-th entry when that is [Some], and
    goes through when it is [None] or the script is used up. *)
Record remote (S : Type) := mkRemote {
  store : S;
  faults : list (option string)
}.
Arguments mkRemote {S} store faults.
Arguments store {S} r.
Arguments faults {S} r.

(** One call to the store: [f] is what the store does when reached. *)
Definition call {S A} (f : S -> (A + string) * S) : M (remote S) (A + string) :=
  fun w =>
    match faults w with
    | Some e :: rest => (Returned (inr e), mkRemote (store w) rest)
    | None :: rest => let (r, s') := f (store w) in (Returned r, mkRemote s' rest)
    | [] => let (r, s') := f (store w) in (Returned r, mkRemote s' [])
    end.

(** The [error] a driver call hands back. *)
Definition err_of {A} (r : A + string) : option error :=
  match r with
  | inl _ => None
  | inr e => Some (DriverError e)
  end.

(** The panic of a dereference of [nil]. *)
Definition nil_dereference : error :=
  RuntimeError "runtime error: invalid memory address or nil pointer dereference".

(** ** The in-process repository, [TokenMemStore] *)

Module TokenMemStore.

(** The map holds pointers, [map[string]*Token]: the tokens live in the
    program's heap and stay shared with the caller.  A [*Token] is
    [option loc], [None] being [nil]; the heap gives every location its
    token.  No method can store [nil] (each reads [token.ID] first), so the
    entries of [data] are locations.  The lock of the struct serialises
    the methods and has no other effect; a method is one step here. *)
Definition loc := positive.

Record world := mkWorld {
  heap : loc -> Token;
  data : gmap string loc
}.

(** [newTokenMemStore()]. *)
Definition newTokenMemStore (h : loc -> Token) : world := mkWorld h ∅.

(** [for _, token := range ts.data] presents the entries in an order of
    the runtime's choosing: [order] lists the keys as they come.  An entry
    that is deleted before it is reached is not presented. *)
Definition range_order (w : world) (order : list string) : Prop :=
  order ≡ₚ (map_to_list (data w)).*1.

Definition Get (key : string) : M world (option loc * option error) :=
  fun w => (Returned (data w !! key, None), w).

Fixpoint scan (h : loc -> Token) (d : gmap string loc) (consumerID : string)
    (order : list string) (result : list loc) : list loc :=
  match order with
  | [] => result
  | k :: rest =>
      match d !! k with
      | Some token =>
          if decide (ConsumerID (h token) = consumerID)
          then scan h d consumerID rest (result ++ [token])
          else scan h d consumerID rest result
      | None => scan h d consumerID rest result
      end
  end.

Definition GetByConsumerID (order : list string) (consumerID : string)
    : M world (list loc * option error) :=
  fun w => (Returned (scan (heap w) (data w) consumerID order [], None), w).

Definition Insert (now : Time) (token : option loc) : M world (option error) :=
  fun w =>
    match token with
    | None => (Panicked nil_dereference, w)
    | Some p =>
        match data w !! ID (heap w p) with
        | Some oldToken =>
            (Returned (Some (AppError "invalid_input" "The token key already exits.")), w)
        | None =>
            let h := <[p := set_CreatedAt now (heap w p)]> (heap w) in
            (Returned None, mkWorld h (<[ID (h p) := p]> (data w)))
        end
    end.

Definition Update (token : option loc) : M world (option error) :=
  fun w =>
    match token with
    | None => (Panicked nil_dereference, w)
    | Some p =>
        match data w !! ID (heap w p) with
        | None =>
            (Returned (Some (AppError "invalid_input" "The token was not found.")), w)
        | Some oldToken =>
            (Returned None, mkWorld (heap w) (<[ID (heap w p) := p]> (data w)))
        end
    end.

Definition Delete (key : string) : M world (option error) :=
  fun w => (Returned None, mkWorld (heap w) (delete key (data w))).

Fixpoint sweep (h : loc -> Token) (consumerID : string)
    (order : list string) (d : gmap string loc) : gmap string loc :=
  match order with
  | [] => d
  | k :: rest =>
      match d !! k with
      | Some token =>
          if decide (ConsumerID (h token) = consumerID)
          then sweep h consumerID rest (delete (ID (h token)) d)
          else sweep h consumerID rest d
      | None => sweep h consumerID rest d
      end
  end.

Definition DeleteByConsumerID (order : list string) (consumerID : string)
    : M world (option error) :=
  fun w => (Returned None, mkWorld (heap w) (sweep (heap w) consumerID order (data w))).

(** Every entry sits under the [ID] of its token.  [Insert] and [Update]
    store a token under its [ID]; the invariant holds as long as the
    caller leaves the [ID] of a stored token alone. *)
Definition keyed (w : world) : Prop :=
  ∀ k p, data w !! k = Some p → ID (heap w p) = k.

End TokenMemStore.

(** ** The document-store repository, [tokenMongo] *)

Module tokenMongo.

(** The collection [bifrost.tokens], as the driver (mgo) shows it to the
    code: the documents in their natural order, [_id] unique.  A document
    is kept decoded, as the [Token] a read would give back. *)
Abbreviation collection := (list Token).

(** A BSON datetime counts the whole milliseconds since the epoch: the
    driver writes [t.Unix()*1000 + t.Nanosecond()/1e6] and a read gives the
    instant of that count. *)
Definition datetime (t : Time) : Time := t / Millisecond * Millisecond.

(** A token as it comes back from the store: the strings as they are, the
    two times as datetimes, and [ExpiresIn], tagged [bson:"-"] and so not
    stored, zero. *)
Definition bson (t : Token) : Token :=
  {| ID := ID t;
     Source := Source t;
     ConsumerID := ConsumerID t;
     IPAddress := IPAddress t;
     ExpiresIn := 0;
     Expiration := datetime (Expiration t);
     CreatedAt := datetime (CreatedAt t) |}.

Definition ErrNotFound : string := "not found".
Definition E11000 : string :=
  "E11000 duplicate key error collection: bifrost.tokens index: _id_".

(** Selectors [bson.M{"_id": key}] and [bson.M{"consumer_id": consumerID}]. *)
Definition by_id (key : string) (t : Token) : bool := bool_decide (ID t = key).
Definition by_consumer (consumerID : string) (t : Token) : bool :=
  bool_decide (ConsumerID t = consumerID).

(** [Find(sel).One(&token)]: the first match, or [ErrNotFound]. *)
Definition One (sel : Token -> bool) (c : collection) : (Token + string) * collection :=
  match List.find sel c with
  | Some t => (inl t, c)
  | None => (inr ErrNotFound, c)
  end.

(** [Find(sel).All(&tokens)]: every match; none is not an error. *)
Definition All (sel : Token -> bool) (c : collection) : (list Token + string) * collection :=
  (inl (List.filter sel c), c).

(** [c.Insert(doc)]: refused with the server's E11000 message when the
    [_id] is taken. *)
Definition InsertDoc (doc : Token) (c : collection) : (unit + string) * collection :=
  if existsb (by_id (ID doc)) c then (inr E11000, c) else (inl tt, (c ++ [bson doc])%list).

(** [c.Update(sel, doc)]: replaces the first match, or [ErrNotFound]. *)
Fixpoint replace_first (sel : Token -> bool) (doc : Token) (c : collection) : option collection :=
  match c with
  | [] => None
  | t :: rest =>
      if sel t then Some (bson doc :: rest)
      else option_map (cons t) (replace_first sel doc rest)
  end.

Definition UpdateDoc (sel : Token -> bool) (doc : Token) (c : collection)
    : (unit + string) * collection :=
  match replace_first sel doc c with
  | Some c' => (inl tt, c')
  | None => (inr ErrNotFound, c)
  end.

(** [c.Remove(sel)]: removes a single document, the first match, or
    reports [ErrNotFound] (sessions of [mgo.Dial] are in safe mode). *)
Fixpoint remove_first (sel : Token -> bool) (c : collection) : option collection :=
  match c with
  | [] => None
  | t :: rest =>
      if sel t then Some rest
      else option_map (cons t) (remove_first sel rest)
  end.

Definition Remove (sel : Token -> bool) (c : collection) : (unit + string) * collection :=
  match remove_first sel c with
  | Some c' => (inl tt, c')
  | None => (inr ErrNotFound, c)
  end.

Abbreviation world := (remote collection).

Local Open Scope go_scope.

(** [tm.newSession()]: a dial, which can fail and leaves the collection as
    it is.  The deferred [session.Close()] has no effect on it either. *)
Definition newSession : M world (unit + string) :=
  call (fun c => (inl tt, c)).

Definition Get (key : string) : M world (option Token * option error) :=
  session <- newSession ;;
  match session with
  | inr e => ret (None, Some (DriverError e))
  | inl _ =>
      r <- call (One (by_id key)) ;;
      match r with
      | inr e =>
          if decide (e = "not found") then ret (None, None)
          else ret (None, Some (DriverError e))
      | inl token => ret (Some token, None)
      end
  end.

Definition GetByConsumerID (consumerID : string) : M world (option (list Token) * option error) :=
  session <- newSession ;;
  match session with
  | inr e => ret (None, Some (DriverError e))
  | inl _ =>
      r <- call (All (by_consumer consumerID)) ;;
      match r with
      | inr e =>
          if decide (e = "not found") then ret (None, None)
          else ret (None, Some (DriverError e))
      | inl tokens => ret (Some tokens, None)
      end
  end.

(** The methods that write take the caller's token and give it back as the
    call leaves it, next to the error. *)
Definition Insert (now : Time) (token : Token) : M world (Token * option error) :=
  session <- newSession ;;
  match session with
  | inr e => ret (token, Some (DriverError e))
  | inl _ =>
      let token := set_CreatedAt now token in
      r <- call (InsertDoc token) ;;
      match r with
      | inr e =>
          if String.prefix "E11000" e
          then ret (token, Some (AppError "invalid_input" "The token key already exits"))
          else ret (token, Some (DriverError e))
      | inl _ => ret (token, None)
      end
  end.

Definition Update (token : Token) : M world (option error) :=
  session <- newSession ;;
  match session with
  | inr e => ret (Some (DriverError e))
  | inl _ =>
      r <- call (UpdateDoc (by_id (ID token)) token) ;;
      ret (err_of r)
  end.

Definition Delete (key : string) : M world (option error) :=
  session <- newSession ;;
  match session with
  | inr e => ret (Some (DriverError e))
  | inl _ =>
      r <- call (Remove (by_id key)) ;;
      ret (err_of r)
  end.

Definition DeleteByConsumerID (consumerID : string) : M world (option error) :=
  session <- newSession ;;
  match session with
  | inr e => ret (Some (DriverError e))
  | inl _ =>
      r <- call (Remove (by_consumer consumerID)) ;;
      ret (err_of r)
  end.

End tokenMongo.

(** ** The key-value repository, [tokenRedis] *)

Module tokenRedis.

(** A key holds a string or a set, and may carry the instant at which the
    server lets it go.  The string under a token key is the JSON of the
    token; it is kept decoded, as the [Token] that [json.Unmarshal] gives
    back ([ExpiresIn] has a JSON name and is part of it); [json.Marshal]
    of a token is taken to succeed and to lose nothing (it writes a time
    to the nanosecond).  A set is kept as the list of its members in the
    order [SMEMBERS] lists them; the server promises no order, and where
    [SADD] puts a new member in the list stands for a choice of the
    server.  The server reads the same clock as the code. *)
Inductive value :=
| VString (s : Token)
| VSet (members : list string).

Record entry := mkEntry {
  val : value;
  deadline : option Time
}.

Abbreviation db := (gmap string entry).

Definition Nil : string := "redis: nil".
Definition WRONGTYPE : string :=
  "WRONGTYPE Operation against a key holding the wrong kind of value".

(** A key is there until its deadline; from then on it is gone, whether or
    not the server has already dropped it. *)
Definition live (now : Time) (e : entry) : bool :=
  match deadline e with
  | None => true
  | Some d => now <? d
  end.

Definition peek (now : Time) (d : db) (key : string) : option entry :=
  match d !! key with
  | Some e => if live now e then Some e else None
  | None => None
  end.

(** [GET key]. *)
Definition GET (now : Time) (key : string) (d : db) : (Token + string) * db :=
  match peek now d key with
  | None => (inr Nil, d)
  | Some e =>
      match val e with
      | VString s => (inl s, d)
      | VSet _ => (inr WRONGTYPE, d)
      end
  end.

(** [EXISTS key]. *)
Definition EXISTS (now : Time) (key : string) (d : db) : (bool + string) * db :=
  (inl (bool_decide (is_Some (peek now d key))), d).

(** The time-to-live [client.Set] puts on the wire for [exp]: none when
    [exp] is not positive; otherwise [px] with the whole milliseconds of
    [exp] when [usePrecise(exp)], and [ex] with its seconds when [exp] is a
    whole number of seconds. *)
Inductive expiry :=
| NoExpiry
| PX (milliseconds : Z)
| EX (seconds : Z).

Definition usePrecise (dur : Duration) : bool :=
  (dur <? Second) || negb (dur mod Second =? 0).

Definition formatMs (dur : Duration) : Z := dur / Millisecond.
Definition formatSec (dur : Duration) : Z := dur / Second.

Definition expiry_of (exp : Duration) : expiry :=
  if 0 <? exp then
    if usePrecise exp then PX (formatMs exp) else EX (formatSec exp)
  else NoExpiry.

(** The answer of the server to a time-to-live that is not positive. *)
Definition invalid_expire : string := "ERR invalid expire time in set".

(** The deadline the server gives a key written at [now]; a time-to-live
    of zero is refused. *)
Definition deadline_of (now : Time) (x : expiry) : option Time + string :=
  match x with
  | NoExpiry => inl None
  | PX ms => if ms <=? 0 then inr invalid_expire else inl (Some (now + ms * Millisecond))
  | EX sec => if sec <=? 0 then inr invalid_expire else inl (Some (now + sec * Second))
  end.

(** [client.Set(key, val, exp)]: [SET key val] with the time-to-live of
    [exp]; any earlier value and deadline are replaced.  A command the
    server refuses writes nothing. *)
Definition SET (now : Time) (key : string) (s : Token) (exp : Duration) (d : db)
    : (unit + string) * db :=
  match deadline_of now (expiry_of exp) with
  | inl dl => (inl tt, <[key := mkEntry (VString s) dl]> d)
  | inr e => (inr e, d)
  end.

(** [SADD key member]. *)
Definition SADD (now : Time) (key member : string) (d : db) : (unit + string) * db :=
  match peek now d key with
  | None => (inl tt, <[key := mkEntry (VSet [member]) None]> d)
  | Some e =>
      match val e with
      | VSet l =>
          if bool_decide (member ∈ l) then (inl tt, d)
          else (inl tt, <[key := mkEntry (VSet (l ++ [member])) (deadline e)]> d)
      | VString _ => (inr WRONGTYPE, d)
      end
  end.

(** [SMEMBERS key]: a key that is not there is the empty set. *)
Definition SMEMBERS (now : Time) (key : string) (d : db) : (list string + string) * db :=
  match peek now d key with
  | None => (inl [], d)
  | Some e =>
      match val e with
      | VSet l => (inl l, d)
      | VString _ => (inr WRONGTYPE, d)
      end
  end.

(** [DEL key]. *)
Definition DEL (key : string) (d : db) : (unit + string) * db :=
  (inl tt, delete key d).

Abbreviation world := (remote db).

Definition token_key (id : string) : string := "token:id:" +:+ id.
Definition consumer_key (consumerID : string) : string := "token:consumer:" +:+ consumerID.

Local Open Scope go_scope.

Definition Get (now : Time) (id : string) : M world (option Token * option error) :=
  let key := token_key id in
  let nowUTC := now in
  r <- call (GET now key) ;;
  match r with
  | inr e =>
      if decide (e = "redis: nil") then ret (None, None)
      else panic (DriverError e)
  | inl token =>
      ret (Some (set_ExpiresIn (whole_seconds (Sub (Expiration token) nowUTC)) token), None)
  end.

(** The loop of [GetByConsumerID].  Every call to [Get] reads the clock
    again: [clock i] is the reading of the [i]-th call. *)
Fixpoint collect (clock : nat -> Time) (tokenIDs : list string) (result : list Token)
    : M world (list Token) :=
  match tokenIDs with
  | [] => ret result
  | val :: rest =>
      r <- Get (clock O) val ;;
      panicIf (snd r) ;;;
      match fst r with
      | Some token => collect (fun i => clock (Datatypes.S i)) rest (result ++ [token])
      | None => collect (fun i => clock (Datatypes.S i)) rest result
      end
  end.

(** [now] is the instant of [SMEMBERS], [clock] the readings of the calls
    to [Get] that follow. *)
Definition GetByConsumerID (now : Time) (clock : nat -> Time) (consumerID : string)
    : M world (list Token * option error) :=
  let key := consumer_key consumerID in
  r <- call (SMEMBERS now key) ;;
  match r with
  | inr e =>
      if decide (e = "redis: nil") then ret ([], None)
      else panic (DriverError e)
  | inl tokenIDs =>
      result <- collect clock tokenIDs [] ;;
      ret (result, None)
  end.

(** The methods that take a token give it back as the call leaves it. *)
Definition Insert (now : Time) (token : Token) : M world (Token * option error) :=
  let token := set_CreatedAt now token in
  let key := token_key (ID token) in
  r <- call (EXISTS now key) ;;
  panicIf (err_of r) ;;;
  match r with
  | inl true =>
      ret (token, Some (AppError "invalid_input" "The token key already exits"))
  | _ =>
      let exp := Sub (Expiration token) now in
      r <- call (SET now key token exp) ;;
      panicIf (err_of r) ;;;
      let key := consumer_key (ConsumerID token) in
      r <- call (SADD now key (ID token)) ;;
      panicIf (err_of r) ;;;
      ret (token, None)
  end.

Definition Update (now : Time) (token : Token) : M world (option error) :=
  let key := token_key (ID token) in
  r <- call (SET now key token 0) ;;
  panicIf (err_of r) ;;;
  ret None.

Definition Delete (id : string) : M world (option error) :=
  let key := token_key id in
  r <- call (DEL key) ;;
  panicIf (err_of r) ;;;
  ret None.

Fixpoint delete_each (tokenIDs : list string) : M world unit :=
  match tokenIDs with
  | [] => ret tt
  | val :: rest =>
      err <- Delete val ;;
      panicIf err ;;;
      delete_each rest
  end.

Definition DeleteByConsumerID (now : Time) (consumerID : string) : M world (option error) :=
  let key := consumer_key consumerID in
  r <- call (SMEMBERS now key) ;;
  match r with
  | inr e =>
      if decide (e = "redis: nil") then ret None
      else panic (DriverError e)
  | inl tokenIDs =>
      delete_each tokenIDs ;;;
      r <- call (DEL key) ;;
      panicIf (err_of r) ;;;
      ret None
  end.

(** What a client can see of the database at [now]. *)
Definition view (now : Time) (d : db) : gmap string entry :=
  filter (λ kv, live now kv.2 = true) d.

(** The database once the primary records of [tokenIDs] are deleted. *)
Definition drop_records (tokenIDs : list string) (d : db) : db :=
  foldl (λ d' id, delete (token_key id) d') d tokenIDs.

(** The deadline of the record [Insert] writes at [now] for a token, when
    the server takes the command: the time left to the token, in the whole
    milliseconds that reach the server. *)
Definition insert_deadline (now : Time) (token : Token) : option Time :=
  match deadline_of now (expiry_of (Sub (Expiration token) now)) with
  | inl dl => dl
  | inr _ => None
  end.

End tokenRedis.

(** ** Sample tokens and stores *)

Module Examples.

(** Two tokens of consumer C1, both expiring one minute after the epoch,
    and a third token that takes the id of the first. *)
Definition T1 : Token := mkToken "T1" "login" "C1" "10.0.0.1" 0 (60 * Second) 0.
Definition T2 : Token := mkToken "T2" "login" "C1" "10.0.0.2" 0 (60 * Second) 0.
Definition T1_again : Token := mkToken "T1" "refresh" "C2" "10.0.0.3" 0 (600 * Second) 0.

(** A heap with the three tokens at locations 1, 2 and 3. *)
Definition heap0 : TokenMemStore.loc -> Token :=
  fun p =>
    match p with
    | 1%positive => T1
    | 2%positive => T2
    | _ => T1_again
    end.

Definition mem_empty : TokenMemStore.world := TokenMemStore.newTokenMemStore heap0.
Definition mem_one : TokenMemStore.world := (TokenMemStore.Insert 0 (Some 1%positive) mem_empty).2.
Definition mem_two : TokenMemStore.world := (TokenMemStore.Insert 0 (Some 2%positive) mem_one).2.

(** The document store with both tokens of C1, reachable. *)
Definition mongo_empty : remote (list Token) := mkRemote [] [].
Definition mongo_one : remote (list Token) := (tokenMongo.Insert 0 T1 mongo_empty).2.
Definition mongo_two : remote (list Token) := mkRemote [T1; T2] [].

(** The key-value store after the two inserts at the epoch. *)
Definition redis_empty : remote (gmap string tokenRedis.entry) := mkRemote ∅ [].
Definition redis_one : remote (gmap string tokenRedis.entry) := (tokenRedis.Insert 0 T1 redis_empty).2.
Definition redis_two : remote (gmap string tokenRedis.entry) := (tokenRedis.Insert 0 T2 redis_one).2.

(** The same store, with a script in which the first deletion of a
    primary record fails: the read of the index goes through, the
    [DEL] that follows does not. *)
Definition redis_two_faulty : remote (gmap string tokenRedis.entry) :=
  mkRemote (store redis_two) [None; Some "i/o timeout"].

End Examples.

(** ** The log shipper, [gelf] *)

Module gelf.

(** A byte is its value, from 0 to 255. *)
Abbreviation byte := Z.

Definition defaultConnection : string := "lan".
Definition defaultMaxChunkSizeWan : Z := 1420.
Definition defaultMaxChunkSizeLan : Z := 8154.

Record gelfConfig := mkConfig {
  ConnectionString : string;
  Connection : string;
  MaxChunkSizeWan : Z;
  MaxChunkSizeLan : Z
}.

(** The configuration [newGelf] keeps: the caller's, with the defaults in
    the place of the zero values. *)
Definition with_defaults (config : gelfConfig) : gelfConfig :=
  let config :=
    if (String.length (ConnectionString config) =? 0)%nat
    then mkConfig "127.0.0.1:12201" (Connection config)
           (MaxChunkSizeWan config) (MaxChunkSizeLan config)
    else config in
  let config :=
    if decide (Connection config = "")
    then mkConfig (ConnectionString config) defaultConnection
           (MaxChunkSizeWan config) (MaxChunkSizeLan config)
    else config in
  let config :=
    if MaxChunkSizeWan config =? 0
    then mkConfig (ConnectionString config) (Connection config)
           defaultMaxChunkSizeWan (MaxChunkSizeLan config)
    else config in
  if MaxChunkSizeLan config =? 0
  then mkConfig (ConnectionString config) (Connection config)
         (MaxChunkSizeWan config) defaultMaxChunkSizeLan
  else config.

(** [newGelf(config)].  A [*gelf] is known here by the configuration it
    holds; the gzip writer it also holds is not used by the code at hand,
    and its creation at level [BestSpeed] does not fail.  [dial] is the
    answer of [net.Dial("udp", address)]: [None] when it connects, the
    error otherwise, with which [newGelf] panics. *)
Definition newGelf (dial : string → option string) (config : gelfConfig)
    : outcome gelfConfig :=
  let config := with_defaults config in
  match dial (ConnectionString config) with
  | Some err => Panicked (DriverError err)
  | None => Returned config
  end.

(** [g.getChunksize()]. *)
Definition getChunksize (g : gelfConfig) : Z :=
  if decide (Connection g = "wan") then MaxChunkSizeWan g
  else if decide (Connection g = "lan") then MaxChunkSizeLan g
  else MaxChunkSizeWan g.

(** [g.intToBytes(i)]: the single byte of [int8(i)], the low eight bits. *)
Definition intToBytes (i : Z) : list byte := [i mod 256].

(** [buf.Next(n)] of a [bytes.Buffer] holding [buf]: the next [n] bytes, or
    all of them when fewer are left, and the buffer after them; a negative
    [n] is a slice out of bounds, a panic ([None]). *)
Definition Next (n : Z) (buf : list byte) : option (list byte * list byte) :=
  if n <? 0 then None
  else Some (take (Z.to_nat n) buf, drop (Z.to_nat n) buf).

(** [g.createChunkedMessage(index, chunkCountInt, id, compressed)]: the
    packet, and the buffer as the call leaves it. *)
Definition createChunkedMessage (g : gelfConfig) (index chunkCountInt : Z)
    (id : list byte) (compressed : list byte) : option (list byte * list byte) :=
  let chunksize := getChunksize g in
  match Next chunksize compressed with
  | None => None
  | Some (chunk, rest) =>
      Some ((intToBytes 30 ++ intToBytes 15 ++ id ++
             intToBytes index ++ intToBytes chunkCountInt ++ chunk)%list, rest)
  end.

(** How a run of [log] ends: it returns, it panics, or the loop is still
    going when the fuel is used up. *)
Inductive ending := Finished | Panics | OutOfFuel.

(** The loop of [log]: the packets sent, in order, and the ending. *)
Fixpoint chunk_loop (fuel : nat) (g : gelfConfig) (length chunksize chunkCountInt : Z)
    (id : list byte) (i index : Z) (compressed : list byte)
    : list (list byte) * ending :=
  if i <? length then
    match fuel with
    | O => ([], OutOfFuel)
    | Datatypes.S fuel' =>
        match createChunkedMessage g index chunkCountInt id compressed with
        | None => ([], Panics)
        | Some (packet, compressed') =>
            let (packets, e) :=
              chunk_loop fuel' g length chunksize chunkCountInt id
                (i + chunksize) (index + 1) compressed' in
            (packet :: packets, e)
        end
    end
  else ([], Finished).

(** [math.Ceil(float64(length) / float64(chunksize))] as an [int], for a
    positive chunk size: the ceiling of the quotient (the floating-point
    quotient gives it exactly for lengths below 2^53). *)
Definition chunkCount (length chunksize : Z) : Z := (length + chunksize - 1) / chunksize.

(** [g.log(data)]: the datagrams handed to [g.send], in order.  [compress]
    is gzip, [id] the eight bytes read from [rand]. *)
Definition log (fuel : nat) (compress : list byte → list byte) (id : list byte)
    (g : gelfConfig) (data : list byte) : list (list byte) * ending :=
  let compressed := compress data in
  let chunksize := MaxChunkSizeLan g in
  let length := Z.of_nat (List.length compressed) in
  if chunksize <? length then
    let chunkCountInt := chunkCount length chunksize in
    chunk_loop fuel g length chunksize chunkCountInt id 0 0 compressed
  else ([compressed], Finished).

(** The packet of a chunk. *)
Definition frame (id : list byte) (chunkCountInt : Z) (index : nat) (chunk : list byte)
    : list byte :=
  (intToBytes 30 ++ intToBytes 15 ++ id ++
   intToBytes (Z.of_nat index) ++ intToBytes chunkCountInt ++ chunk)%list.

(** [n] chunks of [size] bytes cut from the front of a buffer, the last
    ones shorter or empty when the buffer runs out. *)
Fixpoint cut (size n : nat) (buf : list byte) : list (list byte) :=
  match n with
  | O => []
  | Datatypes.S n' => take size buf :: cut size n' (drop size buf)
  end.

(** A field of the map [toByte] hands to [json.Marshal]: a string, an
    [int], the [float64] timestamp, or a custom value. *)
Inductive item (F V : Type) :=
| IString (s : string)
| IInt (n : Z)
| IFloat (f : F)
| ICustom (v : V).
Arguments IString {F V} s.
Arguments IInt {F V} n.
Arguments IFloat {F V} f.
Arguments ICustom {F V} v.

Record gelfMessage (F V : Type) := mkMessage {
  Version : string;
  Host : string;
  Level : Z;
  ShortMessage : string;
  FullMessage : string;
  Timestamp : F;
  Facility : string;
  LoggerName : string;
  CustomFields : gmap string V
}.
Arguments mkMessage {F V}.
Arguments Version {F V} g.
Arguments Host {F V} g.
Arguments Level {F V} g.
Arguments ShortMessage {F V} g.
Arguments FullMessage {F V} g.
Arguments Timestamp {F V} g.
Arguments Facility {F V} g.
Arguments LoggerName {F V} g.
Arguments CustomFields {F V} g.

(** The eight fixed entries of [items]. *)
Definition fixed_items {F V} (m : gelfMessage F V) : gmap string (item F V) :=
  <["_logger_name" := IString (LoggerName m)]>
  (<["_app_id" := IString (Facility m)]>
  (<["timestamp" := IFloat (Timestamp m)]>
  (<["full_message" := IString (FullMessage m)]>
  (<["short_message" := IString (ShortMessage m)]>
  (<["level" := IInt (Level m)]>
  (<["host" := IString (Host m)]>
  (<["version" := IString (Version m)]> ∅))))))).

(** [for k, v := range m.CustomFields { items["_"+k] = v }], the keys
    coming in the order [order]. *)
Fixpoint add_custom {F V} (custom : gmap string V) (order : list string)
    (items : gmap string (item F V)) : gmap string (item F V) :=
  match order with
  | [] => items
  | k :: rest =>
      match custom !! k with
      | Some v => add_custom custom rest (<["_" +:+ k := ICustom v]> items)
      | None => add_custom custom rest items
      end
  end.

(** [m.toByte()]: the JSON of the map; [marshal] is [json.Marshal], whose
    error the code drops. *)
Definition toByte {F V} (marshal : gmap string (item F V) → list byte)
    (order : list string) (m : gelfMessage F V) : list byte :=
  marshal (add_custom (CustomFields m) order (fixed_items m)).

(** [g.testForForbiddenValues(gmap)]. *)
Definition testForForbiddenValues {V} (fields : gmap string V) : option string :=
  match fields !! "_id" with
  | Some _ => Some "Key _id is forbidden"
  | None => None
  end.

End gelf.

(** ** Invariants of the stores *)

(** What the scan of the in-process map keeps of a key: the token under
    it, when it belongs to the consumer. *)
Definition pick (h : TokenMemStore.loc → Token) (d : gmap string TokenMemStore.loc)
    (consumerID k : string) : option TokenMemStore.loc :=
  match d !! k with
  | Some p => if decide (ConsumerID (h p) = consumerID) then Some p else None
  | None => None
  end.

(** The document store never holds two documents with one [_id]. *)
Definition unique_ids (c : list Token) : Prop := NoDup (ID <$> c).

(** The keys of the key-value store as the repository writes them: a token
    key holds the string of a token, an index key holds a set. *)
Definition well_typed (d : gmap string tokenRedis.entry) : Prop :=
  (∀ id e, d !! tokenRedis.token_key id = Some e → ∃ t, tokenRedis.val e = tokenRedis.VString t) ∧
  (∀ consumerID e, d !! tokenRedis.consumer_key consumerID = Some e →
                   ∃ l, tokenRedis.val e = tokenRedis.VSet l).

(** What [tokenRedis.Get] makes of the key of [id] at [now]: the token, with
    its remaining seconds filled in, when the key is there. *)
Definition read_token (now : Time) (d : gmap string tokenRedis.entry) (id : string)
    : option Token :=
  match tokenRedis.peek now d (tokenRedis.token_key id) with
  | Some e =>
      match tokenRedis.val e with
      | tokenRedis.VString t =>
          Some (set_ExpiresIn (whole_seconds (Sub (Expiration t) now)) t)
      | tokenRedis.VSet _ => None
      end
  | None => None
  end.

(** A computation keeps a property of the store: it holds after the
    computation, returned or panicked, when it held before, whatever the
    script of faults. *)
Definition keeps {S A : Type} (P : S → Prop) (m : M (remote S) A) : Prop :=
  ∀ w, P (store w) → P (store (m w).2).

(** The members [SMEMBERS] lists for a consumer at [now]. *)
Definition index_of (now : Time) (d : gmap string tokenRedis.entry) (consumerID : string)
    : list string :=
  match tokenRedis.peek now d (tokenRedis.consumer_key consumerID) with
  | Some e =>
      match tokenRedis.val e with
      | tokenRedis.VSet l => l
      | tokenRedis.VString _ => []
      end
  | None => []
  end.

(** * Properties *)

(** ** The token entity *)

Section TokenEntity.

Implicit Types (t : Token) (now last : Time) (timeout : Z).

Lemma isValid_spec now t : isValid now t = negb (Expiration t <? now).
Proof. unfold isValid, After. by destruct (Expiration t <? now). Qed.

Lemma isValid_true now t : isValid now t = true ↔ now <= Expiration t.
Proof. rewrite isValid_spec, negb_true_iff. apply Z.ltb_ge. Qed.

Lemma isValid_false now t : isValid now t = false ↔ Expiration t < now.
Proof. rewrite isValid_spec, negb_false_iff. apply Z.ltb_lt. Qed.

(** Setting a field other than [Expiration] leaves [Expiration] alone. *)
Lemma Expiration_set_CreatedAt c t : Expiration (set_CreatedAt c t) = Expiration t.
Proof. reflexivity. Qed.

Lemma Expiration_set_ExpiresIn n t : Expiration (set_ExpiresIn n t) = Expiration t.
Proof. reflexivity. Qed.



End TokenEntity.

(** C2, as stated, fails at the boundary: a token whose [Expiration] is the
    current instant is reported valid, because [isValid] asks whether now is
    [After] the expiration. *)
Lemma isValid_at_expiration_counterexample :
  isValid 1000 (mkToken "T1" "" "C1" "" 0 1000 0) = true.
Proof. reflexivity. Qed.

(** C2 (amended): [isValid] is false exactly when the current time is
    strictly later than [Expiration], and true exactly when it is at or
    before [Expiration]; in particular it is true one microsecond before
    [Expiration] and still true at [Expiration] itself. *)
Theorem isValid_boundary :
  ∀ (now : Time) (t : Token),
    (isValid now t = false ↔ Expiration t < now) ∧
    (isValid now t = true ↔ now <= Expiration t) ∧
    isValid (Expiration t - Microsecond) t = true ∧
    isValid (Expiration t) t = true.
Proof.
  intros now t. split; [apply isValid_false |].
  split; [apply isValid_true |].
  split; apply isValid_true; unfold Microsecond, Nanosecond; lia.
Qed.




(** ** The in-process repository *)

Section MemStoreFacts.

Import TokenMemStore.

Implicit Types (w : world) (p : loc) (h : loc → Token) (d : gmap string loc).

Lemma ID_set_CreatedAt c (t : Token) : ID (set_CreatedAt c t) = ID t.
Proof. reflexivity. Qed.

Lemma mem_Insert_fresh now p w :
  data w !! ID (heap w p) = None →
  Insert now (Some p) w =
    (Returned None,
     mkWorld (<[p := set_CreatedAt now (heap w p)]> (heap w))
             (<[ID (heap w p) := p]> (data w))).
Proof.
  intros Hfree. unfold Insert. rewrite Hfree. cbv zeta.
  by rewrite fn_lookup_insert, ID_set_CreatedAt.
Qed.

Lemma mem_Insert_taken now p w :
  is_Some (data w !! ID (heap w p)) →
  Insert now (Some p) w =
    (Returned (Some (AppError "invalid_input" "The token key already exits.")), w).
Proof. intros [q Hq]. unfold Insert. by rewrite Hq. Qed.

(** An insert that returns [nil] found the key free. *)
Lemma mem_Insert_ok_inv now p w w' :
  Insert now (Some p) w = (Returned None, w') →
  data w !! ID (heap w p) = None ∧
  w' = mkWorld (<[p := set_CreatedAt now (heap w p)]> (heap w))
               (<[ID (heap w p) := p]> (data w)).
Proof.
  intros Hins. destruct (data w !! ID (heap w p)) as [q|] eqn:Hq.
  - rewrite mem_Insert_taken in Hins by (rewrite Hq; eauto). discriminate.
  - rewrite mem_Insert_fresh in Hins by done. by inversion Hins.
Qed.

Lemma mem_Update_missing p w :
  data w !! ID (heap w p) = None →
  Update (Some p) w =
    (Returned (Some (AppError "invalid_input" "The token was not found.")), w).
Proof. intros Hnone. unfold Update. by rewrite Hnone. Qed.

Lemma mem_Update_present p w :
  is_Some (data w !! ID (heap w p)) →
  Update (Some p) w =
    (Returned None, mkWorld (heap w) (<[ID (heap w p) := p]> (data w))).
Proof. intros [q Hq]. unfold Update. by rewrite Hq. Qed.

Lemma mem_Delete_absent key w :
  data w !! key = None → Delete key w = (Returned None, w).
Proof.
  intros Hnone. unfold Delete. rewrite delete_id by done. by destruct w.
Qed.

(** The scan adds nothing when no stored token belongs to the consumer. *)
Lemma scan_none h d consumerID order result :
  (∀ k p, d !! k = Some p → ConsumerID (h p) ≠ consumerID) →
  scan h d consumerID order result = result.
Proof.
  intros Hother. revert result.
  induction order as [|k rest IH]; intros result; simpl; [done |].
  destruct (d !! k) as [p|] eqn:Hk; [| apply IH].
  destruct (decide (ConsumerID (h p) = consumerID)) as [Heq|_]; [| apply IH].
  by destruct (Hother k p Hk).
Qed.

(** The sweep, entry by entry, when every entry sits under its [ID]. *)
Lemma sweep_lookup h consumerID order d k :
  (∀ k' p, d !! k' = Some p → ID (h p) = k') →
  sweep h consumerID order d !! k =
    match d !! k with
    | Some p =>
        if decide (k ∈ order ∧ ConsumerID (h p) = consumerID) then None else Some p
    | None => None
    end.
Proof.
  revert d. induction order as [|k0 rest IH]; intros d Hkeyed; cbn [sweep].
  - destruct (d !! k) as [p|]; [| done].
    rewrite decide_False; [done |]. intros [Hin _].
    by apply elem_of_nil in Hin.
  - destruct (d !! k0) as [p0|] eqn:Hk0.
    + destruct (decide (ConsumerID (h p0) = consumerID)) as [Hown|Hown].
      * rewrite (Hkeyed k0 p0 Hk0). rewrite IH.
        2:{ intros k' p [_ Hk']%lookup_delete_Some. by apply Hkeyed. }
        destruct (decide (k = k0)) as [->|Hne].
        -- rewrite lookup_delete_eq, Hk0.
           rewrite decide_True; [done |].
           split; [apply list_elem_of_here | done].
        -- rewrite lookup_delete_ne by done.
           destruct (d !! k) as [p|]; [| done].
           apply decide_ext. rewrite elem_of_cons.
           split; [intros [Hin Hc]; by auto | by intros [[?|?] ?]].
      * rewrite IH by done.
        destruct (d !! k) as [p|] eqn:Hk; [| done].
        apply decide_ext. rewrite elem_of_cons.
        split; [intros [Hin Hc]; by auto |]. intros [[->|Hin] Hc]; [| done].
        rewrite Hk0 in Hk. by simplify_eq.
    + rewrite IH by done.
      destruct (d !! k) as [p|] eqn:Hk; [| done].
      apply decide_ext. rewrite elem_of_cons.
      split; [intros [Hin Hc]; by auto |]. intros [[->|Hin] Hc]; [| done].
      rewrite Hk0 in Hk. discriminate.
Qed.

(** The keys that [range] presents cover the map. *)
Lemma range_order_covers w order k :
  range_order w order → is_Some (data w !! k) → k ∈ order.
Proof.
  unfold range_order. intros Hperm [p Hp]. rewrite Hperm.
  apply list_elem_of_fmap. exists (k, p). split; [done |].
  by apply elem_of_map_to_list.
Qed.

(** Cascade completeness of the in-process repository: once
    [DeleteByConsumerID] has gone over the map, a scan for the consumer
    finds nothing, however many tokens the consumer held. *)
Lemma MemStore_cascade_complete w order order' consumerID :
  keyed w →
  range_order w order →
  ∃ w',
    DeleteByConsumerID order consumerID w = (Returned None, w') ∧
    GetByConsumerID order' consumerID w' = (Returned ([], None), w') ∧
    (∀ k p, data w !! k = Some p → ConsumerID (heap w p) = consumerID →
            Get k w' = (Returned (None, None), w')).
Proof.
  intros Hkeyed Horder. eexists. split; [reflexivity |].
  assert (Hgone : ∀ k p,
    sweep (heap w) consumerID order (data w) !! k = Some p →
    ConsumerID (heap w p) ≠ consumerID).
  { intros k p. rewrite sweep_lookup by apply Hkeyed.
    destruct (data w !! k) as [q|] eqn:Hk; [| done].
    case_decide as Hdec; [done |]. intros [= ->] Hown. apply Hdec.
    split; [| done]. eapply range_order_covers; [done |]. rewrite Hk; eauto. }
  split.
  - unfold GetByConsumerID. simpl. by rewrite scan_none.
  - intros k p Hk Hown. unfold Get. simpl.
    rewrite sweep_lookup by apply Hkeyed. rewrite Hk.
    rewrite decide_True; [done |]. split; [| done].
    eapply range_order_covers; [done |]. rewrite Hk; eauto.
Qed.

(** The methods keep every entry under the [ID] of its token. *)
Lemma mem_Insert_keyed now p w w' r :
  keyed w → Insert now (Some p) w = (Returned r, w') → keyed w'.
Proof.
  intros Hkeyed Hins. destruct (data w !! ID (heap w p)) as [q|] eqn:Hq.
  - rewrite mem_Insert_taken in Hins by (rewrite Hq; eauto). by simplify_eq.
  - rewrite mem_Insert_fresh in Hins by done. simplify_eq.
    intros k p'. simpl. intros [[<- <-]|[Hne Hk]]%lookup_insert_Some.
    + by rewrite fn_lookup_insert.
    + destruct (decide (p' = p)) as [->|Hp].
      * rewrite fn_lookup_insert, ID_set_CreatedAt. by apply Hkeyed.
      * rewrite fn_lookup_insert_ne by done. by apply Hkeyed.
Qed.

Lemma mem_Update_keyed p w w' r :
  keyed w → Update (Some p) w = (Returned r, w') → keyed w'.
Proof.
  intros Hkeyed Hupd. destruct (data w !! ID (heap w p)) as [q|] eqn:Hq.
  - rewrite mem_Update_present in Hupd by (rewrite Hq; eauto). simplify_eq.
    intros k p'. simpl. intros [[<- <-]|[Hne Hk]]%lookup_insert_Some; [done |].
    by apply Hkeyed.
  - rewrite mem_Update_missing in Hupd by done. by simplify_eq.
Qed.

Lemma mem_Delete_keyed key w w' r :
  keyed w → Delete key w = (Returned r, w') → keyed w'.
Proof.
  intros Hkeyed Hdel. unfold Delete in Hdel. simplify_eq.
  intros k p. simpl. intros [_ Hk]%lookup_delete_Some. by apply Hkeyed.
Qed.

Lemma newTokenMemStore_keyed h : keyed (newTokenMemStore h).
Proof. intros k p. unfold newTokenMemStore. simpl. by rewrite lookup_empty. Qed.

End MemStoreFacts.

(** ** Calls to a remote store *)

Section RemoteFacts.

Context {S A : Type}.

Implicit Types (f : S → (A + string) * S) (s : S).

(** With the script used up, a call reaches the store. *)
Lemma call_quiet f s :
  call f (mkRemote s []) = (Returned (f s).1, mkRemote (f s).2 []).
Proof. unfold call. simpl. by destruct (f s). Qed.

Lemma call_reached f s rest :
  call f (mkRemote s (None :: rest)) = (Returned (f s).1, mkRemote (f s).2 rest).
Proof. unfold call. simpl. by destruct (f s). Qed.

Lemma call_fault f s e rest :
  call f (mkRemote s (Some e :: rest)) = (Returned (inr e), mkRemote s rest).
Proof. reflexivity. Qed.

(** A call returns: either it reached the store, or it hands back a fault
    and the store is as before.  It never panics by itself. *)
Lemma call_inv f (w w' : remote S) r :
  call f w = (r, w') →
  ∃ a, r = Returned a ∧ faults w' = tail (faults w) ∧
       ((a = (f (store w)).1 ∧ store w' = (f (store w)).2) ∨
        (∃ e, a = inr e ∧ store w' = store w)).
Proof.
  destruct w as [s [|[e|] rest]].
  - rewrite call_quiet. intros [= <- <-]. eexists. split; [done |]. split; [done |]. by left.
  - rewrite call_fault. intros [= <- <-]. eexists. split; [done |]. split; [done |].
    right. by eexists.
  - rewrite call_reached. intros [= <- <-]. eexists. split; [done |]. split; [done |]. by left.
Qed.

Context {B : Type}.

Implicit Types (k : A + string → M (remote S) B).

Lemma bind_call_quiet f k s :
  bind (call f) k (mkRemote s []) = k (f s).1 (mkRemote (f s).2 []).
Proof. unfold bind. by rewrite call_quiet. Qed.

Lemma bind_call_reached f k s rest :
  bind (call f) k (mkRemote s (None :: rest)) = k (f s).1 (mkRemote (f s).2 rest).
Proof. unfold bind. by rewrite call_reached. Qed.

Lemma bind_call_fault f k s e rest :
  bind (call f) k (mkRemote s (Some e :: rest)) = k (inr e) (mkRemote s rest).
Proof. reflexivity. Qed.

End RemoteFacts.

(** One step of a method: the next call to the store, whatever the script
    says of it. *)
Ltac step_call :=
  first [ rewrite bind_call_quiet | rewrite bind_call_reached | rewrite bind_call_fault ];
  cbn [fst snd].

(** ** The document-store repository *)

Section MongoFacts.

Import tokenMongo.

Implicit Types (c : collection) (w : world) (t doc : Token) (key : string).

(** A datetime is the whole millisecond at or before the instant. *)
Lemma datetime_bounds (t : Time) :
  t - Millisecond < datetime t <= t.
Proof.
  unfold datetime. change Millisecond with 1000000.
  pose proof (Z.div_mod t 1000000 ltac:(lia)).
  pose proof (Z.mod_pos_bound t 1000000 ltac:(lia)). lia.
Qed.

Lemma find_by_id_None key c :
  List.find (by_id key) c = None ↔ key ∉ ID <$> c.
Proof.
  induction c as [|t c IH]; csimpl.
  - split; [intros _; apply not_elem_of_nil | done].
  - unfold by_id at 1. rewrite elem_of_cons.
    destruct (bool_decide_reflect (ID t = key)) as [Heq|Hne].
    + split; [done |]. intros Hnot. destruct Hnot. by left.
    + rewrite IH. split; [intros Hnot [?|?]; by auto |].
      intros Hnot Hin. apply Hnot. by right.
Qed.

Lemma existsb_by_id key c :
  existsb (by_id key) c = true ↔ key ∈ ID <$> c.
Proof.
  induction c as [|t c IH]; csimpl.
  - split; [done | intros []%elem_of_nil].
  - rewrite orb_true_iff, IH, elem_of_cons. unfold by_id.
    rewrite bool_decide_eq_true. split; (intros [?|?]; [by left | by right]).
Qed.

Lemma remove_first_None sel c :
  remove_first sel c = None ↔ Forall (λ t, sel t = false) c.
Proof.
  induction c as [|t c IH]; simpl.
  - split; [by constructor | done].
  - rewrite Forall_cons_iff. destruct (sel t).
    + split; [done | by intros [? _]].
    + destruct (remove_first sel c); simpl.
      * split; [done |]. intros [_ Hall]. by apply IH in Hall.
      * split; [| done]. intros _. split; [done |]. by apply IH.
Qed.

(** [Remove] takes out one document: the matches left are one fewer. *)
Lemma remove_first_filter sel c c' :
  remove_first sel c = Some c' →
  length (List.filter sel c) = Datatypes.S (length (List.filter sel c')).
Proof.
  revert c'. induction c as [|t c IH]; intros c'; simpl; [done |].
  destruct (sel t) eqn:Hsel.
  - intros [= <-]. done.
  - destruct (remove_first sel c) as [c''|]; simpl; [| done].
    intros [= <-]. simpl. rewrite Hsel. by apply IH.
Qed.

Lemma mongo_Get_absent key c :
  key ∉ ID <$> c →
  Get key (mkRemote c []) = (Returned (None, None), mkRemote c []).
Proof.
  intros Habs%find_by_id_None. unfold Get, newSession.
  step_call. step_call. unfold One. by rewrite Habs.
Qed.

Lemma mongo_Delete_absent key c :
  key ∉ ID <$> c →
  Delete key (mkRemote c []) =
    (Returned (Some (DriverError "not found")), mkRemote c []).
Proof.
  intros Habs%find_by_id_None. unfold Delete, newSession.
  step_call. step_call. unfold Remove.
  assert (remove_first (by_id key) c = None) as ->; [| done].
  apply remove_first_None. apply List.Forall_forall. intros t Hin.
  exact (List.find_none _ _ Habs t Hin).
Qed.

(** The insert of a document, once the session is there. *)
Lemma InsertDoc_spec doc c :
  InsertDoc doc c =
    if bool_decide (ID doc ∈ ID <$> c) then (inr E11000, c)
    else (inl tt, (c ++ [bson doc])%list).
Proof.
  unfold InsertDoc. destruct (existsb (by_id (ID doc)) c) eqn:Hex.
  - rewrite bool_decide_eq_true_2; [done |]. by apply existsb_by_id.
  - rewrite bool_decide_eq_false_2; [done |].
    intros Hin%existsb_by_id. congruence.
Qed.

(** What the store holds after an insert that returned [nil]. *)
Lemma mongo_Insert_ok_inv now t t' w w' :
  Insert now t w = (Returned (t', None), w') →
  t' = set_CreatedAt now t ∧
  (ID t ∉ ID <$> store w) ∧
  store w' = (store w ++ [bson (set_CreatedAt now t)])%list.
Proof.
  destruct w as [c fs]. unfold Insert, newSession. cbn [store].
  destruct fs as [|[e|] fs]; step_call; [| done |].
  - step_call. rewrite InsertDoc_spec, ID_set_CreatedAt.
    case_bool_decide as Hin; cbn; [done |]. by intros [= <- <-].
  - destruct fs as [|[e|] fs]; step_call.
    + rewrite InsertDoc_spec, ID_set_CreatedAt.
      case_bool_decide as Hin; cbn; [done |]. by intros [= <- <-].
    + by destruct (String.prefix "E11000" e).
    + rewrite InsertDoc_spec, ID_set_CreatedAt.
      case_bool_decide as Hin; cbn; [done |]. by intros [= <- <-].
Qed.


(** A successful [DeleteByConsumerID] takes one document of the consumer
    out of the collection and leaves the others. *)
Lemma mongo_DeleteByConsumerID_leaves consumerID c w' :
  DeleteByConsumerID consumerID (mkRemote c []) = (Returned None, w') →
  ∃ rest,
    GetByConsumerID consumerID w' = (Returned (Some rest, None), w') ∧
    length (List.filter (by_consumer consumerID) c) = Datatypes.S (length rest).
Proof.
  unfold DeleteByConsumerID, newSession.
  step_call. step_call. unfold Remove.
  destruct (remove_first (by_consumer consumerID) c) as [c'|] eqn:Hrm; cbn; [| done].
  intros [= <-]. exists (List.filter (by_consumer consumerID) c'). split.
  - unfold GetByConsumerID, newSession. step_call. by step_call.
  - by apply remove_first_filter.
Qed.

End MongoFacts.

(** ** The key-value repository *)

Section RedisFacts.

Import tokenRedis.

Implicit Types (d : db) (w : world) (t : Token) (id key : string) (now : Time).

(** Token keys and index keys never meet, and a token key names its id. *)
Lemma token_key_consumer_key id consumerID : token_key id ≠ consumer_key consumerID.
Proof. unfold token_key, consumer_key. simpl. discriminate. Qed.

Lemma token_key_inj id id' : token_key id = token_key id' → id = id'.
Proof. unfold token_key. simpl. by intros [=]. Qed.

Lemma peek_None_absent now d key : d !! key = None → peek now d key = None.
Proof. intros Hnone. unfold peek. by rewrite Hnone. Qed.

Lemma peek_insert_ne now d key key' e :
  key ≠ key' → peek now (<[key := e]> d) key' = peek now d key'.
Proof. intros Hne. unfold peek. by rewrite lookup_insert_ne. Qed.

Lemma SADD_other now key member d key' :
  key ≠ key' → (SADD now key member d).2 !! key' = d !! key'.
Proof.
  intros Hne. unfold SADD. destruct (peek now d key) as [e|]; cbn [snd].
  - destruct (val e) as [s|l]; [done |].
    case_bool_decide; cbn [snd]; [done |]. by rewrite lookup_insert_ne.
  - by rewrite lookup_insert_ne.
Qed.

Lemma drop_records_other ids d key :
  (∀ id, id ∈ ids → token_key id ≠ key) →
  drop_records ids d !! key = d !! key.
Proof.
  unfold drop_records. revert d. induction ids as [|id ids IH]; intros d Hne; simpl; [done |].
  rewrite IH.
  - apply lookup_delete_ne. apply Hne, list_elem_of_here.
  - intros id' Hin. by apply Hne, list_elem_of_further.
Qed.

Lemma drop_records_gone ids d id :
  id ∈ ids → drop_records ids d !! token_key id = None.
Proof.
  unfold drop_records. revert d. induction ids as [|id0 ids IH]; intros d Hin; simpl.
  - by apply elem_of_nil in Hin.
  - destruct (decide (id ∈ ids)) as [Hin'|Hnin]; [by apply IH |].
    apply elem_of_cons in Hin as [->|Hin]; [| done].
    fold (drop_records ids (delete (token_key id0) d)).
    destruct (decide (id0 ∈ ids)); [done |].
    rewrite drop_records_other; [apply lookup_delete_eq |].
    intros id' Hid' Heq%token_key_inj. by subst.
Qed.

Lemma redis_Get_absent now id d :
  peek now d (token_key id) = None →
  Get now id (mkRemote d []) = (Returned (None, None), mkRemote d []).
Proof.
  intros Habs. unfold Get. step_call. unfold GET. by rewrite Habs.
Qed.

Lemma redis_Delete_quiet id d :
  Delete id (mkRemote d []) = (Returned None, mkRemote (delete (token_key id) d) []).
Proof. unfold Delete. by step_call. Qed.

(** Deleting a key that no client can see changes nothing that a client
    can see, then or later. *)
Lemma view_delete_absent now now' d key :
  peek now d key = None → now <= now' → view now' (delete key d) = view now' d.
Proof.
  intros Habs Hlater. unfold view. rewrite map_filter_delete.
  apply delete_id. apply map_lookup_filter_None. unfold peek in Habs.
  destruct (d !! key) as [e|] eqn:Hkey; [right | by left].
  intros e' [= <-]. simpl. destruct (live now e) eqn:Hlive; [done |].
  unfold live in *. destruct (deadline e) as [dl|]; [| done].
  apply Z.ltb_ge in Hlive. apply not_true_iff_false, Z.ltb_ge. lia.
Qed.

(** What the store holds after an insert that returned [nil]: the key was
    free, and the record is the caller's token with [CreatedAt] set, under
    the deadline asked for. *)
Lemma redis_Insert_ok_inv now t t' w w' :
  Insert now t w = (Returned (t', None), w') →
  t' = set_CreatedAt now t ∧
  peek now (store w) (token_key (ID t)) = None ∧
  store w' !! token_key (ID t) =
    Some (mkEntry (VString (set_CreatedAt now t)) (insert_deadline now t)).
Proof.
  unfold Insert. rewrite ID_set_CreatedAt. unfold bind at 1.
  destruct (call _ w) as [r1 w1] eqn:H1.
  apply call_inv in H1 as (a1 & -> & _ & [[-> Hs1]|(e & -> & _)]); [| done].
  unfold EXISTS in Hs1 |- *. cbn [fst snd] in Hs1 |- *.
  unfold bind at 1. cbn [err_of]. cbn [panicIf ret].
  case_bool_decide as Hthere; [done |].
  assert (Hfree : peek now (store w) (token_key (ID t)) = None).
  { destruct (peek now (store w) (token_key (ID t))) eqn:Hp; [| done].
    destruct Hthere. by eexists. }
  unfold bind at 1. destruct (call _ w1) as [r2 w2] eqn:H2.
  apply call_inv in H2 as (a2 & -> & _ & [[-> Hs2]|(e & -> & _)]); [| done].
  unfold SET in Hs2 |- *. unfold insert_deadline.
  change (Expiration (set_CreatedAt now t)) with (Expiration t) in *.
  destruct (deadline_of now (expiry_of (Sub (Expiration t) now))) as [dl|e];
    cbn [fst snd] in Hs2 |- *; [| done].
  unfold bind at 1. cbn [err_of]. cbn [panicIf ret].
  unfold bind at 1. destruct (call _ w2) as [r3 w3] eqn:H3.
  apply call_inv in H3 as (a3 & -> & _ & [[-> Hs3]|(e & -> & _)]); [| done].
  unfold bind at 1.
  destruct (SADD now _ _ (store w2)) as [[[]|e] d3] eqn:Hsadd; [| done].
  cbn [fst snd err_of] in *. cbn [panicIf ret]. intros [= <- <-].
  split; [done |]. split; [done |].
  rewrite Hs3. replace d3 with (SADD now (consumer_key (ConsumerID (set_CreatedAt now t)))
                                   (ID t) (store w2)).2 by (by rewrite Hsadd).
  rewrite SADD_other by (intros Heq; by apply (token_key_consumer_key (ID t)
                                                 (ConsumerID (set_CreatedAt now t)))).
  rewrite Hs2, Hs1. apply lookup_insert_eq.
Qed.

(** What becomes of a time-to-live on its way to the server: none is
    sent when it is not positive, a positive one below a millisecond is
    sent as zero and refused, and any other is cut down to whole
    milliseconds. *)
Lemma deadline_of_expiry now (exp : Duration) :
  deadline_of now (expiry_of exp) =
    if exp <=? 0 then inl None
    else if exp <? Millisecond then inr invalid_expire
    else inl (Some (now + exp / Millisecond * Millisecond)).
Proof.
  unfold expiry_of, deadline_of, usePrecise, formatMs, formatSec.
  change Second with 1000000000. change Millisecond with 1000000.
  destruct (Z.ltb_spec 0 exp) as [Hpos|Hneg]; destruct (Z.leb_spec exp 0) as [Hle|Hgt];
    try lia; [| done].
  destruct (Z.ltb_spec exp 1000000000) as [Hshort|Hlong]; cbn [orb].
  - destruct (Z.leb_spec (exp / 1000000) 0) as [Hz|Hz];
      destruct (Z.ltb_spec exp 1000000) as [Hms|Hms]; try done.
    + pose proof (Z.div_le_lower_bound exp 1000000 1 ltac:(lia) ltac:(lia)). lia.
    + pose proof (Z.div_small exp 1000000 ltac:(lia)). lia.
  - destruct (Z.eqb_spec (exp mod 1000000000) 0) as [Hwhole|Hfrac]; cbn [negb].
    + destruct (Z.ltb_spec exp 1000000) as [Hms|Hms]; [lia |].
      pose proof (Z.div_le_lower_bound exp 1000000000 1 ltac:(lia) ltac:(lia)).
      destruct (Z.leb_spec (exp / 1000000000) 0) as [Hz|Hz]; [lia |].
      do 3 f_equal.
      pose proof (Z.div_mod exp 1000000000 ltac:(lia)) as Hsec.
      rewrite Hwhole, Z.add_0_r in Hsec.
      rewrite Hsec at 2.
      replace (1000000000 * (exp / 1000000000)) with (exp / 1000000000 * 1000 * 1000000) by lia.
      rewrite Z.div_mul by lia. lia.
    + destruct (Z.ltb_spec exp 1000000) as [Hms|Hms]; [lia |].
      pose proof (Z.div_le_lower_bound exp 1000000 1 ltac:(lia) ltac:(lia)).
      destruct (Z.leb_spec (exp / 1000000) 0) as [Hz|Hz]; [lia | done].
Qed.


(** An insert under an id that is free, with a time-to-live the server
    takes and an index key that is a set or is not there, returns [nil]
    and leaves the record under the id. *)
Lemma redis_Insert_free now t d dl :
  peek now d (token_key (ID t)) = None →
  deadline_of now (expiry_of (Sub (Expiration t) now)) = inl dl →
  (∀ e, d !! consumer_key (ConsumerID t) = Some e → ∃ l, val e = VSet l) →
  ∃ d',
    Insert now t (mkRemote d []) = (Returned (set_CreatedAt now t, None), mkRemote d' []) ∧
    d' = (SADD now (consumer_key (ConsumerID t)) (ID t)
            (<[token_key (ID t) := mkEntry (VString (set_CreatedAt now t)) dl]> d)).2 ∧
    d' !! token_key (ID t) = Some (mkEntry (VString (set_CreatedAt now t)) dl).
Proof.
  intros Hfree Hexp Hset. eexists. split; [| split; [reflexivity |]].
  - unfold Insert. rewrite ID_set_CreatedAt. step_call.
    unfold EXISTS. cbn [fst snd err_of]. unfold bind at 1. cbn [panicIf ret].
    rewrite bool_decide_eq_false_2 by (rewrite Hfree; by intros [? ?]).
    step_call. unfold SET.
    change (Expiration (set_CreatedAt now t)) with (Expiration t).
    change (ConsumerID (set_CreatedAt now t)) with (ConsumerID t).
    rewrite Hexp. cbn [fst snd err_of]. unfold bind at 1. cbn [panicIf ret].
    step_call. unfold bind at 1.
    assert (Hadd : (SADD now (consumer_key (ConsumerID t)) (ID t)
                      (<[token_key (ID t) := mkEntry (VString (set_CreatedAt now t)) dl]> d)).1
                   = inl ()).
    { unfold SADD. rewrite peek_insert_ne by apply token_key_consumer_key.
      unfold peek. destruct (d !! consumer_key (ConsumerID t)) as [e|] eqn:He; [| done].
      destruct (Hset e eq_refl) as [l Hl].
      destruct (live now e); [| done]. rewrite Hl. by case_bool_decide. }
    rewrite Hadd. cbn [err_of panicIf ret]. reflexivity.
  - rewrite SADD_other by (intros Heq; symmetry in Heq; by apply token_key_consumer_key in Heq).
    apply lookup_insert_eq.
Qed.

Lemma redis_Insert_taken now t d :
  is_Some (peek now d (token_key (ID t))) →
  Insert now t (mkRemote d []) =
    (Returned (set_CreatedAt now t,
               Some (AppError "invalid_input" "The token key already exits")),
     mkRemote d []).
Proof.
  intros Hthere. unfold Insert. rewrite ID_set_CreatedAt. step_call.
  unfold EXISTS. cbn [fst snd err_of]. unfold bind at 1. cbn [panicIf ret].
  by rewrite bool_decide_eq_true_2.
Qed.

(** An update that returns has written the record with no deadline, and
    returns [nil]. *)
Lemma redis_Update_inv now t w r w' :
  Update now t w = (Returned r, w') →
  r = None ∧
  store w' = <[token_key (ID t) := mkEntry (VString t) None]> (store w).
Proof.
  unfold Update. unfold bind at 1.
  destruct (call _ w) as [r1 w1] eqn:H1.
  apply call_inv in H1 as (a1 & -> & _ & [[-> Hs1]|(e & -> & _)]); [| done].
  unfold SET in Hs1 |- *. cbn [fst snd err_of] in Hs1 |- *.
  unfold bind at 1. cbn [panicIf ret]. by intros [= <- <-].
Qed.

Lemma delete_each_quiet ids d :
  delete_each ids (mkRemote d []) = (Returned (), mkRemote (drop_records ids d) []).
Proof.
  revert d. induction ids as [|id ids IH]; intros d; [done |].
  cbn [delete_each]. unfold bind at 1. rewrite redis_Delete_quiet.
  cbv beta iota. unfold bind at 1. cbn [panicIf ret]. apply IH.
Qed.

(** The cascade stops at the first deletion that fails: the records
    listed before it are gone, the script moves past the fault, and the
    loop is left by a panic. *)
Lemma delete_each_fault pre id post d e rest :
  delete_each (pre ++ id :: post)
    (mkRemote d (replicate (length pre) None ++ Some e :: rest)) =
    (Panicked (DriverError e), mkRemote (drop_records pre d) rest).
Proof.
  revert d. induction pre as [|id0 pre IH]; intros d.
  - cbn [app length replicate delete_each]. unfold Delete.
    unfold bind at 1. by step_call.
  - cbn [app length replicate delete_each]. unfold Delete at 1.
    unfold bind at 1. step_call. unfold DEL. cbn [fst snd err_of].
    unfold bind at 1. cbn [panicIf ret].
    unfold bind at 1. cbn [panicIf ret]. apply IH.
Qed.

Lemma redis_DeleteByConsumerID_quiet now consumerID d ids :
  SMEMBERS now (consumer_key consumerID) d = (inl ids, d) →
  DeleteByConsumerID now consumerID (mkRemote d []) =
    (Returned None, mkRemote (delete (consumer_key consumerID) (drop_records ids d)) []).
Proof.
  intros Hmembers. unfold DeleteByConsumerID. step_call. rewrite Hmembers.
  cbn [fst snd]. unfold bind at 1. rewrite delete_each_quiet.
  by step_call.
Qed.

(** [SMEMBERS] answers with the members, or refuses a key of the wrong
    kind; either way the database is as before. *)
Lemma SMEMBERS_cases now key d :
  (∃ ids, SMEMBERS now key d = (inl ids, d)) ∨
  SMEMBERS now key d = (inr WRONGTYPE, d).
Proof.
  unfold SMEMBERS. destruct (peek now d key) as [e|]; [| left; by eexists].
  destruct (val e); [by right | left; by eexists].
Qed.

(** Cascade completeness of the key-value repository: once
    [DeleteByConsumerID] has returned, the index of the consumer is gone
    and [GetByConsumerID] finds nothing. *)
Lemma redis_cascade_complete now now' clock consumerID d w' :
  DeleteByConsumerID now consumerID (mkRemote d []) = (Returned None, w') →
  GetByConsumerID now' clock consumerID w' = (Returned ([], None), w').
Proof.
  destruct (SMEMBERS_cases now (consumer_key consumerID) d) as [[ids Hm]|Hm].
  - rewrite (redis_DeleteByConsumerID_quiet _ _ _ _ Hm). intros [= <-].
    unfold GetByConsumerID. step_call. unfold SMEMBERS.
    rewrite peek_None_absent by apply lookup_delete_eq. done.
  - unfold DeleteByConsumerID. step_call. by rewrite Hm.
Qed.

End RedisFacts.

(** ** The repository contract across the three backends *)




(** With transport faults in the script, the [Get] of an absent id still
    returns no token; what it reports, if anything, is a fault of the
    script: the document-store repository returns it, the key-value
    repository panics with it. *)
Lemma Get_absent_under_faults :
  (∀ (key : string) (c : list Token) (fs : list (option string)),
     key ∉ ID <$> c →
     ∃ fs',
       tokenMongo.Get key (mkRemote c fs) = (Returned (None, None), mkRemote c fs') ∨
       ∃ e, Some e ∈ fs ∧
            tokenMongo.Get key (mkRemote c fs) =
              (Returned (None, Some (DriverError e)), mkRemote c fs')) ∧
  (∀ (now : Time) (id : string) (d : gmap string tokenRedis.entry) (fs : list (option string)),
     tokenRedis.peek now d (tokenRedis.token_key id) = None →
     ∃ fs',
       tokenRedis.Get now id (mkRemote d fs) = (Returned (None, None), mkRemote d fs') ∨
       ∃ e, Some e ∈ fs ∧
            tokenRedis.Get now id (mkRemote d fs) = (Panicked (DriverError e), mkRemote d fs')).
Proof.
  split.
  - intros key c fs Habs%find_by_id_None. unfold tokenMongo.Get, tokenMongo.newSession.
    assert (Hone : tokenMongo.One (tokenMongo.by_id key) c = (inr "not found", c)).
    { unfold tokenMongo.One. by rewrite Habs. }
    destruct fs as [|[e|] fs]; step_call.
    + exists []. left. step_call. by rewrite Hone.
    + exists fs. right. exists e. split; [apply list_elem_of_here | done].
    + destruct fs as [|[e|] fs]; step_call.
      * exists []. left. by rewrite Hone.
      * exists fs. destruct (decide (e = "not found")) as [->|Hne]; [by left |].
        right. exists e. split; [apply list_elem_of_further, list_elem_of_here | done].
      * exists fs. left. by rewrite Hone.
  - intros now id d fs Habs. unfold tokenRedis.Get.
    assert (Hget : tokenRedis.GET now (tokenRedis.token_key id) d = (inr "redis: nil", d)).
    { unfold tokenRedis.GET. by rewrite Habs. }
    destruct fs as [|[e|] fs]; step_call.
    + exists []. left. by rewrite Hget.
    + exists fs. destruct (decide (e = "redis: nil")) as [->|Hne]; [by left |].
      right. exists e. split; [apply list_elem_of_here | done].
    + exists fs. left. by rewrite Hget.
Qed.

(** C5: [Get] of an id that the store does not hold returns no token and no
    error, on each of the three repositories (the remote stores being
    reachable; on the key-value repository an id is absent when its key was
    never written, was deleted, or has reached its deadline). *)
Theorem Get_absent_is_nil_nil :
  (∀ (key : string) (w : TokenMemStore.world),
     TokenMemStore.data w !! key = None →
     TokenMemStore.Get key w = (Returned (None, None), w)) ∧
  (∀ (key : string) (c : list Token),
     key ∉ ID <$> c →
     tokenMongo.Get key (mkRemote c []) = (Returned (None, None), mkRemote c [])) ∧
  (∀ (now : Time) (id : string) (d : gmap string tokenRedis.entry),
     tokenRedis.peek now d (tokenRedis.token_key id) = None →
     tokenRedis.Get now id (mkRemote d []) = (Returned (None, None), mkRemote d [])).
Proof.
  split; [| split].
  - intros key w Habs. unfold TokenMemStore.Get. by rewrite Habs.
  - apply mongo_Get_absent.
  - apply redis_Get_absent.
Qed.

Lemma Get_absent_is_nil_nil_witness :
  TokenMemStore.Get "nonexistent-id" Examples.mem_two =
    (Returned (None, None), Examples.mem_two) ∧
  tokenMongo.Get "nonexistent-id" Examples.mongo_two =
    (Returned (None, None), Examples.mongo_two) ∧
  tokenRedis.Get 5 "nonexistent-id" (mkRemote (store Examples.redis_two) []) =
    (Returned (None, None), mkRemote (store Examples.redis_two) []) ∧
  tokenRedis.Get (61 * Second) "T1" (mkRemote (store Examples.redis_two) []) =
    (Returned (None, None), mkRemote (store Examples.redis_two) []).
Proof.
  destruct Get_absent_is_nil_nil as (Hmem & Hmongo & Hredis).
  split; [| split; [| split]].
  - apply Hmem. reflexivity.
  - apply Hmongo. apply find_by_id_None. reflexivity.
  - apply Hredis. reflexivity.
  - apply Hredis. reflexivity.
Defined.

(** C6: on the in-process repository, [Update] of a token whose id is not
    in the map returns the not-found [AppError] and leaves the store as it
    is (so it does in a store in which nothing was ever inserted); [Update]
    of a token whose id is in the map returns [nil] and puts the token
    under its id, in place of the one that was there, leaving the other
    entries alone. *)
Theorem MemStore_Update_requires_existing_id :
  ∀ (p : TokenMemStore.loc) (w : TokenMemStore.world),
    (TokenMemStore.data w !! ID (TokenMemStore.heap w p) = None →
     TokenMemStore.Update (Some p) w =
       (Returned (Some (AppError "invalid_input" "The token was not found.")), w)) ∧
    (∀ h, TokenMemStore.Update (Some p) (TokenMemStore.newTokenMemStore h) =
       (Returned (Some (AppError "invalid_input" "The token was not found.")),
        TokenMemStore.newTokenMemStore h)) ∧
    (is_Some (TokenMemStore.data w !! ID (TokenMemStore.heap w p)) →
     ∃ w',
       TokenMemStore.Update (Some p) w = (Returned None, w') ∧
       TokenMemStore.heap w' = TokenMemStore.heap w ∧
       TokenMemStore.Get (ID (TokenMemStore.heap w p)) w' = (Returned (Some p, None), w') ∧
       ∀ key, key ≠ ID (TokenMemStore.heap w p) →
              TokenMemStore.data w' !! key = TokenMemStore.data w !! key).
Proof.
  intros p w. split; [apply mem_Update_missing |]. split.
  - intros h. apply mem_Update_missing. apply lookup_empty.
  - intros Hthere. eexists. split; [by apply mem_Update_present |].
    split; [done |]. split.
    + unfold TokenMemStore.Get. simpl. by rewrite lookup_insert_eq.
    + intros key Hne. simpl. by rewrite lookup_insert_ne.
Qed.

Lemma MemStore_Update_requires_existing_id_witness :
  TokenMemStore.Update (Some 2%positive) Examples.mem_one =
    (Returned (Some (AppError "invalid_input" "The token was not found.")),
     Examples.mem_one) ∧
  ∃ w',
    TokenMemStore.Update (Some 3%positive) Examples.mem_one = (Returned None, w') ∧
    TokenMemStore.heap w' = TokenMemStore.heap Examples.mem_one ∧
    TokenMemStore.Get "T1" w' = (Returned (Some 3%positive, None), w') ∧
    ∀ key, key ≠ "T1" → TokenMemStore.data w' !! key = TokenMemStore.data Examples.mem_one !! key.
Proof.
  split.
  - apply (MemStore_Update_requires_existing_id 2%positive Examples.mem_one). reflexivity.
  - apply (MemStore_Update_requires_existing_id 3%positive Examples.mem_one).
    exists 1%positive. reflexivity.
Defined.

(** What the two remote repositories do with an update for an id they do
    not hold.  The document store refuses it too, with the
    driver's "not found" ([c.Update] reports it when no document matches),
    and the collection stays as it is; the key-value store writes the
    record. *)
Lemma remote_Update_of_missing_id :
  (∀ (t : Token) (c : list Token),
     ID t ∉ ID <$> c →
     tokenMongo.Update t (mkRemote c []) =
       (Returned (Some (DriverError "not found")), mkRemote c [])) ∧
  (∀ (now : Time) (t : Token) (d : gmap string tokenRedis.entry),
     tokenRedis.Update now t (mkRemote d []) =
       (Returned None,
        mkRemote (<[tokenRedis.token_key (ID t) :=
                      tokenRedis.mkEntry (tokenRedis.VString t) None]> d) [])).
Proof.
  split.
  - intros t c Habs%find_by_id_None. unfold tokenMongo.Update, tokenMongo.newSession.
    step_call. step_call. unfold tokenMongo.UpdateDoc.
    assert (tokenMongo.replace_first (tokenMongo.by_id (ID t)) t c = None) as ->; [| done].
    induction c as [|t0 c IH]; simpl in *; [done |].
    destruct (tokenMongo.by_id (ID t) t0); [done |]. by rewrite IH.
  - intros now t d. unfold tokenRedis.Update. by step_call.
Qed.

Section InsertedRecord.

Lemma find_app_fresh (sel : Token → bool) (c : list Token) (doc : Token) :
  List.find sel c = None → sel doc = true → List.find sel (c ++ [doc]) = Some doc.
Proof.
  intros Hnone Hsel. induction c as [|t c IH]; simpl in *; [by rewrite Hsel |].
  destruct (sel t); [done | by apply IH].
Qed.

End InsertedRecord.

(** C9, as stated, fails on the document store, which keeps a time in
    whole milliseconds: after an insert at a clock reading that is not a
    whole millisecond the caller's token carries the reading, and the
    stored record carries the millisecond before it. *)
Lemma Mongo_Insert_CreatedAt_counterexample :
  (tokenMongo.Insert 1793396579364465954 Examples.T2 Examples.mongo_one).1 =
    Returned (set_CreatedAt 1793396579364465954 Examples.T2, None) ∧
  CreatedAt <$>
    List.find (tokenMongo.by_id "T2")
      (store (tokenMongo.Insert 1793396579364465954 Examples.T2 Examples.mongo_one).2) =
    Some 1793396579364000000.
Proof. split; reflexivity. Qed.

(** C9 (amended): on each of the three repositories, an insert that returns
    [nil] leaves under the id of the token a record whose [CreatedAt] comes
    from the clock reading of the insert, whatever the field held in the
    token that was handed over: the record of the in-process and of the
    key-value repository carries the reading itself, the document of the
    document store the reading cut down to the whole millisecond, less than
    a millisecond before it.  The caller's token carries the reading. *)
Theorem Insert_sets_CreatedAt :
  (∀ (now : Time) (p : TokenMemStore.loc) (w w' : TokenMemStore.world),
     TokenMemStore.Insert now (Some p) w = (Returned None, w') →
     TokenMemStore.Get (ID (TokenMemStore.heap w p)) w' = (Returned (Some p, None), w') ∧
     CreatedAt (TokenMemStore.heap w' p) = now) ∧
  (∀ (now : Time) (t t' : Token) (w w' : remote (list Token)),
     tokenMongo.Insert now t w = (Returned (t', None), w') →
     CreatedAt t' = now ∧
     ∃ doc, List.find (tokenMongo.by_id (ID t)) (store w') = Some doc ∧
            CreatedAt doc = now / Millisecond * Millisecond ∧
            now - Millisecond < CreatedAt doc <= now) ∧
  (∀ (now : Time) (t t' : Token) (w w' : remote (gmap string tokenRedis.entry)),
     tokenRedis.Insert now t w = (Returned (t', None), w') →
     CreatedAt t' = now ∧
     ∃ doc dl,
       store w' !! tokenRedis.token_key (ID t) = Some (tokenRedis.mkEntry (tokenRedis.VString doc) dl) ∧
       CreatedAt doc = now).
Proof.
  split; [| split].
  - intros now p w w' Hins. apply mem_Insert_ok_inv in Hins as [_ ->].
    unfold TokenMemStore.Get. simpl. by rewrite lookup_insert_eq, fn_lookup_insert.
  - intros now t t' w w' Hins.
    apply mongo_Insert_ok_inv in Hins as (-> & Hfresh & ->).
    split; [done |]. exists (tokenMongo.bson (set_CreatedAt now t)). split; [| split].
    + apply find_app_fresh; [by apply find_by_id_None |].
      unfold tokenMongo.by_id. by apply bool_decide_eq_true_2.
    + reflexivity.
    + apply datetime_bounds.
  - intros now t t' w w' Hins.
    apply redis_Insert_ok_inv in Hins as (-> & _ & Hentry).
    split; [done |]. by exists (set_CreatedAt now t), (tokenRedis.insert_deadline now t).
Qed.

Lemma Insert_sets_CreatedAt_witness :
  (TokenMemStore.Get "T1" (TokenMemStore.Insert 42 (Some 3%positive) Examples.mem_empty).2 =
     (Returned (Some 3%positive, None),
      (TokenMemStore.Insert 42 (Some 3%positive) Examples.mem_empty).2) ∧
   CreatedAt (TokenMemStore.heap (TokenMemStore.Insert 42 (Some 3%positive) Examples.mem_empty).2
                3%positive) = 42) ∧
  (CreatedAt (set_CreatedAt 1500042 Examples.T2) = 1500042 ∧
   ∃ doc, List.find (tokenMongo.by_id "T2")
            (store (tokenMongo.Insert 1500042 Examples.T2 Examples.mongo_one).2) = Some doc ∧
          CreatedAt doc = 1500042 / Millisecond * Millisecond ∧
          1500042 - Millisecond < CreatedAt doc <= 1500042) ∧
  (CreatedAt (set_CreatedAt 42 Examples.T2) = 42 ∧
   ∃ doc dl,
     store (tokenRedis.Insert 42 Examples.T2 Examples.redis_one).2 !! tokenRedis.token_key "T2" =
       Some (tokenRedis.mkEntry (tokenRedis.VString doc) dl) ∧
     CreatedAt doc = 42).
Proof.
  destruct Insert_sets_CreatedAt as (Hmem & Hmongo & Hredis).
  split; [| split].
  - apply (Hmem 42 3%positive Examples.mem_empty). reflexivity.
  - apply (Hmongo 1500042 Examples.T2 _ Examples.mongo_one). reflexivity.
  - apply (Hredis 42 Examples.T2 _ Examples.redis_one). reflexivity.
Defined.

(** C10: on the key-value repository, an [Update] that returns has
    returned [nil] and has written the record of the token with no
    deadline, whatever deadline the key carried before; from then on the
    record is there at every instant.  With the store reachable the update
    does return. *)
Theorem Redis_Update_writes_without_deadline :
  ∀ (now : Time) (t : Token) (w w' : remote (gmap string tokenRedis.entry)) (r : option error),
    tokenRedis.Update now t w = (Returned r, w') →
    r = None ∧
    store w' !! tokenRedis.token_key (ID t) = Some (tokenRedis.mkEntry (tokenRedis.VString t) None) ∧
    (∀ later, tokenRedis.peek later (store w') (tokenRedis.token_key (ID t)) =
                Some (tokenRedis.mkEntry (tokenRedis.VString t) None)) ∧
    (∀ d, tokenRedis.Update now t (mkRemote d []) =
            (Returned None,
             mkRemote (<[tokenRedis.token_key (ID t) := tokenRedis.mkEntry (tokenRedis.VString t) None]> d) [])).
Proof.
  intros now t w w' r Hupd. apply redis_Update_inv in Hupd as [-> Hstore].
  assert (Hentry : store w' !! tokenRedis.token_key (ID t) =
                     Some (tokenRedis.mkEntry (tokenRedis.VString t) None)).
  { rewrite Hstore. apply lookup_insert_eq. }
  split; [done |]. split; [done |]. split.
  - intros later. unfold tokenRedis.peek. by rewrite Hentry.
  - intros d. unfold tokenRedis.Update. step_call. reflexivity.
Qed.

(** The record of T1 is inserted with a deadline one minute away; the
    token is renewed and updated ten seconds later, and the deadline is
    gone. *)
Lemma Redis_Update_writes_without_deadline_witness :
  tokenRedis.deadline <$> (store Examples.redis_one !! tokenRedis.token_key "T1") = Some (Some (60 * Second)) ∧
  tokenRedis.deadline <$>
    (store (tokenRedis.Update (10 * Second) (renew (10 * Second) 1 Examples.T1) Examples.redis_one).2
       !! tokenRedis.token_key "T1") = Some None.
Proof.
  split; [reflexivity |].
  destruct (Redis_Update_writes_without_deadline (10 * Second)
              (renew (10 * Second) 1 Examples.T1) Examples.redis_one
              (tokenRedis.Update (10 * Second) (renew (10 * Second) 1 Examples.T1)
                 Examples.redis_one).2 None) as (_ & Hentry & _).
  - reflexivity.
  - change (ID (renew (10 * Second) 1 Examples.T1)) with "T1" in Hentry.
    rewrite Hentry. reflexivity.
Defined.

(** ** Deletion *)

(** C3 holds on the in-process and the key-value repositories
    ([MemStore_cascade_complete], [redis_cascade_complete]) and fails on the
    document store: [DeleteByConsumerID] calls [Remove], which takes out a
    single document.  With two tokens of consumer C1 in the collection the
    call returns [nil] and [GetByConsumerID] still finds the second one. *)
Theorem Mongo_DeleteByConsumerID_leaves_second_token :
  tokenMongo.DeleteByConsumerID "C1" (mkRemote [Examples.T1; Examples.T2] []) =
    (Returned None, mkRemote [Examples.T2] []) ∧
  tokenMongo.GetByConsumerID "C1" (mkRemote [Examples.T2] []) =
    (Returned (Some [Examples.T2], None), mkRemote [Examples.T2] []).
Proof. split; reflexivity. Qed.

(** On the other two repositories the cascade is complete, for a consumer
    with any number of tokens. *)
Lemma cascade_complete_in_process_and_key_value :
  (∀ (w : TokenMemStore.world) (order order' : list string) (consumerID : string),
     TokenMemStore.keyed w → TokenMemStore.range_order w order →
     ∃ w', TokenMemStore.DeleteByConsumerID order consumerID w = (Returned None, w') ∧
           TokenMemStore.GetByConsumerID order' consumerID w' = (Returned ([], None), w')) ∧
  (∀ (now now' : Time) (clock : nat → Time) (consumerID : string)
     (d : gmap string tokenRedis.entry) (w' : remote (gmap string tokenRedis.entry)),
     tokenRedis.DeleteByConsumerID now consumerID (mkRemote d []) = (Returned None, w') →
     tokenRedis.GetByConsumerID now' clock consumerID w' = (Returned ([], None), w')).
Proof.
  split.
  - intros w order order' consumerID Hkeyed Horder.
    destruct (MemStore_cascade_complete w order order' consumerID Hkeyed Horder)
      as (w' & Hdel & Hget & _).
    by exists w'.
  - intros now now' clock consumerID d w'. apply redis_cascade_complete.
Qed.

(** C4 holds on the in-process and the key-value repositories and fails on
    the document store: [Delete] hands back whatever [Remove] reports, and
    for an id that matches no document [Remove] reports "not found". *)
Theorem Mongo_Delete_absent_id_is_an_error :
  tokenMongo.Delete "nonexistent-id" (mkRemote [Examples.T1] []) =
    (Returned (Some (DriverError "not found")), mkRemote [Examples.T1] []).
Proof. reflexivity. Qed.

(** The same for every collection and every id it does not hold. *)
Lemma Mongo_Delete_absent_always_an_error :
  ∀ (key : string) (c : list Token),
    key ∉ ID <$> c →
    tokenMongo.Delete key (mkRemote c []) =
      (Returned (Some (DriverError "not found")), mkRemote c []).
Proof. apply mongo_Delete_absent. Qed.

(** On the other two repositories the deletion of an absent id returns
    [nil] and changes nothing: the in-process store is the same, and the
    key-value store shows the same keys at every later instant. *)
Lemma Delete_absent_in_process_and_key_value :
  (∀ (key : string) (w : TokenMemStore.world),
     TokenMemStore.data w !! key = None →
     TokenMemStore.Delete key w = (Returned None, w)) ∧
  (∀ (now : Time) (id : string) (d : gmap string tokenRedis.entry),
     tokenRedis.peek now d (tokenRedis.token_key id) = None →
     ∃ d', tokenRedis.Delete id (mkRemote d []) = (Returned None, mkRemote d' []) ∧
           ∀ later, now <= later → tokenRedis.view later d' = tokenRedis.view later d).
Proof.
  split; [apply mem_Delete_absent |].
  intros now id d Habs. eexists. split; [apply redis_Delete_quiet |].
  intros later Hlater. by eapply view_delete_absent.
Qed.

(** C8, as stated, fails: with the index of C1 listing T1 and T2 and the
    deletion of the record of T1 failing, [DeleteByConsumerID] panics with
    the failure on the spot; the record of T2 and the index key are still
    in the store afterwards. *)
Lemma Redis_DeleteByConsumerID_fault_counterexample :
  tokenRedis.SMEMBERS 0 (tokenRedis.consumer_key "C1") (store Examples.redis_two_faulty) =
    (inl ["T1"; "T2"], store Examples.redis_two_faulty) ∧
  (tokenRedis.DeleteByConsumerID 0 "C1" Examples.redis_two_faulty).1 =
    Panicked (DriverError "i/o timeout") ∧
  store (tokenRedis.DeleteByConsumerID 0 "C1" Examples.redis_two_faulty).2
    !! tokenRedis.token_key "T2" =
    Some (tokenRedis.mkEntry (tokenRedis.VString Examples.T2) (Some (60 * Second))) ∧
  store (tokenRedis.DeleteByConsumerID 0 "C1" Examples.redis_two_faulty).2
    !! tokenRedis.consumer_key "C1" =
    Some (tokenRedis.mkEntry (tokenRedis.VSet ["T1"; "T2"]) None).
Proof. repeat split; reflexivity. Qed.

(** C8 (amended): on the key-value repository, when the index of the
    consumer lists [pre ++ id :: post] and the deletion of the record of
    [id] is the first to fail, [DeleteByConsumerID] panics with that
    failure: the records of [pre] are deleted, and nothing else is touched;
    the index key and every record not listed in [pre] are as they were.
    No failure is collected and no error is returned. *)
Theorem Redis_DeleteByConsumerID_stops_at_first_failure :
  ∀ (now : Time) (consumerID : string) (d : gmap string tokenRedis.entry)
    (pre post : list string) (id e : string) (rest : list (option string)),
    tokenRedis.SMEMBERS now (tokenRedis.consumer_key consumerID) d = (inl (pre ++ id :: post)%list, d) →
    tokenRedis.DeleteByConsumerID now consumerID
      (mkRemote d (None :: replicate (length pre) None ++ Some e :: rest)%list) =
      (Panicked (DriverError e), mkRemote (tokenRedis.drop_records pre d) rest) ∧
    tokenRedis.drop_records pre d !! tokenRedis.consumer_key consumerID =
      d !! tokenRedis.consumer_key consumerID ∧
    (∀ id', id' ∉ pre →
            tokenRedis.drop_records pre d !! tokenRedis.token_key id' = d !! tokenRedis.token_key id') ∧
    (∀ id', id' ∈ pre → tokenRedis.drop_records pre d !! tokenRedis.token_key id' = None).
Proof.
  intros now consumerID d pre post id e rest Hmembers. split; [| split; [| split]].
  - unfold tokenRedis.DeleteByConsumerID. step_call. rewrite Hmembers. cbn [fst snd].
    unfold bind at 1. by rewrite delete_each_fault.
  - apply drop_records_other. intros id' _. apply token_key_consumer_key.
  - intros id' Hnot. apply drop_records_other.
    intros id'' Hin Heq%token_key_inj. by subst.
  - intros id' Hin. by apply drop_records_gone.
Qed.

Lemma Redis_DeleteByConsumerID_stops_at_first_failure_witness :
  tokenRedis.DeleteByConsumerID 0 "C1"
    (mkRemote (store Examples.redis_two) [None; None; Some "i/o timeout"]) =
    (Panicked (DriverError "i/o timeout"),
     mkRemote (tokenRedis.drop_records ["T1"] (store Examples.redis_two)) []) ∧
  tokenRedis.drop_records ["T1"] (store Examples.redis_two) !! tokenRedis.consumer_key "C1" =
    store Examples.redis_two !! tokenRedis.consumer_key "C1" ∧
  (∀ id', id' ∉ ["T1"] →
          tokenRedis.drop_records ["T1"] (store Examples.redis_two) !! tokenRedis.token_key id' =
            store Examples.redis_two !! tokenRedis.token_key id') ∧
  (∀ id', id' ∈ ["T1"] →
          tokenRedis.drop_records ["T1"] (store Examples.redis_two) !! tokenRedis.token_key id' = None).
Proof.
  apply (Redis_DeleteByConsumerID_stops_at_first_failure 0 "C1" (store Examples.redis_two)
           ["T1"] [] "T2" "i/o timeout" []).
  reflexivity.
Defined.


(** * Further properties of the token code *)

(** ** The token entity, continued *)

Section TokenWindow.

(** The largest timeout, in minutes, whose duration fits an [int64]. *)
Lemma minutes_in_range (timeout : Z) :
  0 <= timeout <= 153722867 → minutes timeout = timeout * Minute.
Proof.
  intros Hrange. unfold minutes, wrap64, Minute, Second, Millisecond, Microsecond, Nanosecond.
  rewrite (Z.mod_small (timeout + 2 ^ 63)) by lia.
  replace (timeout + 2 ^ 63 - 2 ^ 63) with timeout by lia.
  rewrite Z.mod_small by lia. lia.
Qed.

End TokenWindow.

(** X1: with a configured timeout between 0 and 153722867 minutes (the
    durations that fit an [int64]), the token of [newToken] expires exactly
    [timeout] minutes after its creation, carries the consumer and the
    fresh id, and is valid at an instant exactly when that instant is not
    later than the expiration; in particular it is valid when created. *)
Theorem newToken_validity_window :
  ∀ (now at_ : Time) (uuid consumerID : string) (timeout : Z),
    0 <= timeout <= 153722867 →
    let t := newToken now uuid timeout consumerID in
    Expiration t = now + timeout * Minute ∧
    CreatedAt t = now ∧ ID t = uuid ∧ ConsumerID t = consumerID ∧
    (isValid at_ t = true ↔ at_ <= now + timeout * Minute) ∧
    isValid now t = true.
Proof.
  intros now at_ uuid consumerID timeout Hrange t.
  assert (Hexp : Expiration t = now + timeout * Minute).
  { unfold t, newToken, Add. simpl. by rewrite minutes_in_range. }
  split; [done |]. do 3 (split; [done |]). split.
  - by rewrite isValid_true, Hexp.
  - apply isValid_true. rewrite Hexp. unfold Minute, Second, Millisecond, Microsecond, Nanosecond. lia.
Qed.

Lemma newToken_validity_window_witness :
  let t := newToken 1000 "T1" 60 "C1" in
  Expiration t = 1000 + 60 * Minute ∧
  CreatedAt t = 1000 ∧ ID t = "T1" ∧ ConsumerID t = "C1" ∧
  (isValid (1000 + 61 * Minute) t = true ↔ 1000 + 61 * Minute <= 1000 + 60 * Minute) ∧
  isValid 1000 t = true.
Proof. apply (newToken_validity_window 1000 (1000 + 61 * Minute) "T1" "C1" 60). lia. Defined.

(** X2: a timeout beyond that bound, from 153722868 to 307445734 minutes,
    overflows the [int64] product: the duration wraps around to a negative
    one, so the token of [newToken] is already invalid when it is created,
    and a token is invalid right after [renew]. *)
Theorem newToken_timeout_overflow :
  ∀ (now : Time) (uuid consumerID : string) (timeout : Z) (t0 : Token),
    153722868 <= timeout <= 307445734 →
    minutes timeout = timeout * Minute - 2 ^ 64 ∧
    isValid now (newToken now uuid timeout consumerID) = false ∧
    isValid now (renew now timeout t0) = false.
Proof.
  intros now uuid consumerID timeout t0 Hrange.
  assert (Hwrap : minutes timeout = timeout * Minute - 2 ^ 64).
  { unfold minutes, wrap64, Minute, Second, Millisecond, Microsecond, Nanosecond.
    rewrite (Z.mod_small (timeout + 2 ^ 63)) by lia.
    replace (timeout + 2 ^ 63 - 2 ^ 63) with timeout by lia.
    replace (timeout * (60 * (1000 * (1000 * (1000 * 1)))) + 2 ^ 63)
      with (timeout * 60000000000 - 2 ^ 63 + 1 * 2 ^ 64) by lia.
    rewrite Z.mod_add by lia. rewrite Z.mod_small by lia. lia. }
  split; [done |].
  assert (Hneg : minutes timeout < 0).
  { rewrite Hwrap. unfold Minute, Second, Millisecond, Microsecond, Nanosecond. lia. }
  split; apply isValid_false; simpl; unfold Add; lia.
Qed.

Lemma newToken_timeout_overflow_witness :
  minutes 200000000 = 200000000 * Minute - 2 ^ 64 ∧
  isValid 1000 (newToken 1000 "T1" 200000000 "C1") = false ∧
  isValid 1000 (renew 1000 200000000 Examples.T1) = false.
Proof. apply (newToken_timeout_overflow 1000 "T1" "C1" 200000000 Examples.T1). lia. Defined.

(** X3: [renew] touches nothing but [Expiration], and with a timeout in the
    range above it makes every token, expired or not, valid from the
    renewal until [timeout] minutes later. *)
Theorem renew_revives :
  ∀ (now at_ : Time) (timeout : Z) (t : Token),
    0 <= timeout <= 153722867 →
    let t' := renew now timeout t in
    ID t' = ID t ∧ Source t' = Source t ∧ ConsumerID t' = ConsumerID t ∧
    IPAddress t' = IPAddress t ∧ ExpiresIn t' = ExpiresIn t ∧ CreatedAt t' = CreatedAt t ∧
    Expiration t' = now + timeout * Minute ∧
    (now <= at_ <= now + timeout * Minute → isValid at_ t' = true).
Proof.
  intros now at_ timeout t Hrange t'. do 6 (split; [done |]).
  assert (Hexp : Expiration t' = now + timeout * Minute).
  { unfold t', renew, Add. simpl. by rewrite minutes_in_range. }
  split; [done |]. intros Hat. apply isValid_true. rewrite Hexp. lia.
Qed.

Lemma renew_revives_witness :
  let t' := renew (120 * Second) 1 Examples.T1 in
  ID t' = "T1" ∧ Source t' = "login" ∧ ConsumerID t' = "C1" ∧
  IPAddress t' = "10.0.0.1" ∧ ExpiresIn t' = 0 ∧ CreatedAt t' = 0 ∧
  Expiration t' = 120 * Second + 1 * Minute ∧
  (120 * Second <= 150 * Second <= 120 * Second + 1 * Minute → isValid (150 * Second) t' = true).
Proof. apply (renew_revives (120 * Second) (150 * Second) 1 Examples.T1). lia. Defined.

(** ** The in-process repository, continued *)

Section MemStoreMore.

Import TokenMemStore.

Implicit Types (w : world) (p : loc) (h : loc → Token) (d : gmap string loc).

Lemma scan_omap h d consumerID order result :
  scan h d consumerID order result = (result ++ omap (pick h d consumerID) order)%list.
Proof.
  revert result. induction order as [|k rest IH]; intros result.
  - simpl. by rewrite app_nil_r.
  - cbn [scan].
    change (omap (pick h d consumerID) (k :: rest))
      with (match pick h d consumerID k with
            | Some y => y :: omap (pick h d consumerID) rest
            | None => omap (pick h d consumerID) rest
            end).
    unfold pick at 1. destruct (d !! k) as [p|]; [| apply IH].
    destruct (decide (ConsumerID (h p) = consumerID)); [| apply IH].
    rewrite IH. by rewrite <- app_assoc.
Qed.

Lemma pick_entries h d consumerID (l : list (string * loc)) :
  (∀ kv, kv ∈ l → d !! kv.1 = Some kv.2) →
  omap (pick h d consumerID) l.*1 =
    (filter (λ kv, ConsumerID (h kv.2) = consumerID) l).*2.
Proof.
  induction l as [|[k p] l IH]; intros Hin; [done |].
  rewrite fmap_cons, filter_cons. cbn [fst snd].
  change (omap (pick h d consumerID) (k :: l.*1))
    with (match pick h d consumerID k with
          | Some y => y :: omap (pick h d consumerID) l.*1
          | None => omap (pick h d consumerID) l.*1
          end).
  unfold pick at 1.
  pose proof (Hin (k, p) (list_elem_of_here _ _)) as Hk. cbn [fst snd] in Hk.
  rewrite Hk.
  rewrite IH by (intros kv Hkv; by apply Hin, list_elem_of_further).
  by destruct (decide (ConsumerID (h p) = consumerID)).
Qed.

Lemma sweep_subseteq h consumerID order d : sweep h consumerID order d ⊆ d.
Proof.
  revert d. induction order as [|k rest IH]; intros d; cbn [sweep]; [done |].
  destruct (d !! k) as [p|]; [| apply IH].
  destruct (decide (ConsumerID (h p) = consumerID)); [| apply IH].
  etrans; [apply IH | apply delete_subseteq].
Qed.

End MemStoreMore.

(** X4: every method of the in-process repository keeps each entry of the
    map under the [ID] of its token, whatever its arguments and its
    outcome. *)
Theorem MemStore_methods_keep_keyed :
  ∀ (w : TokenMemStore.world),
    TokenMemStore.keyed w →
    (∀ now token, TokenMemStore.keyed (TokenMemStore.Insert now token w).2) ∧
    (∀ token, TokenMemStore.keyed (TokenMemStore.Update token w).2) ∧
    (∀ key, TokenMemStore.keyed (TokenMemStore.Delete key w).2) ∧
    (∀ order consumerID,
       TokenMemStore.keyed (TokenMemStore.DeleteByConsumerID order consumerID w).2).
Proof.
  intros w Hkeyed. split; [| split; [| split]].
  - intros now [p|]; [| done].
    destruct (TokenMemStore.Insert now (Some p) w) as [[r|e] w'] eqn:Hins.
    + by eapply mem_Insert_keyed.
    + unfold TokenMemStore.Insert in Hins.
      by destruct (TokenMemStore.data w !! ID (TokenMemStore.heap w p)).
  - intros [p|]; [| done].
    destruct (TokenMemStore.Update (Some p) w) as [[r|e] w'] eqn:Hupd.
    + by eapply mem_Update_keyed.
    + unfold TokenMemStore.Update in Hupd.
      by destruct (TokenMemStore.data w !! ID (TokenMemStore.heap w p)).
  - intros key. by eapply mem_Delete_keyed.
  - intros order consumerID k p Hk. simpl in Hk. apply Hkeyed.
    eapply lookup_weaken; [exact Hk | apply sweep_subseteq].
Qed.

Lemma MemStore_methods_keep_keyed_witness :
  (∀ now token, TokenMemStore.keyed (TokenMemStore.Insert now token Examples.mem_empty).2) ∧
  (∀ token, TokenMemStore.keyed (TokenMemStore.Update token Examples.mem_empty).2) ∧
  (∀ key, TokenMemStore.keyed (TokenMemStore.Delete key Examples.mem_empty).2) ∧
  (∀ order consumerID,
     TokenMemStore.keyed
       (TokenMemStore.DeleteByConsumerID order consumerID Examples.mem_empty).2).
Proof.
  apply (MemStore_methods_keep_keyed Examples.mem_empty). apply newTokenMemStore_keyed.
Defined.

(** X5: [GetByConsumerID] of the in-process repository returns [nil] as
    error, leaves the store alone, and returns the tokens of the consumer
    and no others, each entry of the map once, in the order the map is
    ranged over. *)
Theorem MemStore_GetByConsumerID_exact :
  ∀ (w : TokenMemStore.world) (order : list string) (consumerID : string),
    TokenMemStore.range_order w order →
    ∃ result,
      TokenMemStore.GetByConsumerID order consumerID w = (Returned (result, None), w) ∧
      result ≡ₚ (filter (λ kv, ConsumerID (TokenMemStore.heap w kv.2) = consumerID)
                   (map_to_list (TokenMemStore.data w))).*2 ∧
      (∀ p, p ∈ result ↔
            ∃ k, TokenMemStore.data w !! k = Some p ∧
                 ConsumerID (TokenMemStore.heap w p) = consumerID).
Proof.
  intros w order consumerID Horder. eexists. split; [reflexivity |].
  assert (Hperm :
    TokenMemStore.scan (TokenMemStore.heap w) (TokenMemStore.data w) consumerID order [] ≡ₚ
    (filter (λ kv, ConsumerID (TokenMemStore.heap w kv.2) = consumerID)
       (map_to_list (TokenMemStore.data w))).*2).
  { rewrite scan_omap, app_nil_l. unfold TokenMemStore.range_order in Horder.
    rewrite Horder. rewrite pick_entries; [done |].
    intros [k p] Hin. by apply elem_of_map_to_list in Hin. }
  split; [exact Hperm |].
  intros p. rewrite Hperm, list_elem_of_fmap. split.
  - intros ([k q] & -> & [Hown Hin%elem_of_map_to_list]%list_elem_of_filter).
    by exists k.
  - intros (k & Hk & Hown). exists (k, p). split; [done |].
    apply list_elem_of_filter. split; [done |]. by apply elem_of_map_to_list.
Qed.

Lemma MemStore_GetByConsumerID_exact_witness :
  ∃ result,
    TokenMemStore.GetByConsumerID ["T2"; "T1"] "C1" Examples.mem_two =
      (Returned (result, None), Examples.mem_two) ∧
    result ≡ₚ (filter (λ kv, ConsumerID (TokenMemStore.heap Examples.mem_two kv.2) = "C1")
                 (map_to_list (TokenMemStore.data Examples.mem_two))).*2 ∧
    (∀ p, p ∈ result ↔
          ∃ k, TokenMemStore.data Examples.mem_two !! k = Some p ∧
               ConsumerID (TokenMemStore.heap Examples.mem_two p) = "C1").
Proof.
  apply (MemStore_GetByConsumerID_exact Examples.mem_two ["T2"; "T1"] "C1").
  unfold TokenMemStore.range_order.
  let keys := eval vm_compute in ((map_to_list (TokenMemStore.data Examples.mem_two)).*1) in
  change ((map_to_list (TokenMemStore.data Examples.mem_two)).*1) with keys.
  apply Permutation_swap.
Defined.

(** X6: with every entry under the [ID] of its token, [DeleteByConsumerID]
    of the in-process repository returns [nil] and leaves in the map
    exactly the entries whose token belongs to another consumer; the
    tokens themselves are not touched. *)
Theorem MemStore_DeleteByConsumerID_exact :
  ∀ (w : TokenMemStore.world) (order : list string) (consumerID : string),
    TokenMemStore.keyed w →
    TokenMemStore.range_order w order →
    ∃ w',
      TokenMemStore.DeleteByConsumerID order consumerID w = (Returned None, w') ∧
      TokenMemStore.heap w' = TokenMemStore.heap w ∧
      TokenMemStore.data w' =
        filter (λ kv, ConsumerID (TokenMemStore.heap w kv.2) ≠ consumerID)
          (TokenMemStore.data w).
Proof.
  intros w order consumerID Hkeyed Horder. eexists. split; [reflexivity |].
  split; [done |]. simpl. apply map_eq. intros k.
  rewrite sweep_lookup by apply Hkeyed. apply option_eq. intros p.
  rewrite map_lookup_filter_Some. simpl.
  destruct (TokenMemStore.data w !! k) as [q|] eqn:Hk.
  - case_decide as Hdec.
    + split; [done |]. intros [[= ->] Hother]. by destruct Hdec as [_ Hown].
    + split.
      * intros [= ->]. split; [done |]. intros Hown. apply Hdec. split; [| done].
        eapply range_order_covers; [done |]. rewrite Hk; eauto.
      * by intros [[= ->] _].
  - split; [done | by intros [? _]].
Qed.

Lemma MemStore_DeleteByConsumerID_exact_witness :
  ∃ w',
    TokenMemStore.DeleteByConsumerID ["T1"; "T2"] "C1" Examples.mem_two = (Returned None, w') ∧
    TokenMemStore.heap w' = TokenMemStore.heap Examples.mem_two ∧
    TokenMemStore.data w' =
      filter (λ kv, ConsumerID (TokenMemStore.heap Examples.mem_two kv.2) ≠ "C1")
        (TokenMemStore.data Examples.mem_two).
Proof.
  apply (MemStore_DeleteByConsumerID_exact Examples.mem_two ["T1"; "T2"] "C1").
  - apply (mem_Insert_keyed 0 2%positive Examples.mem_one _ None); [| reflexivity].
    apply (mem_Insert_keyed 0 1%positive Examples.mem_empty _ None); [| reflexivity].
    apply newTokenMemStore_keyed.
  - unfold TokenMemStore.range_order.
    let keys := eval vm_compute in ((map_to_list (TokenMemStore.data Examples.mem_two)).*1) in
    change ((map_to_list (TokenMemStore.data Examples.mem_two)).*1) with keys.
    reflexivity.
Defined.

(** X7: [Delete] of the in-process repository always returns [nil]; the key
    is gone afterwards, the other entries are as before, and a token with
    that [ID] can be inserted again. *)
Theorem MemStore_Delete_frees_id :
  ∀ (now : Time) (p : TokenMemStore.loc) (w : TokenMemStore.world),
    ∃ w1 w2,
      TokenMemStore.Delete (ID (TokenMemStore.heap w p)) w = (Returned None, w1) ∧
      TokenMemStore.Get (ID (TokenMemStore.heap w p)) w1 = (Returned (None, None), w1) ∧
      (∀ k, k ≠ ID (TokenMemStore.heap w p) →
            TokenMemStore.data w1 !! k = TokenMemStore.data w !! k) ∧
      TokenMemStore.Insert now (Some p) w1 = (Returned None, w2) ∧
      TokenMemStore.Get (ID (TokenMemStore.heap w p)) w2 = (Returned (Some p, None), w2).
Proof.
  intros now p w. eexists. eexists. split; [reflexivity |].
  split; [| split; [| split]].
  - unfold TokenMemStore.Get. simpl. by rewrite lookup_delete_eq.
  - intros k Hne. simpl. by rewrite lookup_delete_ne.
  - apply mem_Insert_fresh. simpl. apply lookup_delete_eq.
  - unfold TokenMemStore.Get. simpl. by rewrite lookup_insert_eq.
Qed.

(** ** The document-store repository, continued *)

Section MongoMore.

Import tokenMongo.

Implicit Types (c : list Token) (t doc : Token) (key : string) (sel : Token → bool).

Lemma find_app_split sel c1 c2 :
  List.find sel (c1 ++ c2) =
    match List.find sel c1 with
    | Some x => Some x
    | None => List.find sel c2
    end.
Proof. induction c1 as [|x c1 IH]; simpl; [done |]. by destruct (sel x). Qed.

Lemma find_none_Forall sel c :
  Forall (λ x, sel x = false) c → List.find sel c = None.
Proof. induction 1 as [|x c Hx _ IH]; simpl; [done |]. by rewrite Hx. Qed.

Lemma filter_none_Forall sel c :
  Forall (λ x, sel x = false) c → List.filter sel c = [].
Proof. induction 1 as [|x c Hx _ IH]; simpl; [done |]. by rewrite Hx. Qed.

(** [Remove] splits the collection around the first match. *)
Lemma remove_first_split sel c c' :
  remove_first sel c = Some c' →
  ∃ pre t post,
    c = (pre ++ t :: post)%list ∧ c' = (pre ++ post)%list ∧
    sel t = true ∧ Forall (λ x, sel x = false) pre.
Proof.
  revert c'. induction c as [|x c IH]; intros c'; simpl; [done |].
  destruct (sel x) eqn:Hx.
  - intros [= <-]. by exists [], x, c.
  - destruct (remove_first sel c) as [c''|]; simpl; [| done].
    intros [= <-]. destruct (IH c'' eq_refl) as (pre & t & post & -> & -> & Ht & Hpre).
    exists (x :: pre), t, post. repeat split; [done |]. by constructor.
Qed.

(** [Update] puts the document in the place of the first match. *)
Lemma replace_first_split sel doc c c' :
  replace_first sel doc c = Some c' →
  ∃ pre t post,
    c = (pre ++ t :: post)%list ∧ c' = (pre ++ bson doc :: post)%list ∧
    sel t = true ∧ Forall (λ x, sel x = false) pre.
Proof.
  revert c'. induction c as [|x c IH]; intros c'; simpl; [done |].
  destruct (sel x) eqn:Hx.
  - intros [= <-]. by exists [], x, c.
  - destruct (replace_first sel doc c) as [c''|]; simpl; [| done].
    intros [= <-]. destruct (IH c'' eq_refl) as (pre & t & post & -> & -> & Ht & Hpre).
    exists (x :: pre), t, post. repeat split; [done |]. by constructor.
Qed.

Lemma replace_first_is_Some sel doc c :
  existsb sel c = true → is_Some (replace_first sel doc c).
Proof.
  induction c as [|x c IH]; simpl; [done |].
  destruct (sel x); simpl; [by eauto |]. intros Hex.
  destruct (IH Hex) as [c' ->]. by eauto.
Qed.

Lemma remove_first_is_Some sel c :
  existsb sel c = true → is_Some (remove_first sel c).
Proof.
  induction c as [|x c IH]; simpl; [done |].
  destruct (sel x); simpl; [by eauto |]. intros Hex.
  destruct (IH Hex) as [c' ->]. by eauto.
Qed.

Lemma mongo_Get_quiet key c :
  Get key (mkRemote c []) = (Returned (List.find (by_id key) c, None), mkRemote c []).
Proof.
  unfold Get, newSession. step_call. step_call. unfold One.
  by destruct (List.find (by_id key) c).
Qed.

Lemma mongo_GetByConsumerID_quiet consumerID c :
  GetByConsumerID consumerID (mkRemote c []) =
    (Returned (Some (List.filter (by_consumer consumerID) c), None), mkRemote c []).
Proof. unfold GetByConsumerID, newSession. step_call. by step_call. Qed.

(** The outcome of each writing method, whatever the script: it returns,
    and either the collection is as before and an error is returned, or the
    write went through and [nil] is returned. *)
Lemma mongo_Insert_cases now t (w : remote (list Token)) :
  (∃ t' e, (Insert now t w).1 = Returned (t', Some e) ∧ store (Insert now t w).2 = store w) ∨
  ((Insert now t w).1 = Returned (set_CreatedAt now t, None) ∧
   (ID t ∉ ID <$> store w) ∧
   store (Insert now t w).2 = (store w ++ [bson (set_CreatedAt now t)])%list).
Proof.
  destruct w as [c fs]. unfold Insert, newSession. cbn [store].
  destruct fs as [|[e|] fs]; step_call.
  - step_call. rewrite InsertDoc_spec, ID_set_CreatedAt.
    case_bool_decide as Hin; cbn; [left; by eauto | by right].
  - left. by eauto.
  - destruct fs as [|[e|] fs]; step_call.
    + rewrite InsertDoc_spec, ID_set_CreatedAt.
      case_bool_decide as Hin; cbn; [left; by eauto | by right].
    + left. destruct (String.prefix "E11000" e); cbn; by eauto.
    + rewrite InsertDoc_spec, ID_set_CreatedAt.
      case_bool_decide as Hin; cbn; [left; by eauto | by right].
Qed.

Lemma mongo_Update_cases t (w : remote (list Token)) :
  (∃ e, (Update t w).1 = Returned (Some e) ∧ store (Update t w).2 = store w) ∨
  ((Update t w).1 = Returned None ∧
   replace_first (by_id (ID t)) t (store w) = Some (store (Update t w).2)).
Proof.
  destruct w as [c fs]. unfold Update, newSession, UpdateDoc. cbn [store].
  destruct fs as [|[e|] fs]; step_call.
  - step_call. destruct (replace_first (by_id (ID t)) t c); cbn; [by right | left; by eauto].
  - left. by eauto.
  - destruct fs as [|[e|] fs]; step_call.
    + destruct (replace_first (by_id (ID t)) t c); cbn; [by right | left; by eauto].
    + left. by eauto.
    + destruct (replace_first (by_id (ID t)) t c); cbn; [by right | left; by eauto].
Qed.

(** [Delete] and [DeleteByConsumerID] differ in the selector only. *)
Lemma mongo_Remove_cases sel (w : remote (list Token)) :
  let m : M (remote (list Token)) (option error) :=
    bind newSession (λ session,
      match session with
      | inr e => ret (Some (DriverError e))
      | inl _ => bind (call (Remove sel)) (λ r, ret (err_of r))
      end) in
  (∃ e, (m w).1 = Returned (Some e) ∧ store (m w).2 = store w) ∨
  ((m w).1 = Returned None ∧ remove_first sel (store w) = Some (store (m w).2)).
Proof.
  intros m. unfold m. destruct w as [c fs]. unfold newSession, Remove. cbn [store].
  destruct fs as [|[e|] fs]; step_call.
  - step_call. destruct (remove_first sel c); cbn; [by right | left; by eauto].
  - left. by eauto.
  - destruct fs as [|[e|] fs]; step_call.
    + destruct (remove_first sel c); cbn; [by right | left; by eauto].
    + left. by eauto.
    + destruct (remove_first sel c); cbn; [by right | left; by eauto].
Qed.

End MongoMore.

(** X9: the methods of the document-store repository keep the ids of the
    collection distinct, whatever their arguments, the script and their
    outcome. *)
Theorem Mongo_methods_keep_unique_ids :
  ∀ (w : remote (list Token)),
    unique_ids (store w) →
    (∀ now t, unique_ids (store (tokenMongo.Insert now t w).2)) ∧
    (∀ t, unique_ids (store (tokenMongo.Update t w).2)) ∧
    (∀ key, unique_ids (store (tokenMongo.Delete key w).2)) ∧
    (∀ consumerID, unique_ids (store (tokenMongo.DeleteByConsumerID consumerID w).2)).
Proof.
  unfold unique_ids. intros w Huniq.
  assert (Hremove : ∀ sel c', tokenMongo.remove_first sel (store w) = Some c' →
                              NoDup (ID <$> c')).
  { intros sel c' (pre & t & post & Hc & -> & _)%remove_first_split.
    rewrite Hc in Huniq. eapply sublist_NoDup; [exact Huniq |].
    apply fmap_sublist. apply sublist_app; [done |]. by apply sublist_cons. }
  split; [| split; [| split]].
  - intros now t.
    destruct (mongo_Insert_cases now t w) as [(t' & e & _ & ->)|(_ & Hfresh & ->)]; [done |].
    rewrite fmap_app. apply list.NoDup_app. split; [done |]. split.
    + intros x Hx [->|[]%elem_of_nil]%elem_of_cons. by apply Hfresh.
    + apply NoDup_singleton.
  - intros t.
    destruct (mongo_Update_cases t w) as [(e & _ & ->)|(_ & Hrep)]; [done |].
    apply replace_first_split in Hrep as (pre & t0 & post & Hc & -> & Hsel & _).
    rewrite Hc in Huniq. rewrite fmap_app, fmap_cons in *.
    unfold tokenMongo.by_id in Hsel. apply bool_decide_eq_true in Hsel.
    by rewrite Hsel in Huniq.
  - intros key.
    destruct (mongo_Remove_cases (tokenMongo.by_id key) w) as [(e & _ & Hsame)|(_ & Hrm)];
      fold (tokenMongo.Delete key) in *; [by rewrite Hsame | by eapply Hremove].
  - intros consumerID.
    destruct (mongo_Remove_cases (tokenMongo.by_consumer consumerID) w)
      as [(e & _ & Hsame)|(_ & Hrm)];
      fold (tokenMongo.DeleteByConsumerID consumerID) in *;
      [by rewrite Hsame | by eapply Hremove].
Qed.

Lemma Mongo_methods_keep_unique_ids_witness :
  (∀ now t, unique_ids (store (tokenMongo.Insert now t Examples.mongo_two).2)) ∧
  (∀ t, unique_ids (store (tokenMongo.Update t Examples.mongo_two).2)) ∧
  (∀ key, unique_ids (store (tokenMongo.Delete key Examples.mongo_two).2)) ∧
  (∀ consumerID,
     unique_ids (store (tokenMongo.DeleteByConsumerID consumerID Examples.mongo_two).2)).
Proof.
  apply (Mongo_methods_keep_unique_ids Examples.mongo_two).
  unfold unique_ids. cbn. apply NoDup_cons_2; [| apply NoDup_singleton].
  intros Hin%list_elem_of_singleton. discriminate.
Defined.

(** X10: round trip through the document store.  After an insert that
    returned [nil], [Get] of the id gives the token back with its strings
    as handed over, [ExpiresIn] zero (it is not stored), [CreatedAt] the
    clock reading of the insert and [Expiration] that of the token, both
    cut down to the whole millisecond; [GetByConsumerID] of its consumer
    lists that document last, after the ones the consumer had. *)
Theorem Mongo_Insert_Get_round_trip :
  ∀ (now : Time) (t t' : Token) (w w' : remote (list Token)),
    tokenMongo.Insert now t w = (Returned (t', None), w') →
    faults w' = [] →
    ∃ doc,
      tokenMongo.Get (ID t) w' = (Returned (Some doc, None), w') ∧
      tokenMongo.GetByConsumerID (ConsumerID t) w' =
        (Returned (Some (List.filter (tokenMongo.by_consumer (ConsumerID t)) (store w) ++
                         [doc])%list, None), w') ∧
      ID doc = ID t ∧ Source doc = Source t ∧ ConsumerID doc = ConsumerID t ∧
      IPAddress doc = IPAddress t ∧ ExpiresIn doc = 0 ∧
      CreatedAt doc = now / Millisecond * Millisecond ∧
      Expiration doc = Expiration t / Millisecond * Millisecond.
Proof.
  intros now t t' w w' Hins Hquiet.
  apply mongo_Insert_ok_inv in Hins as (_ & Hfresh & Hstore).
  destruct w' as [c' fs']. simpl in *. subst fs' c'.
  exists (tokenMongo.bson (set_CreatedAt now t)). split; [| split; [| done]].
  - rewrite mongo_Get_quiet. do 3 f_equal.
    apply find_app_fresh; [by apply find_by_id_None |].
    unfold tokenMongo.by_id. by apply bool_decide_eq_true_2.
  - rewrite mongo_GetByConsumerID_quiet. do 4 f_equal.
    rewrite List.filter_app. f_equal. simpl. unfold tokenMongo.by_consumer at 1. simpl.
    by rewrite bool_decide_eq_true_2.
Qed.

Lemma Mongo_Insert_Get_round_trip_witness :
  ∃ doc,
    tokenMongo.Get "T2" (tokenMongo.Insert 1500042 Examples.T2 Examples.mongo_one).2 =
      (Returned (Some doc, None), (tokenMongo.Insert 1500042 Examples.T2 Examples.mongo_one).2) ∧
    tokenMongo.GetByConsumerID "C1" (tokenMongo.Insert 1500042 Examples.T2 Examples.mongo_one).2 =
      (Returned (Some (List.filter (tokenMongo.by_consumer "C1") (store Examples.mongo_one) ++
                       [doc])%list, None),
       (tokenMongo.Insert 1500042 Examples.T2 Examples.mongo_one).2) ∧
    ID doc = "T2" ∧ Source doc = "login" ∧ ConsumerID doc = "C1" ∧
    IPAddress doc = "10.0.0.2" ∧ ExpiresIn doc = 0 ∧
    CreatedAt doc = 1500042 / Millisecond * Millisecond ∧
    Expiration doc = 60 * Second / Millisecond * Millisecond.
Proof.
  apply (Mongo_Insert_Get_round_trip 1500042 Examples.T2 (set_CreatedAt 1500042 Examples.T2)
           Examples.mongo_one); reflexivity.
Defined.

(** X11: [Update] of the document-store repository, for an id the
    collection holds and a reachable store, returns [nil] and puts the
    token in the place of the document with that id: the ids of the
    collection and their order are as before, [Get] of the id gives the
    token back with its strings, [ExpiresIn] zero and its two times cut
    down to the whole millisecond, and [Get] of any other id gives what it
    gave before. *)
Theorem Mongo_Update_replaces_in_place :
  ∀ (t : Token) (c : list Token),
    ID t ∈ ID <$> c →
    ∃ c' doc,
      tokenMongo.Update t (mkRemote c []) = (Returned None, mkRemote c' []) ∧
      ID <$> c' = ID <$> c ∧
      tokenMongo.Get (ID t) (mkRemote c' []) = (Returned (Some doc, None), mkRemote c' []) ∧
      ID doc = ID t ∧ Source doc = Source t ∧ ConsumerID doc = ConsumerID t ∧
      IPAddress doc = IPAddress t ∧ ExpiresIn doc = 0 ∧
      CreatedAt doc = CreatedAt t / Millisecond * Millisecond ∧
      Expiration doc = Expiration t / Millisecond * Millisecond ∧
      (∀ key, key ≠ ID t →
              (tokenMongo.Get key (mkRemote c' [])).1 = (tokenMongo.Get key (mkRemote c [])).1).
Proof.
  intros t c Hin%existsb_by_id.
  destruct (replace_first_is_Some _ t _ Hin) as [c' Hrep].
  exists c', (tokenMongo.bson t). split.
  { unfold tokenMongo.Update, tokenMongo.newSession, tokenMongo.UpdateDoc.
    step_call. step_call. by rewrite Hrep. }
  apply replace_first_split in Hrep as (pre & t0 & post & -> & -> & Hsel & Hpre).
  unfold tokenMongo.by_id in Hsel. apply bool_decide_eq_true in Hsel.
  split; [| split; [| do 7 (split; [done |])]].
  - rewrite !fmap_app, !fmap_cons. f_equal. f_equal. by rewrite Hsel.
  - rewrite mongo_Get_quiet, find_app_split, (find_none_Forall _ _ Hpre). simpl.
    unfold tokenMongo.by_id at 1. simpl. by rewrite bool_decide_eq_true_2.
  - intros key Hne. rewrite !mongo_Get_quiet. simpl. do 2 f_equal.
    rewrite !find_app_split. destruct (List.find (tokenMongo.by_id key) pre); [done |].
    simpl. unfold tokenMongo.by_id at 1 3. simpl.
    rewrite !bool_decide_eq_false_2; [done | by rewrite Hsel | done].
Qed.

(** The token that takes the place of T1 expires half a millisecond after
    a whole one. *)
Lemma Mongo_Update_replaces_in_place_witness :
  ∃ c' doc,
    tokenMongo.Update (set_Expiration 600000500000 Examples.T1_again) Examples.mongo_two =
      (Returned None, mkRemote c' []) ∧
    ID <$> c' = ID <$> [Examples.T1; Examples.T2] ∧
    tokenMongo.Get "T1" (mkRemote c' []) = (Returned (Some doc, None), mkRemote c' []) ∧
    ID doc = "T1" ∧ Source doc = "refresh" ∧ ConsumerID doc = "C2" ∧
    IPAddress doc = "10.0.0.3" ∧ ExpiresIn doc = 0 ∧
    CreatedAt doc = 0 / Millisecond * Millisecond ∧
    Expiration doc = 600000500000 / Millisecond * Millisecond ∧
    (∀ key, key ≠ "T1" →
            (tokenMongo.Get key (mkRemote c' [])).1 =
              (tokenMongo.Get key Examples.mongo_two).1).
Proof.
  apply (Mongo_Update_replaces_in_place (set_Expiration 600000500000 Examples.T1_again)
           [Examples.T1; Examples.T2]).
  apply existsb_by_id. reflexivity.
Defined.

(** X12: [Delete] of the document-store repository, for an id the
    collection holds, with distinct ids and a reachable store, returns
    [nil] and takes out one document; [Get] of the id then finds nothing,
    and [Get] of any other id gives what it gave before. *)
Theorem Mongo_Delete_present_id :
  ∀ (key : string) (c : list Token),
    unique_ids c →
    key ∈ ID <$> c →
    ∃ c',
      tokenMongo.Delete key (mkRemote c []) = (Returned None, mkRemote c' []) ∧
      length c = Datatypes.S (length c') ∧
      tokenMongo.Get key (mkRemote c' []) = (Returned (None, None), mkRemote c' []) ∧
      (∀ key', key' ≠ key →
               (tokenMongo.Get key' (mkRemote c' [])).1 =
                 (tokenMongo.Get key' (mkRemote c [])).1).
Proof.
  unfold unique_ids. intros key c Huniq Hin%existsb_by_id.
  destruct (remove_first_is_Some _ _ Hin) as [c' Hrm].
  exists c'. split.
  { unfold tokenMongo.Delete, tokenMongo.newSession, tokenMongo.Remove.
    step_call. step_call. by rewrite Hrm. }
  apply remove_first_split in Hrm as (pre & t0 & post & -> & -> & Hsel & Hpre).
  unfold tokenMongo.by_id in Hsel. apply bool_decide_eq_true in Hsel.
  split; [| split].
  - rewrite !length_app. simpl. lia.
  - apply mongo_Get_absent. rewrite fmap_app, fmap_cons, Hsel in Huniq.
    apply list.NoDup_app in Huniq as (_ & Hdisj & [Hpost _]%list.NoDup_cons).
    rewrite fmap_app, elem_of_app. intros [Hin'|Hin']; [| done].
    apply (Hdisj key Hin'). apply list_elem_of_here.
  - intros key' Hne. rewrite !mongo_Get_quiet. simpl. do 2 f_equal.
    rewrite !find_app_split. destruct (List.find (tokenMongo.by_id key') pre); [done |].
    simpl. unfold tokenMongo.by_id at 2. rewrite bool_decide_eq_false_2; [done |].
    by rewrite Hsel.
Qed.

Lemma Mongo_Delete_present_id_witness :
  ∃ c',
    tokenMongo.Delete "T1" Examples.mongo_two = (Returned None, mkRemote c' []) ∧
    length [Examples.T1; Examples.T2] = Datatypes.S (length c') ∧
    tokenMongo.Get "T1" (mkRemote c' []) = (Returned (None, None), mkRemote c' []) ∧
    (∀ key', key' ≠ "T1" →
             (tokenMongo.Get key' (mkRemote c' [])).1 =
               (tokenMongo.Get key' Examples.mongo_two).1).
Proof.
  apply (Mongo_Delete_present_id "T1" [Examples.T1; Examples.T2]).
  - unfold unique_ids. cbn. apply NoDup_cons_2; [| apply NoDup_singleton].
    intros Hin%list_elem_of_singleton. discriminate.
  - apply existsb_by_id. reflexivity.
Defined.

(** X13: what [DeleteByConsumerID] of the document-store repository does
    to a reachable collection.  For a consumer without tokens it returns
    the driver's "not found" and changes nothing; otherwise it returns
    [nil] having removed the first token of the consumer, and only that
    one: the other tokens of the consumer and the tokens of everybody else
    stay, in their order. *)
Theorem Mongo_DeleteByConsumerID_removes_first_only :
  ∀ (consumerID : string) (c : list Token),
    match List.filter (tokenMongo.by_consumer consumerID) c with
    | [] =>
        tokenMongo.DeleteByConsumerID consumerID (mkRemote c []) =
          (Returned (Some (DriverError "not found")), mkRemote c [])
    | first :: others =>
        ∃ c',
          tokenMongo.DeleteByConsumerID consumerID (mkRemote c []) =
            (Returned None, mkRemote c' []) ∧
          List.filter (tokenMongo.by_consumer consumerID) c' = others ∧
          List.filter (λ t, negb (tokenMongo.by_consumer consumerID t)) c' =
            List.filter (λ t, negb (tokenMongo.by_consumer consumerID t)) c
    end.
Proof.
  intros consumerID c.
  unfold tokenMongo.DeleteByConsumerID, tokenMongo.newSession, tokenMongo.Remove.
  step_call. step_call.
  destruct (tokenMongo.remove_first (tokenMongo.by_consumer consumerID) c) as [c'|] eqn:Hrm.
  - apply remove_first_split in Hrm as (pre & t0 & post & -> & -> & Hsel & Hpre).
    rewrite !List.filter_app, (filter_none_Forall _ _ Hpre). simpl. rewrite Hsel. simpl.
    eexists. split; [reflexivity |].
    split; [by rewrite List.filter_app, (filter_none_Forall _ _ Hpre) |].
    by rewrite List.filter_app.
  - apply remove_first_None in Hrm. by rewrite (filter_none_Forall _ _ Hrm).
Qed.

(** ** The key-value repository, continued *)

Section RedisMore.

Import tokenRedis.

Implicit Types (d : gmap string entry) (t : Token) (id key consumerID : string) (now : Time).

Lemma peek_Some now d key e : peek now d key = Some e → d !! key = Some e.
Proof.
  unfold peek. destruct (d !! key) as [e'|]; [| done].
  destruct (live now e'); [by intros [= ->] | done].
Qed.

Lemma peek_live now d key e : peek now d key = Some e → live now e = true.
Proof.
  unfold peek. destruct (d !! key) as [e'|]; [| done].
  destruct (live now e') eqn:Hlive; [by intros [= <-] | done].
Qed.

Lemma peek_insert_eq now d key e :
  peek now (<[key := e]> d) key = if live now e then Some e else None.
Proof. unfold peek. by rewrite lookup_insert_eq. Qed.

Lemma peek_delete_eq now d key : peek now (delete key d) key = None.
Proof. unfold peek. by rewrite lookup_delete_eq. Qed.

Lemma peek_delete_ne now d key key' :
  key ≠ key' → peek now (delete key d) key' = peek now d key'.
Proof. intros Hne. unfold peek. by rewrite lookup_delete_ne. Qed.

Lemma peek_ext now d d' key : d' !! key = d !! key → peek now d' key = peek now d key.
Proof. intros Heq. unfold peek. by rewrite Heq. Qed.

Lemma read_token_ext now d d' id :
  d' !! token_key id = d !! token_key id → read_token now d' id = read_token now d id.
Proof. intros Heq. unfold read_token. by rewrite (peek_ext _ _ _ _ Heq). Qed.

Lemma index_of_ext now d d' consumerID :
  d' !! consumer_key consumerID = d !! consumer_key consumerID →
  index_of now d' consumerID = index_of now d consumerID.
Proof. intros Heq. unfold index_of. by rewrite (peek_ext _ _ _ _ Heq). Qed.

Lemma consumer_key_inj consumerID consumerID' :
  consumer_key consumerID = consumer_key consumerID' → consumerID = consumerID'.
Proof. unfold consumer_key. simpl. by intros [=]. Qed.

(** Under the typing of the keys, a read of a token key or of an index key
    is never refused. *)
Lemma well_typed_GET now d id :
  well_typed d →
  GET now (token_key id) d =
    (match peek now d (token_key id) with
     | Some e => match val e with VString t => inl t | VSet _ => inr WRONGTYPE end
     | None => inr Nil
     end, d) ∧
  ∀ e, peek now d (token_key id) = Some e → ∃ t, val e = VString t.
Proof.
  intros [Htok _]. split.
  - unfold GET. destruct (peek now d (token_key id)) as [e|]; [| done].
    by destruct (val e).
  - intros e He%peek_Some. by eapply Htok.
Qed.

Lemma redis_Get_read now id d :
  well_typed d →
  Get now id (mkRemote d []) = (Returned (read_token now d id, None), mkRemote d []).
Proof.
  intros Htyped. destruct (well_typed_GET now d id Htyped) as [_ Hstr].
  unfold Get, read_token. step_call. unfold GET.
  destruct (peek now d (token_key id)) as [e|] eqn:Hpeek; [| done].
  destruct (Hstr e eq_refl) as [t ->]. done.
Qed.

Lemma collect_quiet (clock : nat → Time) d ids acc :
  well_typed d →
  collect clock ids acc (mkRemote d []) =
    (Returned (acc ++ omap id (imap (λ i x, read_token (clock i) d x) ids))%list,
     mkRemote d []).
Proof.
  intros Htyped. revert clock acc. induction ids as [|x ids IH]; intros clock acc.
  - simpl. by rewrite app_nil_r.
  - cbn [collect]. unfold bind at 1. rewrite redis_Get_read by done.
    cbn [fst snd]. unfold bind at 1. cbn [panicIf ret].
    change (omap id (imap (λ i x0, read_token (clock i) d x0) (x :: ids)))
      with (match read_token (clock O) d x with
            | Some y => y :: omap id (imap (λ i x0, read_token (clock (Datatypes.S i)) d x0) ids)
            | None => omap id (imap (λ i x0, read_token (clock (Datatypes.S i)) d x0) ids)
            end).
    destruct (read_token (clock O) d x) as [tok|]; rewrite IH; [| done].
    by rewrite <- app_assoc.
Qed.

Lemma well_typed_SMEMBERS now d consumerID :
  well_typed d →
  SMEMBERS now (consumer_key consumerID) d = (inl (index_of now d consumerID), d).
Proof.
  intros [_ Hidx]. unfold SMEMBERS, index_of.
  destruct (peek now d (consumer_key consumerID)) as [e|] eqn:Hpeek; [| done].
  destruct (Hidx _ _ (peek_Some _ _ _ _ Hpeek)) as [l ->]. done.
Qed.

(** What [SADD] makes of the index of a consumer. *)
Lemma well_typed_SADD now d consumerID id :
  well_typed d →
  ∃ d',
    SADD now (consumer_key consumerID) id d = (inl (), d') ∧
    index_of now d' consumerID =
      (if bool_decide (id ∈ index_of now d consumerID) then index_of now d consumerID
       else index_of now d consumerID ++ [id])%list ∧
    (∀ key, key ≠ consumer_key consumerID → d' !! key = d !! key) ∧
    well_typed d'.
Proof.
  intros Htyped. pose proof Htyped as [Htok Hidx]. unfold SADD, index_of.
  destruct (peek now d (consumer_key consumerID)) as [e|] eqn:Hpeek.
  - destruct (Hidx _ _ (peek_Some _ _ _ _ Hpeek)) as [l Hl]. rewrite Hl.
    case_bool_decide as Hin.
    + exists d. rewrite Hpeek, Hl. by repeat split.
    + eexists. split; [reflexivity |]. split; [| split].
      * rewrite peek_insert_eq.
        change (live now (mkEntry (VSet (l ++ [id])) (deadline e))) with (live now e).
        by rewrite (peek_live _ _ _ _ Hpeek).
      * intros key Hne. by rewrite lookup_insert_ne.
      * split.
        -- intros id' e' He'. rewrite lookup_insert_ne in He'
             by (intros Heq; by apply (token_key_consumer_key id' consumerID)).
           by eapply Htok.
        -- intros c' e'. destruct (decide (consumerID = c')) as [<-|Hne].
           ++ rewrite lookup_insert_eq. intros [= <-]. by eexists.
           ++ rewrite lookup_insert_ne by (by intros ?%consumer_key_inj). apply Hidx.
  - eexists. split; [reflexivity |]. split; [| split].
    + rewrite peek_insert_eq. cbn. by rewrite bool_decide_eq_false_2 by apply not_elem_of_nil.
    + intros key Hne. by rewrite lookup_insert_ne.
    + split.
      * intros id' e' He'. rewrite lookup_insert_ne in He'
          by (intros Heq; by apply (token_key_consumer_key id' consumerID)).
        by eapply Htok.
      * intros c' e'. destruct (decide (consumerID = c')) as [<-|Hne].
        -- rewrite lookup_insert_eq. intros [= <-]. by eexists.
        -- rewrite lookup_insert_ne by (by intros ?%consumer_key_inj). apply Hidx.
Qed.

(** Writing a token under its key keeps the typing. *)
Lemma well_typed_insert_token d id t dl :
  well_typed d → well_typed (<[token_key id := mkEntry (VString t) dl]> d).
Proof.
  intros [Htok Hidx]. split.
  - intros id' e. destruct (decide (id = id')) as [<-|Hne].
    + rewrite lookup_insert_eq. intros [= <-]. by eexists.
    + rewrite lookup_insert_ne by (by intros ?%token_key_inj). apply Htok.
  - intros c e. rewrite lookup_insert_ne by apply token_key_consumer_key. apply Hidx.
Qed.

Lemma well_typed_delete d key : well_typed d → well_typed (delete key d).
Proof.
  intros [Htok Hidx]. split.
  - intros id e [_ He]%lookup_delete_Some. by eapply Htok.
  - intros c e [_ He]%lookup_delete_Some. by eapply Hidx.
Qed.

Lemma well_typed_drop_records ids d : well_typed d → well_typed (drop_records ids d).
Proof.
  unfold drop_records. revert d. induction ids as [|id ids IH]; intros d Htyped; [done |].
  simpl. by apply IH, well_typed_delete.
Qed.

End RedisMore.

Section RedisInsert.

Import tokenRedis.

Implicit Types (d : gmap string entry) (t : Token) (id key consumerID : string) (now : Time).

(** The whole store after an insert that returned [nil]: the record is
    written, then the id is added to the index of the consumer, and the
    index did not refuse it. *)
Lemma redis_Insert_ok_store now t t' (w w' : remote (gmap string entry)) :
  Insert now t w = (Returned (t', None), w') →
  peek now (store w) (token_key (ID t)) = None ∧
  SADD now (consumer_key (ConsumerID t)) (ID t)
    (<[token_key (ID t) := mkEntry (VString (set_CreatedAt now t)) (insert_deadline now t)]>
       (store w)) = (inl (), store w').
Proof.
  unfold Insert. rewrite ID_set_CreatedAt. unfold bind at 1.
  destruct (call _ w) as [r1 w1] eqn:H1.
  apply call_inv in H1 as (a1 & -> & _ & [[-> Hs1]|(e & -> & _)]); [| done].
  unfold EXISTS in Hs1 |- *. cbn [fst snd] in Hs1 |- *.
  unfold bind at 1. cbn [err_of]. cbn [panicIf ret].
  case_bool_decide as Hthere; [done |].
  assert (Hfree : peek now (store w) (token_key (ID t)) = None).
  { destruct (peek now (store w) (token_key (ID t))) eqn:Hp; [| done].
    destruct Hthere. by eexists. }
  unfold bind at 1. destruct (call _ w1) as [r2 w2] eqn:H2.
  apply call_inv in H2 as (a2 & -> & _ & [[-> Hs2]|(e & -> & _)]); [| done].
  unfold SET in Hs2 |- *. unfold insert_deadline.
  change (Expiration (set_CreatedAt now t)) with (Expiration t) in *.
  destruct (deadline_of now (expiry_of (Sub (Expiration t) now))) as [dl|e];
    cbn [fst snd] in Hs2 |- *; [| done].
  unfold bind at 1. cbn [err_of]. cbn [panicIf ret].
  unfold bind at 1. destruct (call _ w2) as [r3 w3] eqn:H3.
  apply call_inv in H3 as (a3 & -> & _ & [[-> Hs3]|(e & -> & _)]); [| done].
  unfold bind at 1.
  destruct (SADD now _ _ (store w2)) as [[[]|e] d3] eqn:Hsadd; [| done].
  cbn [fst snd err_of] in *. cbn [panicIf ret]. intros [= <- <-].
  split; [done |]. rewrite Hs3, <- Hsadd, Hs2, Hs1. reflexivity.
Qed.

(** [Get] of a key that holds the string of a token. *)
Lemma redis_Get_string later id d tok dl :
  d !! token_key id = Some (mkEntry (VString tok) dl) →
  Get later id (mkRemote d []) =
    (Returned
       (if live later (mkEntry (VString tok) dl)
        then Some (set_ExpiresIn (whole_seconds (Sub (Expiration tok) later)) tok)
        else None, None),
     mkRemote d []).
Proof.
  intros Hkey. unfold Get. step_call. unfold GET, peek. rewrite Hkey.
  by destruct (live later (mkEntry (VString tok) dl)).
Qed.

(** [SADD] that went through, seen from the index of any consumer. *)
Lemma SADD_ok_index now d d' consumerID id :
  SADD now (consumer_key consumerID) id d = (inl (), d') →
  index_of now d' consumerID =
    (if bool_decide (id ∈ index_of now d consumerID) then index_of now d consumerID
     else index_of now d consumerID ++ [id])%list ∧
  (∀ key, key ≠ consumer_key consumerID → d' !! key = d !! key).
Proof.
  unfold SADD, index_of.
  destruct (peek now d (consumer_key consumerID)) as [e|] eqn:Hpeek.
  - destruct (val e) as [s|l] eqn:Hval; [done |].
    case_bool_decide as Hin.
    + intros [= <-]. by rewrite Hpeek, Hval.
    + intros [= <-]. split; [| intros key Hne; by rewrite lookup_insert_ne].
      rewrite peek_insert_eq.
      change (live now (mkEntry (VSet (l ++ [id])) (deadline e))) with (live now e).
      by rewrite (peek_live _ _ _ _ Hpeek).
  - intros [= <-]. split; [| intros key Hne; by rewrite lookup_insert_ne].
    rewrite peek_insert_eq. cbn.
    by rewrite bool_decide_eq_false_2 by apply not_elem_of_nil.
Qed.

End RedisInsert.



(** X15: a token that has already expired when it is inserted is written
    without a time-to-live: [isValid] is false from the start, and yet
    [Get] gives the token at every later instant; the store never lets it
    go. *)
Theorem Redis_Insert_of_expired_token_stays :
  ∀ (now later : Time) (t t' : Token) (w w' : remote (gmap string tokenRedis.entry)),
    tokenRedis.Insert now t w = (Returned (t', None), w') →
    faults w' = [] →
    Expiration t < now →
    isValid now t' = false ∧
    (∃ doc, store w' !! tokenRedis.token_key (ID t) =
              Some (tokenRedis.mkEntry (tokenRedis.VString doc) None)) ∧
    ∃ doc, tokenRedis.Get later (ID t) w' = (Returned (Some doc, None), w') ∧
           ID doc = ID t ∧ Expiration doc = Expiration t.
Proof.
  intros now later t t' w w' Hins Hquiet Hexpired.
  apply redis_Insert_ok_inv in Hins as (-> & _ & Hentry).
  assert (Hnone : tokenRedis.insert_deadline now t = None).
  { unfold tokenRedis.insert_deadline. rewrite deadline_of_expiry.
    destruct (Z.leb_spec (Sub (Expiration t) now) 0) as [|Hpos]; [done |].
    unfold Sub, minDuration, maxDuration in Hpos. lia. }
  rewrite Hnone in Hentry. split; [by apply isValid_false |]. split; [by eexists |].
  destruct w' as [d' fs']. simpl in *. subst fs'.
  rewrite (redis_Get_string _ _ _ _ _ Hentry). cbn. by eexists.
Qed.

Lemma Redis_Insert_of_expired_token_stays_witness :
  let r := tokenRedis.Insert (61 * Second) Examples.T1 Examples.redis_empty in
  isValid (61 * Second) (set_CreatedAt (61 * Second) Examples.T1) = false ∧
  (∃ doc, store r.2 !! tokenRedis.token_key "T1" =
            Some (tokenRedis.mkEntry (tokenRedis.VString doc) None)) ∧
  ∃ doc, tokenRedis.Get (1000000 * Second) "T1" r.2 = (Returned (Some doc, None), r.2) ∧
         ID doc = "T1" ∧ Expiration doc = 60 * Second.
Proof.
  apply (Redis_Insert_of_expired_token_stays (61 * Second) (1000000 * Second) Examples.T1
           (set_CreatedAt (61 * Second) Examples.T1) Examples.redis_empty);
    [reflexivity | reflexivity |]. by vm_compute.
Defined.

(** X16: an insert that returned [nil] has made the id a member of the
    index of the consumer of the token: the members of the index are those
    it had and the id, and no key other than the record and that index is
    changed. *)
Theorem Redis_Insert_adds_id_to_index :
  ∀ (now : Time) (t t' : Token) (w w' : remote (gmap string tokenRedis.entry)),
    tokenRedis.Insert now t w = (Returned (t', None), w') →
    (∀ x, x ∈ index_of now (store w') (ConsumerID t) ↔
          x ∈ index_of now (store w) (ConsumerID t) ∨ x = ID t) ∧
    (∀ key, key ≠ tokenRedis.token_key (ID t) →
            key ≠ tokenRedis.consumer_key (ConsumerID t) →
            store w' !! key = store w !! key).
Proof.
  intros now t t' w w' Hins.
  apply redis_Insert_ok_store in Hins as [_ Hsadd].
  apply SADD_ok_index in Hsadd as [Hindex Hother].
  rewrite (index_of_ext now (store w) (<[_ := _]> (store w))) in Hindex
    by (apply lookup_insert_ne, token_key_consumer_key).
  split.
  - intros x. rewrite Hindex. case_bool_decide as Hin.
    + split; [by left | by intros [?| ->]].
    + rewrite elem_of_app, list_elem_of_singleton. done.
  - intros key Htok Hidx. rewrite Hother by done. by rewrite lookup_insert_ne.
Qed.

Lemma Redis_Insert_adds_id_to_index_witness :
  (∀ x, x ∈ index_of 0 (store Examples.redis_two) "C1" ↔
        x ∈ index_of 0 (store Examples.redis_one) "C1" ∨ x = "T2") ∧
  (∀ key, key ≠ tokenRedis.token_key "T2" → key ≠ tokenRedis.consumer_key "C1" →
          store Examples.redis_two !! key = store Examples.redis_one !! key).
Proof.
  apply (Redis_Insert_adds_id_to_index 0 Examples.T2 (set_CreatedAt 0 Examples.T2)
           Examples.redis_one Examples.redis_two).
  reflexivity.
Defined.

Section Keeps.

Context {S : Type} (P : S → Prop).

Lemma keeps_ret {A} (a : A) : keeps P (ret a).
Proof. by intros w. Qed.

Lemma keeps_panic {A} (e : error) : keeps P (panic (A:=A) e).
Proof. by intros w. Qed.

Lemma keeps_panicIf (err : option error) : keeps P (panicIf err).
Proof. destruct err; [apply keeps_panic | apply keeps_ret]. Qed.

Lemma keeps_bind {A B} (m : M (remote S) A) (k : A → M (remote S) B) :
  keeps P m → (∀ a, keeps P (k a)) → keeps P (bind m k).
Proof.
  intros Hm Hk w Hw. unfold bind. specialize (Hm w Hw).
  destruct (m w) as [[a|e] w1]; [by apply Hk | done].
Qed.

Lemma keeps_call {A} (f : S → (A + string) * S) :
  (∀ s, P s → P (f s).2) → keeps P (call f).
Proof.
  intros Hf [s [|[e|] rest]] Hs; cbn [store] in *.
  - rewrite call_quiet. by apply Hf.
  - by rewrite call_fault.
  - rewrite call_reached. by apply Hf.
Qed.

End Keeps.

Section RedisTyped.

Import tokenRedis.

Implicit Types (d : gmap string entry) (t : Token) (id key consumerID : string) (now : Time).

Lemma well_typed_empty : well_typed ∅.
Proof. split; intros x e; by rewrite lookup_empty. Qed.

Lemma redis_Get_keeps now id : keeps well_typed (Get now id).
Proof.
  unfold Get. apply keeps_bind.
  - apply keeps_call. intros d Hd. unfold GET.
    destruct (peek now d (token_key id)) as [e|]; [by destruct (val e) | done].
  - intros [tok|e]; [apply keeps_ret |].
    destruct (decide (e = "redis: nil")); [apply keeps_ret | apply keeps_panic].
Qed.

Lemma collect_keeps (clock : nat → Time) ids acc : keeps well_typed (collect clock ids acc).
Proof.
  revert clock acc. induction ids as [|id ids IH]; intros clock acc; [apply keeps_ret |].
  cbn [collect]. apply keeps_bind; [apply redis_Get_keeps |]. intros r.
  apply keeps_bind; [apply keeps_panicIf |]. intros _.
  destruct (fst r); apply IH.
Qed.

Lemma redis_GetByConsumerID_keeps now (clock : nat → Time) consumerID :
  keeps well_typed (GetByConsumerID now clock consumerID).
Proof.
  unfold GetByConsumerID. apply keeps_bind.
  - apply keeps_call. intros d Hd. unfold SMEMBERS.
    destruct (peek now d (consumer_key consumerID)) as [e|]; [by destruct (val e) | done].
  - intros [ids|e].
    + apply keeps_bind; [apply collect_keeps | intros result; apply keeps_ret].
    + destruct (decide (e = "redis: nil")); [apply keeps_ret | apply keeps_panic].
Qed.

Lemma redis_Insert_keeps now t : keeps well_typed (Insert now t).
Proof.
  unfold Insert. apply keeps_bind; [by apply keeps_call |]. intros r.
  apply keeps_bind; [apply keeps_panicIf |]. intros _.
  assert (Hwrite : keeps well_typed
    (bind (call (SET now (token_key (ID (set_CreatedAt now t))) (set_CreatedAt now t)
                   (Sub (Expiration (set_CreatedAt now t)) now)))
       (λ r0, bind (panicIf (err_of r0))
          (λ _, bind (call (SADD now (consumer_key (ConsumerID (set_CreatedAt now t)))
                              (ID (set_CreatedAt now t))))
             (λ r1, bind (panicIf (err_of r1))
                (λ _, ret (set_CreatedAt now t, @None error))))))).
  { apply keeps_bind.
    - apply keeps_call. intros d Hd. unfold SET.
      destruct (deadline_of _ _); [by apply well_typed_insert_token | done].
    - intros r0. apply keeps_bind; [apply keeps_panicIf |]. intros _.
      apply keeps_bind.
      + apply keeps_call. intros d Hd.
        destruct (well_typed_SADD now d (ConsumerID (set_CreatedAt now t))
                    (ID (set_CreatedAt now t)) Hd) as (d' & -> & _ & _ & Hd').
        done.
      + intros r1. apply keeps_bind; [apply keeps_panicIf | intros _; apply keeps_ret]. }
  destruct r as [[|]|e]; [apply keeps_ret | exact Hwrite | exact Hwrite].
Qed.

Lemma redis_Update_keeps now t : keeps well_typed (Update now t).
Proof.
  unfold Update. apply keeps_bind.
  - apply keeps_call. intros d Hd. unfold SET.
    destruct (deadline_of _ _); [by apply well_typed_insert_token | done].
  - intros r. apply keeps_bind; [apply keeps_panicIf | intros _; apply keeps_ret].
Qed.

Lemma redis_Delete_keeps id : keeps well_typed (Delete id).
Proof.
  unfold Delete. apply keeps_bind.
  - apply keeps_call. intros d Hd. by apply well_typed_delete.
  - intros r. apply keeps_bind; [apply keeps_panicIf | intros _; apply keeps_ret].
Qed.

Lemma delete_each_keeps ids : keeps well_typed (delete_each ids).
Proof.
  induction ids as [|id ids IH]; [apply keeps_ret |].
  cbn [delete_each]. apply keeps_bind; [apply redis_Delete_keeps |]. intros err.
  apply keeps_bind; [apply keeps_panicIf | intros _; apply IH].
Qed.

Lemma redis_DeleteByConsumerID_keeps now consumerID :
  keeps well_typed (DeleteByConsumerID now consumerID).
Proof.
  unfold DeleteByConsumerID. apply keeps_bind.
  - apply keeps_call. intros d Hd. unfold SMEMBERS.
    destruct (peek now d (consumer_key consumerID)) as [e|]; [by destruct (val e) | done].
  - intros [ids|e].
    + apply keeps_bind; [apply delete_each_keeps |]. intros _.
      apply keeps_bind; [apply keeps_call; intros d Hd; by apply well_typed_delete |].
      intros r. apply keeps_bind; [apply keeps_panicIf | intros _; apply keeps_ret].
    + destruct (decide (e = "redis: nil")); [apply keeps_ret | apply keeps_panic].
Qed.

(** The sample store with the two tokens is typed. *)
Lemma redis_two_well_typed : well_typed (store Examples.redis_two).
Proof.
  apply (redis_Insert_keeps 0 Examples.T2 Examples.redis_one).
  apply (redis_Insert_keeps 0 Examples.T1 Examples.redis_empty).
  apply well_typed_empty.
Qed.

End RedisTyped.

(** X17: with the keys typed as the repository writes them and the store
    reachable, [GetByConsumerID] of the key-value repository returns, in
    the order [SMEMBERS] lists the index of the consumer, the token of
    every listed id whose record is there when its [Get] comes, with the
    seconds it has left at the clock reading of that [Get]; a listed id
    whose record is gone (deleted, or past its deadline) is skipped without
    an error, and the store is not changed. *)
Theorem Redis_GetByConsumerID_reads_index :
  ∀ (now : Time) (clock : nat → Time) (consumerID : string)
    (d : gmap string tokenRedis.entry),
    well_typed d →
    tokenRedis.GetByConsumerID now clock consumerID (mkRemote d []) =
      (Returned (omap id (imap (λ i x, read_token (clock i) d x) (index_of now d consumerID)),
                 None),
       mkRemote d []) ∧
    (∀ (i : nat) x, index_of now d consumerID !! i = Some x →
       match tokenRedis.peek (clock i) d (tokenRedis.token_key x) with
       | None => read_token (clock i) d x = None
       | Some e =>
           ∃ t, tokenRedis.val e = tokenRedis.VString t ∧
                read_token (clock i) d x =
                  Some (set_ExpiresIn (whole_seconds (Sub (Expiration t) (clock i))) t)
       end).
Proof.
  intros now clock consumerID d Htyped. split.
  - unfold tokenRedis.GetByConsumerID. step_call.
    rewrite well_typed_SMEMBERS by done. cbn [fst snd].
    unfold bind at 1. by rewrite collect_quiet.
  - intros i x _. unfold read_token.
    destruct (tokenRedis.peek (clock i) d (tokenRedis.token_key x)) as [e|] eqn:Hpeek; [| done].
    destruct (well_typed_GET (clock i) d x Htyped) as [_ Hstr].
    destruct (Hstr e Hpeek) as [t Ht]. exists t. by rewrite Ht.
Qed.

(** The two tokens of C1 are read ten and eleven seconds after the epoch. *)
Lemma Redis_GetByConsumerID_reads_index_witness :
  tokenRedis.GetByConsumerID (10 * Second) (λ i, (10 + Z.of_nat i) * Second) "C1"
    (mkRemote (store Examples.redis_two) []) =
    (Returned (omap id (imap (λ i x, read_token ((10 + Z.of_nat i) * Second)
                                       (store Examples.redis_two) x)
                          (index_of (10 * Second) (store Examples.redis_two) "C1")), None),
     mkRemote (store Examples.redis_two) []) ∧
  (∀ (i : nat) x, index_of (10 * Second) (store Examples.redis_two) "C1" !! i = Some x →
     match tokenRedis.peek ((10 + Z.of_nat i) * Second) (store Examples.redis_two)
             (tokenRedis.token_key x) with
     | None => read_token ((10 + Z.of_nat i) * Second) (store Examples.redis_two) x = None
     | Some e =>
         ∃ t, tokenRedis.val e = tokenRedis.VString t ∧
              read_token ((10 + Z.of_nat i) * Second) (store Examples.redis_two) x =
                Some (set_ExpiresIn
                        (whole_seconds (Sub (Expiration t) ((10 + Z.of_nat i) * Second))) t)
     end).
Proof.
  apply (Redis_GetByConsumerID_reads_index (10 * Second) (λ i, (10 + Z.of_nat i) * Second) "C1"
           (store Examples.redis_two)).
  apply redis_two_well_typed.
Defined.

Section RedisDelete.

Import tokenRedis.

Implicit Types (d : gmap string entry) (id key consumerID : string) (now : Time).

Lemma read_after_delete (clock : nat → Time) d id (ids : list string) :
  imap (λ i x, read_token (clock i) (delete (token_key id) d) x) ids =
    imap (λ i x, if decide (x = id) then None else read_token (clock i) d x) ids.
Proof.
  apply imap_ext. intros i x _. cbn beta. destruct (decide (x = id)) as [->|Hne].
  - unfold read_token. by rewrite peek_delete_eq.
  - apply read_token_ext, lookup_delete_ne. by intros ?%token_key_inj.
Qed.

End RedisDelete.

(** X18: [Delete] of the key-value repository, with the store reachable,
    returns [nil] and removes the primary record only: the id stays in
    every index that lists it, [Get] of the id finds nothing, and
    [GetByConsumerID] returns what it would have returned before, less the
    token of that id. *)
Theorem Redis_Delete_keeps_index_entry :
  ∀ (now : Time) (clock : nat → Time) (tid : string) (d : gmap string tokenRedis.entry),
    well_typed d →
    ∃ d',
      tokenRedis.Delete tid (mkRemote d []) = (Returned None, mkRemote d' []) ∧
      (∀ consumerID, index_of now d' consumerID = index_of now d consumerID) ∧
      tokenRedis.Get now tid (mkRemote d' []) = (Returned (None, None), mkRemote d' []) ∧
      (∀ consumerID,
         tokenRedis.GetByConsumerID now clock consumerID (mkRemote d' []) =
           (Returned (omap id
                        (imap (λ i x, if decide (x = tid) then None
                                      else read_token (clock i) d x)
                           (index_of now d consumerID)), None),
            mkRemote d' [])).
Proof.
  intros now clock tid d Htyped. eexists. split; [apply redis_Delete_quiet |].
  assert (Hindex : ∀ consumerID,
    index_of now (delete (tokenRedis.token_key tid) d) consumerID = index_of now d consumerID).
  { intros consumerID. apply index_of_ext, lookup_delete_ne, token_key_consumer_key. }
  split; [exact Hindex |]. split.
  - apply redis_Get_absent, peek_delete_eq.
  - intros consumerID. unfold tokenRedis.GetByConsumerID. step_call.
    rewrite well_typed_SMEMBERS by (by apply well_typed_delete). cbn [fst snd].
    unfold bind at 1. rewrite collect_quiet by (by apply well_typed_delete).
    by rewrite Hindex, read_after_delete.
Qed.

Lemma Redis_Delete_keeps_index_entry_witness :
  ∃ d',
    tokenRedis.Delete "T1" (mkRemote (store Examples.redis_two) []) =
      (Returned None, mkRemote d' []) ∧
    (∀ consumerID, index_of 5 d' consumerID = index_of 5 (store Examples.redis_two) consumerID) ∧
    tokenRedis.Get 5 "T1" (mkRemote d' []) = (Returned (None, None), mkRemote d' []) ∧
    (∀ consumerID,
       tokenRedis.GetByConsumerID 5 (λ i, 6 + Z.of_nat i) consumerID (mkRemote d' []) =
         (Returned (omap id
                      (imap (λ i x, if decide (x = "T1") then None
                                    else read_token (6 + Z.of_nat i) (store Examples.redis_two) x)
                         (index_of 5 (store Examples.redis_two) consumerID)), None),
          mkRemote d' [])).
Proof.
  apply (Redis_Delete_keeps_index_entry 5 (λ i, 6 + Z.of_nat i) "T1" (store Examples.redis_two)).
  apply redis_two_well_typed.
Defined.

(** X19: [DeleteByConsumerID] of the key-value repository, with the keys
    typed and the store reachable, returns [nil] having deleted the record
    of every id the index of the consumer lists and the index itself, and
    nothing else: the records of ids that are not listed and the indexes of
    the other consumers are as before. *)
Theorem Redis_DeleteByConsumerID_exact :
  ∀ (now : Time) (consumerID : string) (d : gmap string tokenRedis.entry),
    well_typed d →
    ∃ d',
      tokenRedis.DeleteByConsumerID now consumerID (mkRemote d []) =
        (Returned None, mkRemote d' []) ∧
      d' !! tokenRedis.consumer_key consumerID = None ∧
      (∀ id, id ∈ index_of now d consumerID → d' !! tokenRedis.token_key id = None) ∧
      (∀ id, id ∉ index_of now d consumerID →
             d' !! tokenRedis.token_key id = d !! tokenRedis.token_key id) ∧
      (∀ other, other ≠ consumerID →
                d' !! tokenRedis.consumer_key other = d !! tokenRedis.consumer_key other).
Proof.
  intros now consumerID d Htyped. eexists. split.
  { apply redis_DeleteByConsumerID_quiet. by apply well_typed_SMEMBERS. }
  split; [apply lookup_delete_eq |]. split; [| split].
  - intros id Hin. rewrite lookup_delete_ne by (intros Heq; by apply (token_key_consumer_key id consumerID)).
    by apply drop_records_gone.
  - intros id Hnot. rewrite lookup_delete_ne by (intros Heq; by apply (token_key_consumer_key id consumerID)).
    apply drop_records_other. intros id' Hin Heq%token_key_inj. by subst.
  - intros other Hne. rewrite lookup_delete_ne by (by intros ?%consumer_key_inj).
    apply drop_records_other. intros id' _. apply token_key_consumer_key.
Qed.

Lemma Redis_DeleteByConsumerID_exact_witness :
  ∃ d',
    tokenRedis.DeleteByConsumerID 5 "C1" (mkRemote (store Examples.redis_two) []) =
      (Returned None, mkRemote d' []) ∧
    d' !! tokenRedis.consumer_key "C1" = None ∧
    (∀ id, id ∈ index_of 5 (store Examples.redis_two) "C1" →
           d' !! tokenRedis.token_key id = None) ∧
    (∀ id, id ∉ index_of 5 (store Examples.redis_two) "C1" →
           d' !! tokenRedis.token_key id = store Examples.redis_two !! tokenRedis.token_key id) ∧
    (∀ other, other ≠ "C1" →
              d' !! tokenRedis.consumer_key other =
                store Examples.redis_two !! tokenRedis.consumer_key other).
Proof.
  apply (Redis_DeleteByConsumerID_exact 5 "C1" (store Examples.redis_two)).
  apply redis_two_well_typed.
Defined.

(** X20: the methods of the key-value repository keep the keys typed (a
    token key holds the string of a token, an index key a set), whatever
    their arguments, the script of faults and their outcome, a panic
    included; the empty database is typed. *)
Theorem Redis_methods_keep_typing :
  ∀ (w : remote (gmap string tokenRedis.entry)),
    well_typed (store w) →
    well_typed (∅ : gmap string tokenRedis.entry) ∧
    (∀ now id, well_typed (store (tokenRedis.Get now id w).2)) ∧
    (∀ now clock consumerID,
       well_typed (store (tokenRedis.GetByConsumerID now clock consumerID w).2)) ∧
    (∀ now t, well_typed (store (tokenRedis.Insert now t w).2)) ∧
    (∀ now t, well_typed (store (tokenRedis.Update now t w).2)) ∧
    (∀ id, well_typed (store (tokenRedis.Delete id w).2)) ∧
    (∀ now consumerID, well_typed (store (tokenRedis.DeleteByConsumerID now consumerID w).2)).
Proof.
  intros w Htyped. split; [apply well_typed_empty |].
  split; [intros now id; by apply redis_Get_keeps |].
  split; [intros now clock consumerID; by apply redis_GetByConsumerID_keeps |].
  split; [intros now t; by apply redis_Insert_keeps |].
  split; [intros now t; by apply redis_Update_keeps |].
  split; [intros id; by apply redis_Delete_keeps |].
  intros now consumerID. by apply redis_DeleteByConsumerID_keeps.
Qed.

Lemma Redis_methods_keep_typing_witness :
  well_typed (∅ : gmap string tokenRedis.entry) ∧
  (∀ now id, well_typed (store (tokenRedis.Get now id Examples.redis_two_faulty).2)) ∧
  (∀ now clock consumerID,
     well_typed (store (tokenRedis.GetByConsumerID now clock consumerID
                          Examples.redis_two_faulty).2)) ∧
  (∀ now t, well_typed (store (tokenRedis.Insert now t Examples.redis_two_faulty).2)) ∧
  (∀ now t, well_typed (store (tokenRedis.Update now t Examples.redis_two_faulty).2)) ∧
  (∀ id, well_typed (store (tokenRedis.Delete id Examples.redis_two_faulty).2)) ∧
  (∀ now consumerID,
     well_typed (store (tokenRedis.DeleteByConsumerID now consumerID
                          Examples.redis_two_faulty).2)).
Proof.
  apply (Redis_methods_keep_typing Examples.redis_two_faulty). apply redis_two_well_typed.
Defined.

(** X21: with the keys typed and the store reachable, the methods of the
    key-value repository return, the two reads leaving the database as it
    is, with one exception: the insert, under an id that is free, of a
    token that has some time left but less than a millisecond.  The client
    sends that time-to-live as zero milliseconds, the server refuses the
    command, and [Insert] panics with the refusal, nothing written. *)
Theorem Redis_panics_only_on_refused_expiry :
  ∀ (d : gmap string tokenRedis.entry),
    well_typed d →
    (∀ now id, ∃ r, tokenRedis.Get now id (mkRemote d []) = (Returned r, mkRemote d [])) ∧
    (∀ now clock consumerID,
       ∃ r, tokenRedis.GetByConsumerID now clock consumerID (mkRemote d []) =
              (Returned r, mkRemote d [])) ∧
    (∀ now t,
       if decide (tokenRedis.peek now d (tokenRedis.token_key (ID t)) = None ∧
                  0 < Sub (Expiration t) now < Millisecond)
       then ∃ e, tokenRedis.Insert now t (mkRemote d []) =
                   (Panicked (DriverError e), mkRemote d [])
       else ∃ r d', tokenRedis.Insert now t (mkRemote d []) = (Returned r, mkRemote d' [])) ∧
    (∀ now t, ∃ r d', tokenRedis.Update now t (mkRemote d []) = (Returned r, mkRemote d' [])) ∧
    (∀ id, ∃ r d', tokenRedis.Delete id (mkRemote d []) = (Returned r, mkRemote d' [])) ∧
    (∀ now consumerID,
       ∃ r d', tokenRedis.DeleteByConsumerID now consumerID (mkRemote d []) =
                 (Returned r, mkRemote d' [])).
Proof.
  intros d Htyped. split; [| split; [| split; [| split; [| split]]]].
  - intros now id. eexists. by apply redis_Get_read.
  - intros now clock consumerID. eexists. unfold tokenRedis.GetByConsumerID. step_call.
    rewrite well_typed_SMEMBERS by done. cbn [fst snd].
    unfold bind at 1. by rewrite collect_quiet.
  - intros now t.
    destruct (tokenRedis.peek now d (tokenRedis.token_key (ID t))) as [e0|] eqn:Hpeek.
    { rewrite decide_False by (by intros [? _]).
      rewrite redis_Insert_taken by (rewrite Hpeek; eauto). by eauto. }
    pose proof (deadline_of_expiry now (Sub (Expiration t) now)) as Hsent.
    destruct (Z.leb_spec (Sub (Expiration t) now) 0) as [Hle|Hpos].
    + rewrite decide_False by (intros [_ ?]; lia).
      destruct (redis_Insert_free now t d None Hpeek Hsent) as (d' & Hins & _).
      { intros e He. destruct Htyped as [_ Hidx]. by eapply Hidx. }
      by eauto.
    + destruct (Z.ltb_spec (Sub (Expiration t) now) Millisecond) as [Hshort|Hlong].
      * rewrite decide_True by (split; [done | lia]). exists tokenRedis.invalid_expire.
        unfold tokenRedis.Insert. rewrite ID_set_CreatedAt. step_call.
        unfold tokenRedis.EXISTS. cbn [fst snd err_of]. unfold bind at 1. cbn [panicIf ret].
        rewrite Hpeek, bool_decide_eq_false_2 by (by intros [? ?]).
        step_call. unfold tokenRedis.SET.
        change (Expiration (set_CreatedAt now t)) with (Expiration t).
        by rewrite Hsent.
      * rewrite decide_False by (intros [_ ?]; lia).
        destruct (redis_Insert_free now t d _ Hpeek Hsent) as (d' & Hins & _).
        { intros e He. destruct Htyped as [_ Hidx]. by eapply Hidx. }
        by eauto.
  - intros now t. unfold tokenRedis.Update. step_call. by eauto.
  - intros id. rewrite redis_Delete_quiet. by eauto.
  - intros now consumerID.
    rewrite (redis_DeleteByConsumerID_quiet now consumerID d (index_of now d consumerID))
      by (by apply well_typed_SMEMBERS).
    by eauto.
Qed.

Lemma Redis_panics_only_on_refused_expiry_witness :
  (∀ now id, ∃ r, tokenRedis.Get now id (mkRemote (store Examples.redis_two) []) =
                    (Returned r, mkRemote (store Examples.redis_two) [])) ∧
  (∀ now clock consumerID,
     ∃ r, tokenRedis.GetByConsumerID now clock consumerID
            (mkRemote (store Examples.redis_two) []) =
            (Returned r, mkRemote (store Examples.redis_two) [])) ∧
  (∀ now t,
     if decide (tokenRedis.peek now (store Examples.redis_two) (tokenRedis.token_key (ID t)) = None ∧
                0 < Sub (Expiration t) now < Millisecond)
     then ∃ e, tokenRedis.Insert now t (mkRemote (store Examples.redis_two) []) =
                 (Panicked (DriverError e), mkRemote (store Examples.redis_two) [])
     else ∃ r d', tokenRedis.Insert now t (mkRemote (store Examples.redis_two) []) =
                    (Returned r, mkRemote d' [])) ∧
  (∀ now t, ∃ r d', tokenRedis.Update now t (mkRemote (store Examples.redis_two) []) =
                      (Returned r, mkRemote d' [])) ∧
  (∀ id, ∃ r d', tokenRedis.Delete id (mkRemote (store Examples.redis_two) []) =
                   (Returned r, mkRemote d' [])) ∧
  (∀ now consumerID,
     ∃ r d', tokenRedis.DeleteByConsumerID now consumerID
               (mkRemote (store Examples.redis_two) []) = (Returned r, mkRemote d' [])).
Proof.
  apply (Redis_panics_only_on_refused_expiry (store Examples.redis_two)).
  apply redis_two_well_typed.
Defined.

(** X22: the two writes of an insert into the key-value store are not one
    step.  For an id that is free and a time-to-live the server takes, a
    failure of [SADD] makes the insert panic after the record is written:
    the record is in the store under the id, [Get] gives the token back for
    as long as the record lives, and a second insert of the id, the store
    reachable again, is refused as a duplicate for as long. *)
Theorem Redis_Insert_is_not_atomic :
  ∀ (now later : Time) (t t2 : Token) (d : gmap string tokenRedis.entry) (e : string),
    tokenRedis.peek now d (tokenRedis.token_key (ID t)) = None →
    Sub (Expiration t) now <= 0 ∨ Millisecond <= Sub (Expiration t) now →
    ID t2 = ID t →
    let record :=
      tokenRedis.mkEntry (tokenRedis.VString (set_CreatedAt now t))
        (tokenRedis.insert_deadline now t) in
    let after := tokenRedis.Insert now t (mkRemote d [None; None; Some e]) in
    after.1 = Panicked (DriverError e) ∧
    faults after.2 = [] ∧
    store after.2 !! tokenRedis.token_key (ID t) = Some record ∧
    (tokenRedis.live later record = true →
     tokenRedis.Get later (ID t) after.2 =
       (Returned (Some (set_ExpiresIn (whole_seconds (Sub (Expiration t) later))
                          (set_CreatedAt now t)), None), after.2) ∧
     tokenRedis.Insert later t2 after.2 =
       (Returned (set_CreatedAt later t2,
                  Some (AppError "invalid_input" "The token key already exits")), after.2)).
Proof.
  intros now later t t2 d e Hfree Httl Hid record after.
  assert (Hexists : bool_decide (is_Some (tokenRedis.peek now d (tokenRedis.token_key (ID t))))
                    = false).
  { apply bool_decide_eq_false_2. rewrite Hfree. by intros [? ?]. }
  assert (Hsent : tokenRedis.deadline_of now (tokenRedis.expiry_of (Sub (Expiration t) now)) =
                    inl (tokenRedis.insert_deadline now t)).
  { unfold tokenRedis.insert_deadline. rewrite deadline_of_expiry.
    destruct (Z.leb_spec (Sub (Expiration t) now) 0); [done |].
    destruct (Z.ltb_spec (Sub (Expiration t) now) Millisecond); [lia | done]. }
  assert (Hafter : after = (Panicked (DriverError e),
                            mkRemote (<[tokenRedis.token_key (ID t) := record]> d) [])).
  { unfold after, tokenRedis.Insert. rewrite ID_set_CreatedAt. step_call.
    unfold tokenRedis.EXISTS. cbn [fst snd err_of]. unfold bind at 1. cbn [panicIf ret].
    rewrite Hexists. step_call. unfold tokenRedis.SET.
    change (Expiration (set_CreatedAt now t)) with (Expiration t).
    rewrite Hsent. cbn [fst snd err_of].
    unfold bind at 1. cbn [panicIf ret]. by step_call. }
  rewrite Hafter. cbn [fst snd store faults].
  split; [done |]. split; [done |]. split; [apply lookup_insert_eq |].
  intros Hlive. split.
  - rewrite (redis_Get_string later (ID t) _ (set_CreatedAt now t)
               (tokenRedis.insert_deadline now t)) by apply lookup_insert_eq.
    fold record. by rewrite Hlive.
  - apply redis_Insert_taken. rewrite Hid. unfold tokenRedis.peek.
    rewrite lookup_insert_eq, Hlive. eauto.
Qed.

Lemma Redis_Insert_is_not_atomic_witness :
  let record :=
    tokenRedis.mkEntry (tokenRedis.VString (set_CreatedAt 0 Examples.T2))
      (tokenRedis.insert_deadline 0 Examples.T2) in
  let after :=
    tokenRedis.Insert 0 Examples.T2
      (mkRemote (store Examples.redis_one) [None; None; Some "i/o timeout"]) in
  after.1 = Panicked (DriverError "i/o timeout") ∧
  faults after.2 = [] ∧
  store after.2 !! tokenRedis.token_key "T2" = Some record ∧
  (tokenRedis.live (5 * Second) record = true →
   tokenRedis.Get (5 * Second) "T2" after.2 =
     (Returned (Some (set_ExpiresIn (whole_seconds (Sub (60 * Second) (5 * Second)))
                        (set_CreatedAt 0 Examples.T2)), None), after.2) ∧
   tokenRedis.Insert (5 * Second) Examples.T2 after.2 =
     (Returned (set_CreatedAt (5 * Second) Examples.T2,
                Some (AppError "invalid_input" "The token key already exits")), after.2)).
Proof.
  apply (Redis_Insert_is_not_atomic 0 (5 * Second) Examples.T2 Examples.T2
           (store Examples.redis_one) "i/o timeout").
  - reflexivity.
  - right. vm_compute. discriminate.
  - reflexivity.
Defined.

(** X23: [Update] of the key-value repository, with the store reachable,
    returns [nil] whether or not the id was there: it writes the record,
    which [Get] then gives back at any instant with its remaining seconds,
    and it changes no other key; in particular no index gains the id, so a
    token first written by [Update] is listed by no [GetByConsumerID]. *)
Theorem Redis_Update_writes_record_only :
  ∀ (now later : Time) (t : Token) (d : gmap string tokenRedis.entry),
    ∃ d',
      tokenRedis.Update now t (mkRemote d []) = (Returned None, mkRemote d' []) ∧
      tokenRedis.Get later (ID t) (mkRemote d' []) =
        (Returned (Some (set_ExpiresIn (whole_seconds (Sub (Expiration t) later)) t), None),
         mkRemote d' []) ∧
      (∀ key, key ≠ tokenRedis.token_key (ID t) → d' !! key = d !! key) ∧
      (∀ consumerID, index_of later d' consumerID = index_of later d consumerID).
Proof.
  intros now later t d.
  exists (<[tokenRedis.token_key (ID t) := tokenRedis.mkEntry (tokenRedis.VString t) None]> d).
  split.
  { unfold tokenRedis.Update. step_call. reflexivity. }
  split; [| split].
  - rewrite (redis_Get_string later (ID t) _ t None) by apply lookup_insert_eq. done.
  - intros key Hne. by rewrite lookup_insert_ne.
  - intros consumerID. apply index_of_ext, lookup_insert_ne, token_key_consumer_key.
Qed.

(** ** The seconds of a duration *)

Section FloatSeconds.

Lemma nearest_even_le (n d K : Z) :
  0 < d → 2 * n < (2 * K + 1) * d → nearest_even n d <= K.
Proof.
  intros Hd Hn. unfold nearest_even. cbv zeta.
  pose proof (Z.div_mod n d ltac:(lia)) as Hdiv.
  pose proof (Z.mod_pos_bound n d Hd) as Hmod.
  set (q := n / d) in *. set (r := n mod d) in *.
  destruct (Z.ltb_spec (2 * r) d); [nia |].
  destruct (Z.ltb_spec d (2 * r)); [nia |].
  destruct (Z.even q); nia.
Qed.

Lemma nearest_even_ge (n d K : Z) :
  0 < d → K * d <= n → K <= nearest_even n d.
Proof.
  intros Hd Hn. unfold nearest_even. cbv zeta.
  pose proof (Z.div_mod n d ltac:(lia)) as Hdiv.
  pose proof (Z.mod_pos_bound n d Hd) as Hmod.
  set (q := n / d) in *. set (r := n mod d) in *.
  assert (K <= q) by nia.
  destruct (Z.ltb_spec (2 * r) d); [lia |].
  destruct (Z.ltb_spec d (2 * r)); [lia |].
  destruct (Z.even q); lia.
Qed.

Lemma ilog2_lt (n d k : Z) :
  0 < n → 0 < d → 0 <= k → n < d * 2 ^ k → ilog2 n d < k.
Proof.
  intros Hn Hd Hk Hlt. unfold ilog2. cbv zeta.
  pose proof (Z.log2_spec n Hn) as [Hn1 Hn2].
  pose proof (Z.log2_spec d Hd) as [Hd1 Hd2].
  pose proof (Z.log2_nonneg n). pose proof (Z.log2_nonneg d).
  set (a := Z.log2 n) in *. set (b := Z.log2 d) in *.
  assert (He : a - b <= k).
  { assert (Hpow : 2 ^ a < 2 ^ (b + 1 + k)).
    { rewrite Z.pow_add_r by lia. replace (Z.succ b) with (b + 1) in Hd2 by lia.
      assert (0 < 2 ^ k) by (apply Z.pow_pos_nonneg; lia). nia. }
    apply Z.pow_lt_mono_r_iff in Hpow; lia. }
  destruct (Z.ltb_spec (n * 2 ^ Z.max 0 (- (a - b))) (d * 2 ^ Z.max 0 (a - b))) as [Ht|Ht];
    [lia |].
  destruct (Z.eq_dec (a - b) k) as [Heq|]; [| lia].
  exfalso. rewrite Heq in Ht. rewrite (Z.max_l 0 (- k)), (Z.max_r 0 k) in Ht by lia.
  rewrite Z.pow_0_r in Ht. lia.
Qed.

Lemma round64_den_pos (n d : Z) : 0 < (round64 n d).2.
Proof.
  unfold round64. destruct (n =? 0); [done |]. cbn [snd].
  apply Z.pow_pos_nonneg; lia.
Qed.

Lemma round64_opp (n d : Z) : round64 (- n) d = (- (round64 n d).1, (round64 n d).2).
Proof.
  unfold round64. rewrite Z.abs_opp, Z.sgn_opp.
  destruct (Z.eqb_spec n 0) as [->|Hne]; [done |].
  rewrite (proj2 (Z.eqb_neq (- n) 0)) by lia. cbn [fst snd]. f_equal. lia.
Qed.

Lemma round64_below (n d N : Z) :
  0 < n → 0 < d → 1 <= N <= 2 ^ 24 →
  n * 2 ^ 53 <= (N * 2 ^ 53 - 9007199) * d →
  ∃ s, 29 <= s ∧ (round64 n d).2 = 2 ^ s ∧
       (round64 n d).1 < N * 2 ^ s ∧
       ∀ M, M * d <= n → M * 2 ^ s <= (round64 n d).1.
Proof.
  intros Hn Hd HN Hle.
  change (2 ^ 53) with 9007199254740992 in Hle. change (2 ^ 24) with 16777216 in HN.
  assert (Hlog : ilog2 n d < 24).
  { apply ilog2_lt; [done | done | lia |]. change (2 ^ 24) with 16777216. nia. }
  unfold round64. rewrite (proj2 (Z.eqb_neq n 0)) by lia.
  rewrite Z.abs_eq, Z.sgn_pos by lia. cbv zeta.
  set (s := 52 - ilog2 n d). assert (Hs : 29 <= s) by lia.
  rewrite (Z.max_r 0 s), (Z.max_l 0 (- s)) by lia.
  rewrite Z.pow_0_r, !Z.mul_1_r, Z.mul_1_l. cbn [fst snd].
  exists s. split; [done |]. split; [done |].
  assert (HQ : 2 ^ 29 <= 2 ^ s) by (apply Z.pow_le_mono_r; lia).
  change (2 ^ 29) with 536870912 in HQ.
  set (Q := 2 ^ s) in *. split.
  - enough (nearest_even (n * Q) d <= N * Q - 1) by lia.
    apply nearest_even_le; [done |].
    assert (H1 : n * Q * 9007199254740992 <= (N * 9007199254740992 - 9007199) * d * Q) by nia.
    assert (H2 : 9007199254740992 * d < 2 * 9007199 * Q * d) by nia.
    nia.
  - intros M HM. apply nearest_even_ge; [done |]. nia.
Qed.

Lemma round64_fraction (nsec : Z) :
  0 <= nsec < 1000000000 →
  0 <= (round64 nsec 1000000000).1 ∧
  (round64 nsec 1000000000).1 * 2 ^ 53 <= (2 ^ 53 - 9007199) * (round64 nsec 1000000000).2.
Proof.
  intros Hn. destruct (Z.eq_dec nsec 0) as [->|Hne]; [by vm_compute |].
  assert (Hlog : ilog2 nsec 1000000000 < 0) by (apply ilog2_lt; lia).
  unfold round64. rewrite (proj2 (Z.eqb_neq nsec 0)) by lia.
  rewrite Z.abs_eq, Z.sgn_pos by lia. cbv zeta.
  set (s := 52 - ilog2 nsec 1000000000). assert (Hs : 53 <= s) by lia.
  rewrite (Z.max_r 0 s), (Z.max_l 0 (- s)) by lia.
  rewrite Z.pow_0_r, !Z.mul_1_r, Z.mul_1_l. cbn [fst snd].
  replace s with (53 + (s - 53)) by lia. rewrite Z.pow_add_r by lia.
  assert (HP : 0 < 2 ^ (s - 53)) by (apply Z.pow_pos_nonneg; lia).
  change (2 ^ 53) with 9007199254740992.
  set (P := 2 ^ (s - 53)) in *. split.
  - apply (nearest_even_ge _ _ 0); nia.
  - enough (nearest_even (nsec * (9007199254740992 * P)) 1000000000
            <= (9007199254740992 - 9007199) * P) by nia.
    apply nearest_even_le; [lia |]. nia.
Qed.

Lemma whole_seconds_opp (d : Duration) : whole_seconds (- d) = - whole_seconds d.
Proof.
  unfold whole_seconds, Seconds.
  rewrite Z.quot_opp_l, Z.rem_opp_l by done. rewrite round64_opp.
  pose proof (round64_den_pos (Z.rem d Second) 1000000000) as Hfd.
  destruct (round64 (Z.rem d Second) 1000000000) as [fn fd]. cbn [fst snd] in *.
  replace (- Z.quot d Second * fd + - fn) with (- (Z.quot d Second * fd + fn)) by lia.
  rewrite round64_opp. unfold int64_of_float. cbn [fst snd].
  pose proof (round64_den_pos (Z.quot d Second * fd + fn) fd).
  apply Z.quot_opp_l. lia.
Qed.

Lemma whole_seconds_nonneg (d : Duration) :
  0 <= d < 2 ^ 24 * Second → whole_seconds d = d / Second.
Proof.
  change Second with 1000000000. change (2 ^ 24) with 16777216. intros Hd.
  unfold whole_seconds, Seconds. change Second with 1000000000.
  rewrite Z.quot_div_nonneg, Z.rem_mod_nonneg by lia.
  pose proof (Z.div_mod d 1000000000 ltac:(lia)) as Hdiv.
  pose proof (Z.mod_pos_bound d 1000000000 ltac:(lia)) as Hmod.
  set (sec := d / 1000000000) in *. set (nsec := d mod 1000000000) in *.
  assert (Hsec : 0 <= sec < 16777216) by lia.
  destruct (round64_fraction nsec Hmod) as (Hfn & Hfrac).
  pose proof (round64_den_pos nsec 1000000000) as Hfd.
  destruct (round64 nsec 1000000000) as [fn fd]. cbn [fst snd] in *.
  destruct (Z.eq_dec (sec * fd + fn) 0) as [Hz|Hnz].
  - rewrite Hz. change (0 = sec). clear Hfrac. nia.
  - destruct (round64_below (sec * fd + fn) fd (sec + 1)) as (s & Hs & Hden & Hup & Hlow);
      [nia | lia | change (2 ^ 24) with 16777216; lia | nia |].
    specialize (Hlow sec ltac:(nia)).
    unfold int64_of_float. rewrite Hden in *.
    assert (HQ : 0 < 2 ^ s) by (apply Z.pow_pos_nonneg; lia).
    set (Q := 2 ^ s) in *.
    rewrite Z.quot_div_nonneg by nia.
    symmetry. apply (Z.div_unique_pos _ _ _ ((round64 (sec * fd + fn) fd).1 - sec * Q)); nia.
Qed.


Lemma nearest_even_ge_half (n d K : Z) :
  0 < d → (2 * K - 1) * d < 2 * n → K <= nearest_even n d.
Proof.
  intros Hd Hn. unfold nearest_even. cbv zeta.
  pose proof (Z.div_mod n d ltac:(lia)) as Hdiv.
  pose proof (Z.mod_pos_bound n d Hd) as Hmod.
  set (q := n / d) in *. set (r := n mod d) in *.
  destruct (Z.ltb_spec (2 * r) d); [nia |].
  destruct (Z.ltb_spec d (2 * r)); [nia |].
  destruct (Z.even q); nia.
Qed.

Lemma ilog2_ge (n d k : Z) :
  0 < n → 0 < d → 0 <= k → d * 2 ^ k <= n → k <= ilog2 n d.
Proof.
  intros Hn Hd Hk Hle. unfold ilog2. cbv zeta.
  pose proof (Z.log2_spec n Hn) as [Hn1 Hn2].
  pose proof (Z.log2_spec d Hd) as [Hd1 Hd2].
  pose proof (Z.log2_nonneg n). pose proof (Z.log2_nonneg d).
  set (a := Z.log2 n) in *. set (b := Z.log2 d) in *.
  assert (He : k <= a - b).
  { assert (Hpow : 2 ^ (b + k) < 2 ^ (a + 1)).
    { rewrite Z.pow_add_r by lia. replace (Z.succ a) with (a + 1) in Hn2 by lia.
      assert (0 < 2 ^ k) by (apply Z.pow_pos_nonneg; lia). nia. }
    apply Z.pow_lt_mono_r_iff in Hpow; lia. }
  destruct (Z.ltb_spec (n * 2 ^ Z.max 0 (- (a - b))) (d * 2 ^ Z.max 0 (a - b))) as [Ht|Ht];
    [| lia].
  destruct (Z.eq_dec (a - b) k) as [Heq|]; [| lia].
  exfalso. rewrite Heq in Ht. rewrite (Z.max_l 0 (- k)), (Z.max_r 0 k) in Ht by lia.
  rewrite Z.pow_0_r in Ht. lia.
Qed.

Lemma round64_above (n d N : Z) :
  0 < n → 0 < d → 2 ^ 24 < N <= 2 ^ 34 →
  (N * 2 ^ 53 - 9007199) * d <= n * 2 ^ 53 →
  n < N * d →
  int64_of_float (round64 n d) = N.
Proof.
  intros Hn Hd HN Hge Hlt.
  change (2 ^ 53) with 9007199254740992 in Hge.
  change (2 ^ 24) with 16777216 in HN. change (2 ^ 34) with 17179869184 in HN.
  assert (Hlo : 24 <= ilog2 n d).
  { apply ilog2_ge; [done | done | lia |]. change (2 ^ 24) with 16777216. nia. }
  assert (Hhi : ilog2 n d < 34).
  { apply ilog2_lt; [done | done | lia |]. change (2 ^ 34) with 17179869184. nia. }
  unfold round64. rewrite (proj2 (Z.eqb_neq n 0)) by lia.
  rewrite Z.abs_eq, Z.sgn_pos by lia. cbv zeta.
  set (s := 52 - ilog2 n d). assert (Hs : 19 <= s <= 28) by lia.
  rewrite (Z.max_r 0 s), (Z.max_l 0 (- s)) by lia.
  rewrite Z.pow_0_r, !Z.mul_1_r, Z.mul_1_l.
  assert (HQ1 : 0 < 2 ^ s) by (apply Z.pow_pos_nonneg; lia).
  assert (HQ2 : 2 ^ s <= 2 ^ 28) by (apply Z.pow_le_mono_r; lia).
  change (2 ^ 28) with 268435456 in HQ2.
  set (Q := 2 ^ s) in *.
  assert (Hm : nearest_even (n * Q) d = N * Q).
  { apply Z.le_antisymm.
    - apply nearest_even_le; [done |]. nia.
    - apply nearest_even_ge_half; [done |].
      assert (H1 : (N * 9007199254740992 - 9007199) * d * Q <= n * Q * 9007199254740992) by nia.
      assert (H2 : 2 * 9007199 * Q * d < 9007199254740992 * d) by nia.
      nia. }
  rewrite Hm. unfold int64_of_float. cbn [fst snd].
  rewrite Z.quot_div_nonneg by nia. apply Z.div_mul. lia.
Qed.

Lemma whole_seconds_rounds_up (sec : Z) :
  2 ^ 24 <= sec <= 9223372035 →
  whole_seconds (sec * Second + 999999999) = sec + 1.
Proof.
  change (2 ^ 24) with 16777216. intros Hsec.
  unfold whole_seconds, Seconds. change Second with 1000000000.
  rewrite Z.quot_div_nonneg, Z.rem_mod_nonneg by lia.
  replace ((sec * 1000000000 + 999999999) / 1000000000) with sec
    by (apply (Z.div_unique_pos _ _ _ 999999999); lia).
  replace ((sec * 1000000000 + 999999999) mod 1000000000) with 999999999
    by (apply (Z.mod_unique_pos _ _ sec); lia).
  change (round64 999999999 1000000000) with (9007199245733793, 9007199254740992).
  cbv iota beta.
  apply round64_above; change (2 ^ 24) with 16777216; change (2 ^ 34) with 17179869184;
    change (2 ^ 53) with 9007199254740992; lia.
Qed.

End FloatSeconds.

(** X28: the seconds [Get] of the key-value repository puts in
    [ExpiresIn].  For a record that is there and an expiration less than
    2^24 seconds (some 194 days) away from the clock reading, ahead or
    behind, they are the whole seconds of the difference, the fraction
    dropped: the rounding of [Seconds()] does not show. *)
Theorem Redis_Get_ExpiresIn_whole_seconds :
  ∀ (later : Time) (id : string) (d : gmap string tokenRedis.entry) (tok : Token)
    (dl : option Time),
    d !! tokenRedis.token_key id = Some (tokenRedis.mkEntry (tokenRedis.VString tok) dl) →
    tokenRedis.live later (tokenRedis.mkEntry (tokenRedis.VString tok) dl) = true →
    - (2 ^ 24 * Second) < Expiration tok - later < 2 ^ 24 * Second →
    tokenRedis.Get later id (mkRemote d []) =
      (Returned (Some (set_ExpiresIn (Z.quot (Expiration tok - later) Second) tok), None),
       mkRemote d []).
Proof.
  intros later id d tok dl Hkey Hlive Hnear.
  rewrite (redis_Get_string _ _ _ _ _ Hkey), Hlive.
  assert (Hsub : Sub (Expiration tok) later = Expiration tok - later).
  { change (2 ^ 24 * Second) with 16777216000000000 in Hnear.
    unfold Sub, minDuration, maxDuration. lia. }
  rewrite Hsub. set (x := Expiration tok - later) in *.
  assert (Hws : whole_seconds x = Z.quot x Second).
  { destruct (Z.le_gt_cases 0 x) as [Hpos|Hneg].
    - rewrite whole_seconds_nonneg by lia. symmetry. by apply Z.quot_div_nonneg.
    - replace x with (- - x) by lia. rewrite whole_seconds_opp, Z.quot_opp_l by done.
      f_equal. rewrite whole_seconds_nonneg by lia. symmetry.
      apply Z.quot_div_nonneg; [lia | done]. }
  by rewrite Hws.
Qed.

Lemma Redis_Get_ExpiresIn_whole_seconds_witness :
  tokenRedis.Get (10 * Second + 1) "T1" (mkRemote (store Examples.redis_two) []) =
    (Returned (Some (set_ExpiresIn (Z.quot (60 * Second - (10 * Second + 1)) Second)
                       (set_CreatedAt 0 Examples.T1)), None),
     mkRemote (store Examples.redis_two) []).
Proof.
  apply (Redis_Get_ExpiresIn_whole_seconds (10 * Second + 1) "T1" (store Examples.redis_two)
           (set_CreatedAt 0 Examples.T1) (Some (60 * Second)));
    [reflexivity | reflexivity |].
  change (Expiration (set_CreatedAt 0 Examples.T1)) with 60000000000.
  change (2 ^ 24 * Second) with 16777216000000000. change Second with 1000000000. lia.
Defined.

(** X29: further away the [float64] of [Seconds()] has too few bits left
    for the nanoseconds.  For a record that is there and an expiration
    [sec] seconds and 999999999 nanoseconds ahead of the clock reading,
    with [sec] from 2^24 up, the sum of the seconds and the fraction rounds
    to [sec + 1], and [Get] puts in [ExpiresIn] one second more than the
    token has left. *)
Theorem Redis_Get_ExpiresIn_rounds_up :
  ∀ (later : Time) (id : string) (d : gmap string tokenRedis.entry) (tok : Token)
    (dl : option Time) (sec : Z),
    d !! tokenRedis.token_key id = Some (tokenRedis.mkEntry (tokenRedis.VString tok) dl) →
    tokenRedis.live later (tokenRedis.mkEntry (tokenRedis.VString tok) dl) = true →
    2 ^ 24 <= sec <= 9223372035 →
    Expiration tok - later = sec * Second + 999999999 →
    tokenRedis.Get later id (mkRemote d []) =
      (Returned (Some (set_ExpiresIn (sec + 1) tok), None), mkRemote d []) ∧
    Z.quot (Expiration tok - later) Second = sec.
Proof.
  intros later id d tok dl sec Hkey Hlive Hsec Hfar. split.
  - rewrite (redis_Get_string _ _ _ _ _ Hkey), Hlive.
    assert (Hsub : Sub (Expiration tok) later = sec * Second + 999999999).
    { change (2 ^ 24) with 16777216 in Hsec. change Second with 1000000000 in *.
      unfold Sub, minDuration, maxDuration. lia. }
    by rewrite Hsub, whole_seconds_rounds_up.
  - rewrite Hfar. change (2 ^ 24) with 16777216 in Hsec. change Second with 1000000000.
    rewrite Z.quot_div_nonneg by lia. symmetry.
    apply (Z.div_unique_pos _ _ _ 999999999); lia.
Qed.

(** A token with a year and 999999999 nanoseconds to go. *)
Lemma Redis_Get_ExpiresIn_rounds_up_witness :
  tokenRedis.Get 0 "T1"
    (tokenRedis.Update 0 (set_Expiration (31536000 * Second + 999999999) Examples.T1)
       Examples.redis_empty).2 =
    (Returned (Some (set_ExpiresIn (31536000 + 1)
                       (set_Expiration (31536000 * Second + 999999999) Examples.T1)), None),
     (tokenRedis.Update 0 (set_Expiration (31536000 * Second + 999999999) Examples.T1)
        Examples.redis_empty).2) ∧
  Z.quot (31536000 * Second + 999999999 - 0) Second = 31536000.
Proof.
  apply (Redis_Get_ExpiresIn_rounds_up 0 "T1" _
           (set_Expiration (31536000 * Second + 999999999) Examples.T1) None 31536000);
    [reflexivity | reflexivity | | reflexivity].
  change (2 ^ 24) with 16777216. lia.
Defined.

(** * Properties of the log shipper *)

Section GelfChunks.

Import gelf.

Implicit Types (buf chunk id : list Z) (g : gelfConfig) (size n j : nat).

Lemma take_add_drop {A} (a b : nat) (l : list A) :
  take (a + b) l = (take a l ++ take b (drop a l))%list.
Proof.
  revert l. induction a as [|a IH]; intros l; [done |].
  destruct l as [|x l]; simpl; [by rewrite take_nil | by rewrite IH].
Qed.

Lemma length_cut size n buf : length (cut size n buf) = n.
Proof. revert buf. induction n as [|n IH]; intros buf; simpl; [done | by rewrite IH]. Qed.

Lemma concat_cut size n buf : concat (cut size n buf) = take (n * size) buf.
Proof.
  revert buf. induction n as [|n IH]; intros buf; simpl; [done |].
  by rewrite IH, take_add_drop.
Qed.

Lemma cut_sizes size n buf : Forall (λ chunk, (length chunk ≤ size)%nat) (cut size n buf).
Proof.
  revert buf. induction n as [|n IH]; intros buf; simpl; [done |].
  constructor; [rewrite length_take; lia | apply IH].
Qed.

(** The iterations the loop has left at [i]. *)
Lemma iterations_done (L c i : Z) :
  0 < c → L <= i → Z.to_nat ((L - i + c - 1) / c) = 0%nat.
Proof.
  intros Hc Hi. assert ((L - i + c - 1) / c <= 0); [| lia].
  apply Z.lt_succ_r, Z.div_lt_upper_bound; lia.
Qed.

Lemma iterations_step (L c i : Z) :
  0 < c → i < L →
  Z.to_nat ((L - i + c - 1) / c) = Datatypes.S (Z.to_nat ((L - (i + c) + c - 1) / c)).
Proof.
  intros Hc Hi.
  replace (L - i + c - 1) with (L - (i + c) + c - 1 + 1 * c) by lia.
  rewrite Z.div_add by lia.
  assert (0 <= (L - (i + c) + c - 1) / c) by (apply Z.div_pos; lia). lia.
Qed.

(** The loop of [log], for a positive step and a chunk size that is not
    negative: with fuel for the iterations left it finishes, and the
    packets are the frames of the chunks cut from the buffer. *)
Lemma chunk_loop_frames fuel g (L c count : Z) id (i : Z) j buf :
  0 < c → 0 <= getChunksize g →
  (Z.to_nat ((L - i + c - 1) / c) ≤ fuel)%nat →
  chunk_loop fuel g L c count id i (Z.of_nat j) buf =
    (imap (λ k, frame id count (j + k))
       (cut (Z.to_nat (getChunksize g)) (Z.to_nat ((L - i + c - 1) / c)) buf),
     Finished).
Proof.
  intros Hc Hchunk. revert i j buf.
  induction fuel as [|fuel IH]; intros i j buf Hfuel.
  - destruct (Z.ltb_spec i L) as [Hi|Hi].
    + rewrite iterations_step in Hfuel by done. lia.
    + simpl. rewrite (proj2 (Z.ltb_ge _ _) Hi). by rewrite iterations_done.
  - cbn [chunk_loop]. destruct (Z.ltb_spec i L) as [Hi|Hi].
    + rewrite iterations_step in Hfuel |- * by done.
      unfold createChunkedMessage, Next. rewrite (proj2 (Z.ltb_ge _ _) Hchunk).
      replace (Z.of_nat j + 1) with (Z.of_nat (Datatypes.S j)) by lia.
      rewrite IH by lia. cbn [cut]. rewrite imap_cons. f_equal. f_equal.
      * unfold frame. by rewrite Nat.add_0_r.
      * apply imap_ext. intros k chunk _. simpl. f_equal. lia.
    + by rewrite iterations_done.
Qed.

End GelfChunks.

Section GelfLog.

Import gelf.

Implicit Types (buf chunk id : list Z) (g : gelfConfig).

Lemma log_chunked fuel (compress : list Z → list Z) id g (data : list Z) :
  0 < MaxChunkSizeLan g →
  MaxChunkSizeLan g < Z.of_nat (length (compress data)) →
  0 <= getChunksize g →
  (Z.to_nat (chunkCount (Z.of_nat (length (compress data))) (MaxChunkSizeLan g)) ≤ fuel)%nat →
  log fuel compress id g data =
    (imap (frame id (chunkCount (Z.of_nat (length (compress data))) (MaxChunkSizeLan g)))
       (cut (Z.to_nat (getChunksize g))
          (Z.to_nat (chunkCount (Z.of_nat (length (compress data))) (MaxChunkSizeLan g)))
          (compress data)),
     Finished).
Proof.
  intros Hpos Hbig Hchunk Hfuel. unfold log.
  rewrite (proj2 (Z.ltb_lt _ _) Hbig).
  change 0 with (Z.of_nat 0) at 2.
  rewrite chunk_loop_frames; [| done | done |].
  - unfold chunkCount. by rewrite Z.sub_0_r.
  - unfold chunkCount in Hfuel. by rewrite Z.sub_0_r.
Qed.

Lemma chunkCount_covers (L c : Z) : 0 < c → L <= chunkCount L c * c.
Proof.
  intros Hc. unfold chunkCount.
  pose proof (Z.div_mod (L + c - 1) c) as Hdm.
  pose proof (Z.mod_pos_bound (L + c - 1) c Hc). lia.
Qed.

Lemma chunkCount_tight (L c : Z) : 0 < c → (chunkCount L c - 1) * c < L.
Proof.
  intros Hc. unfold chunkCount.
  pose proof (Z.div_mod (L + c - 1) c) as Hdm.
  pose proof (Z.mod_pos_bound (L + c - 1) c Hc). lia.
Qed.

Lemma chunkCount_two (L c : Z) : 0 < c → c < L → 2 <= chunkCount L c.
Proof. intros Hc HL. unfold chunkCount. apply Z.div_le_lower_bound; lia. Qed.

(** Taking the frames apart. *)
Lemma fmap_imap_cancel {A B} (f : nat → A → B) (h : B → A) (l : list A) :
  (∀ k x, h (f k x) = x) → h <$> imap f l = l.
Proof.
  revert f. induction l as [|x l IH]; intros f Hcancel; [done |].
  rewrite imap_cons, fmap_cons, Hcancel. f_equal. apply IH. intros k y. apply Hcancel.
Qed.

Lemma frame_payload id count k chunk :
  length id = 8%nat → drop 12 (frame id count k chunk) = chunk.
Proof.
  intros Hid. unfold frame, intToBytes.
  do 8 (destruct id as [|? id]; [done |]). by destruct id.
Qed.

Lemma frame_header id count k chunk :
  length id = 8%nat →
  take 2 (frame id count k chunk) = [30; 15] ∧
  take 8 (drop 2 (frame id count k chunk)) = id ∧
  frame id count k chunk !! 10%nat = Some (Z.of_nat k mod 256) ∧
  frame id count k chunk !! 11%nat = Some (count mod 256) ∧
  length (frame id count k chunk) = (12 + length chunk)%nat.
Proof.
  intros Hid. unfold frame, intToBytes.
  do 8 (destruct id as [|? id]; [done |]). by destruct id.
Qed.

End GelfLog.

(** X24: chunked shipping on a "lan" connection.  When the compressed
    message is longer than the (positive) LAN chunk size, [log] sends the
    ceiling of length over chunk size datagrams, at least two; each starts
    with the bytes 30 and 15 and the eight bytes of the message id, then the
    low byte of its index and of the count, and is at most twelve bytes
    longer than the chunk size; the payloads, in the order sent, make up
    the compressed message again. *)
Theorem gelf_log_lan_reassembles :
  ∀ (fuel : nat) (compress : list Z → list Z) (id data : list Z) (g : gelf.gelfConfig),
    let compressed := compress data in
    let count := gelf.chunkCount (Z.of_nat (length compressed)) (gelf.MaxChunkSizeLan g) in
    gelf.Connection g = "lan" →
    0 < gelf.MaxChunkSizeLan g →
    gelf.MaxChunkSizeLan g < Z.of_nat (length compressed) →
    length id = 8%nat →
    (Z.to_nat count ≤ fuel)%nat →
    ∃ packets,
      gelf.log fuel compress id g data = (packets, gelf.Finished) ∧
      Z.of_nat (length packets) = count ∧ 2 <= count ∧
      concat (drop 12 <$> packets) = compressed ∧
      (∀ (k : nat) p, packets !! k = Some p →
         take 2 p = [30; 15] ∧ take 8 (drop 2 p) = id ∧
         p !! 10%nat = Some (Z.of_nat k mod 256) ∧ p !! 11%nat = Some (count mod 256) ∧
         Z.of_nat (length p) <= 12 + gelf.MaxChunkSizeLan g).
Proof.
  intros fuel compress id data g compressed count Hlan Hpos Hbig Hid Hfuel.
  assert (Hchunk : gelf.getChunksize g = gelf.MaxChunkSizeLan g).
  { unfold gelf.getChunksize. by rewrite Hlan. }
  assert (Htwo : 2 <= count) by (by apply chunkCount_two).
  eexists. split; [apply log_chunked; [done | done | lia | done] |].
  fold compressed. fold count. rewrite Hchunk.
  split; [rewrite length_imap, length_cut; lia |]. split; [done |]. split.
  - rewrite fmap_imap_cancel by (intros k x; by apply frame_payload).
    rewrite concat_cut. apply take_ge.
    pose proof (chunkCount_covers (Z.of_nat (length compressed)) (gelf.MaxChunkSizeLan g) Hpos).
    fold count in H. nia.
  - intros k p Hp. apply list_lookup_imap_Some in Hp as (chunk & Hchunk' & ->).
    destruct (frame_header id count k chunk Hid) as (H2 & H8 & H10 & H11 & Hlen).
    repeat (split; [done |]). rewrite Hlen.
    pose proof (cut_sizes (Z.to_nat (gelf.MaxChunkSizeLan g)) (Z.to_nat count) compressed) as Hall.
    rewrite Forall_lookup in Hall. specialize (Hall k chunk Hchunk'). simpl in Hall. lia.
Qed.

Lemma gelf_log_lan_reassembles_witness :
  let g := gelf.mkConfig "127.0.0.1:12201" "lan" 2 3 in
  let id := [1; 2; 3; 4; 5; 6; 7; 8] in
  ∃ packets,
    gelf.log 3 (λ data, data) id g [10; 11; 12; 13; 14; 15; 16] = (packets, gelf.Finished) ∧
    Z.of_nat (length packets) = gelf.chunkCount 7 3 ∧ 2 <= gelf.chunkCount 7 3 ∧
    concat (drop 12 <$> packets) = [10; 11; 12; 13; 14; 15; 16] ∧
    (∀ (k : nat) p, packets !! k = Some p →
       take 2 p = [30; 15] ∧ take 8 (drop 2 p) = id ∧
       p !! 10%nat = Some (Z.of_nat k mod 256) ∧ p !! 11%nat = Some (gelf.chunkCount 7 3 mod 256) ∧
       Z.of_nat (length p) <= 12 + 3).
Proof.
  apply (gelf_log_lan_reassembles 3 (λ data, data) [1; 2; 3; 4; 5; 6; 7; 8]
           [10; 11; 12; 13; 14; 15; 16] (gelf.mkConfig "127.0.0.1:12201" "lan" 2 3));
    [reflexivity | reflexivity | reflexivity | reflexivity |]. vm_compute. lia.
Defined.

(** X25: chunked shipping on a "wan" connection.  The count of datagrams
    and the step of the loop come from the LAN chunk size, the payload of
    each datagram from the WAN chunk size.  When the WAN size is at most
    half the LAN size (as with the defaults, 1420 and 8154) and the
    compressed message is longer than the LAN size, the payloads sent make
    up only a strict prefix of the compressed message: the bytes from
    count times WAN size on are never sent. *)
Theorem gelf_log_wan_sends_prefix :
  ∀ (fuel : nat) (compress : list Z → list Z) (id data : list Z) (g : gelf.gelfConfig),
    let compressed := compress data in
    let count := gelf.chunkCount (Z.of_nat (length compressed)) (gelf.MaxChunkSizeLan g) in
    gelf.Connection g = "wan" →
    0 <= gelf.MaxChunkSizeWan g →
    0 < gelf.MaxChunkSizeLan g →
    2 * gelf.MaxChunkSizeWan g <= gelf.MaxChunkSizeLan g →
    gelf.MaxChunkSizeLan g < Z.of_nat (length compressed) →
    length id = 8%nat →
    (Z.to_nat count ≤ fuel)%nat →
    ∃ packets,
      gelf.log fuel compress id g data = (packets, gelf.Finished) ∧
      Z.of_nat (length packets) = count ∧
      concat (drop 12 <$> packets) =
        take (Z.to_nat (count * gelf.MaxChunkSizeWan g)) compressed ∧
      count * gelf.MaxChunkSizeWan g < Z.of_nat (length compressed).
Proof.
  intros fuel compress id data g compressed count Hwan Hw Hpos Hhalf Hbig Hid Hfuel.
  assert (Hchunk : gelf.getChunksize g = gelf.MaxChunkSizeWan g).
  { unfold gelf.getChunksize. by rewrite Hwan. }
  assert (Htwo : 2 <= count) by (by apply chunkCount_two).
  eexists. split; [apply log_chunked; [done | done | lia | done] |].
  fold compressed. fold count. rewrite Hchunk.
  split; [rewrite length_imap, length_cut; lia |]. split.
  - rewrite fmap_imap_cancel by (intros k x; by apply frame_payload).
    rewrite concat_cut. f_equal. rewrite Z2Nat.inj_mul by lia. done.
  - pose proof (chunkCount_tight (Z.of_nat (length compressed)) (gelf.MaxChunkSizeLan g) Hpos).
    fold count in H. nia.
Qed.

Lemma gelf_log_wan_sends_prefix_witness :
  let g := gelf.mkConfig "127.0.0.1:12201" "wan" 1 3 in
  let id := [1; 2; 3; 4; 5; 6; 7; 8] in
  ∃ packets,
    gelf.log 3 (λ data, data) id g [10; 11; 12; 13; 14; 15; 16] = (packets, gelf.Finished) ∧
    Z.of_nat (length packets) = gelf.chunkCount 7 3 ∧
    concat (drop 12 <$> packets) =
      take (Z.to_nat (gelf.chunkCount 7 3 * 1)) [10; 11; 12; 13; 14; 15; 16] ∧
    gelf.chunkCount 7 3 * 1 < 7.
Proof.
  apply (gelf_log_wan_sends_prefix 3 (λ data, data) [1; 2; 3; 4; 5; 6; 7; 8]
           [10; 11; 12; 13; 14; 15; 16] (gelf.mkConfig "127.0.0.1:12201" "wan" 1 3));
    [reflexivity | by vm_compute | reflexivity | by vm_compute | reflexivity | reflexivity |].
  vm_compute. lia.
Defined.

(** X26: [newGelf] either panics with the error of the dial to the address
    it settled on, or returns a logger whose address and connection kind
    are not empty and whose chunk sizes, the one [getChunksize] picks
    included, are not zero; what the caller set is kept, and the defaults
    fill the rest: 127.0.0.1:12201, "lan", 1420 and 8154. *)
Theorem newGelf_fills_defaults :
  ∀ (dial : string → option string) (config : gelf.gelfConfig),
    match gelf.newGelf dial config with
    | Panicked e =>
        ∃ err, dial (gelf.ConnectionString (gelf.with_defaults config)) = Some err ∧
               e = DriverError err
    | Returned g =>
        gelf.ConnectionString g ≠ "" ∧ gelf.Connection g ≠ "" ∧
        gelf.MaxChunkSizeWan g ≠ 0 ∧ gelf.MaxChunkSizeLan g ≠ 0 ∧
        gelf.getChunksize g ≠ 0 ∧
        gelf.ConnectionString g =
          (if decide (gelf.ConnectionString config = "") then "127.0.0.1:12201"
           else gelf.ConnectionString config) ∧
        gelf.Connection g =
          (if decide (gelf.Connection config = "") then "lan" else gelf.Connection config) ∧
        gelf.MaxChunkSizeWan g =
          (if decide (gelf.MaxChunkSizeWan config = 0) then 1420
           else gelf.MaxChunkSizeWan config) ∧
        gelf.MaxChunkSizeLan g =
          (if decide (gelf.MaxChunkSizeLan config = 0) then 8154
           else gelf.MaxChunkSizeLan config) ∧
        gelf.newGelf dial g = Returned g
    end.
Proof.
  assert (Hfields : ∀ address kind wan lan,
    gelf.with_defaults (gelf.mkConfig address kind wan lan) =
      gelf.mkConfig (if decide (address = "") then "127.0.0.1:12201" else address)
        (if decide (kind = "") then "lan" else kind)
        (if decide (wan = 0) then 1420 else wan)
        (if decide (lan = 0) then 8154 else lan)).
  { intros address kind wan lan.
    unfold gelf.with_defaults. cbn [gelf.ConnectionString gelf.Connection
      gelf.MaxChunkSizeWan gelf.MaxChunkSizeLan].
    destruct address as [|a address]; cbn [String.length Nat.eqb];
      cbn [gelf.ConnectionString gelf.Connection gelf.MaxChunkSizeWan gelf.MaxChunkSizeLan];
      destruct (decide (kind = "")) as [->|Hkind];
      cbn [gelf.ConnectionString gelf.Connection gelf.MaxChunkSizeWan gelf.MaxChunkSizeLan];
      destruct (Z.eqb_spec wan 0) as [->|Hwan];
      cbn [gelf.ConnectionString gelf.Connection gelf.MaxChunkSizeWan gelf.MaxChunkSizeLan];
      destruct (Z.eqb_spec lan 0) as [->|Hlan];
      repeat case_decide; first [reflexivity | congruence]. }
  intros dial [address kind wan lan]. unfold gelf.newGelf.
  rewrite Hfields. cbn [gelf.ConnectionString].
  destruct (dial _) as [err|] eqn:Hdial; [by eexists |].
  cbn [gelf.ConnectionString gelf.Connection gelf.MaxChunkSizeWan gelf.MaxChunkSizeLan].
  assert (Haddr : (if decide (address = "") then "127.0.0.1:12201" else address) ≠ "")
    by (by destruct (decide (address = ""))).
  assert (Hkind : (if decide (kind = "") then "lan" else kind) ≠ "")
    by (by destruct (decide (kind = ""))).
  assert (Hwan : (if decide (wan = 0) then 1420 else wan) ≠ 0)
    by (by destruct (decide (wan = 0))).
  assert (Hlan : (if decide (lan = 0) then 8154 else lan) ≠ 0)
    by (by destruct (decide (lan = 0))).
  do 4 (split; [done |]). split.
  { unfold gelf.getChunksize. cbn [gelf.Connection gelf.MaxChunkSizeWan gelf.MaxChunkSizeLan].
    repeat case_decide; done. }
  do 4 (split; [done |]).
  rewrite Hfields. cbn [gelf.ConnectionString gelf.Connection gelf.MaxChunkSizeWan
    gelf.MaxChunkSizeLan].
  rewrite (decide_False (P := (if decide (address = "") then "127.0.0.1:12201" else address) = ""))
    by done.
  rewrite (decide_False (P := (if decide (kind = "") then "lan" else kind) = "")) by done.
  rewrite (decide_False (P := (if decide (wan = 0) then 1420 else wan) = 0)) by done.
  rewrite (decide_False (P := (if decide (lan = 0) then 8154 else lan) = 0)) by done.
  by rewrite Hdial.
Qed.

Section GelfItems.

Import gelf.

Context {F V : Type}.

Implicit Types (custom : gmap string V) (items : gmap string (item F V))
  (order : list string) (k key : string).

Lemma underscore_inj k k' : "_" +:+ k = "_" +:+ k' → k = k'.
Proof. simpl. by intros [=]. Qed.

(** A key that is not an underscore followed by a name is out of reach of
    the custom fields. *)
Lemma add_custom_plain custom order items key :
  (∀ k, key ≠ "_" +:+ k) → add_custom custom order items !! key = items !! key.
Proof.
  intros Hplain. revert items. induction order as [|k0 rest IH]; intros items; [done |].
  cbn [add_custom]. destruct (custom !! k0) as [v|]; rewrite IH; [| done].
  by rewrite lookup_insert_ne.
Qed.

Lemma add_custom_underscore custom order items k :
  add_custom custom order items !! ("_" +:+ k) =
    if decide (k ∈ order) then
      match custom !! k with
      | Some v => Some (ICustom v)
      | None => items !! ("_" +:+ k)
      end
    else items !! ("_" +:+ k).
Proof.
  revert items. induction order as [|k0 rest IH]; intros items.
  - cbn [add_custom]. rewrite decide_False; [done | apply not_elem_of_nil].
  - cbn [add_custom]. destruct (decide (k = k0)) as [<-|Hne].
    + rewrite (decide_True (P := k ∈ k :: rest)) by apply list_elem_of_here.
      destruct (custom !! k) as [v|] eqn:Hk; rewrite IH, ?Hk.
      * case_decide; [done | apply lookup_insert_eq].
      * by case_decide.
    + assert (Hiff : k ∈ k0 :: rest ↔ k ∈ rest).
      { rewrite elem_of_cons. split; [by intros [?|?] | by right]. }
      rewrite (decide_ext _ _ _ _ Hiff).
      destruct (custom !! k0) as [v0|]; rewrite IH; [| done].
      rewrite lookup_insert_ne; [done |]. by intros ?%underscore_inj.
Qed.

(** The map does not depend on the order in which the custom fields come,
    as long as each comes. *)
Lemma add_custom_order custom order order' items :
  (∀ k, is_Some (custom !! k) → k ∈ order) →
  (∀ k, is_Some (custom !! k) → k ∈ order') →
  add_custom custom order items = add_custom custom order' items.
Proof.
  intros Hcover Hcover'. apply map_eq. intros key.
  destruct key as [|a key'].
  { rewrite !add_custom_plain; [done | |]; intros k; simpl; discriminate. }
  destruct (decide (String a key' = "_" +:+ key')) as [->|Hne].
  - rewrite !add_custom_underscore.
    destruct (custom !! key') as [v|] eqn:Hk.
    + rewrite !decide_True; [done | |]; [apply Hcover' | apply Hcover]; rewrite Hk; eauto.
    + by repeat case_decide.
  - assert (Hplain : ∀ k, String a key' ≠ "_" +:+ k).
    { intros k Heq. apply Hne. simpl in *. by injection Heq as -> ->. }
    by rewrite !add_custom_plain.
Qed.

End GelfItems.

(** X27: the map [toByte] hands to [json.Marshal].  The six plain entries
    (version, host, level, short_message, full_message, timestamp) are those
    of the message whatever the custom fields are; each custom field [k] is
    there under "_" followed by [k]; the entries "_app_id" and
    "_logger_name" are the facility and the logger name unless a custom
    field "app_id" or "logger_name" takes their place; and the bytes do not
    depend on the order in which the map of custom fields is ranged over. *)
Theorem gelf_toByte_items :
  ∀ (F V : Type) (marshal : gmap string (gelf.item F V) → list Z)
    (order order' : list string) (m : gelf.gelfMessage F V),
    (∀ k, is_Some (gelf.CustomFields m !! k) → k ∈ order) →
    (∀ k, is_Some (gelf.CustomFields m !! k) → k ∈ order') →
    let items := gelf.add_custom (gelf.CustomFields m) order (gelf.fixed_items m) in
    gelf.toByte marshal order m = marshal items ∧
    gelf.toByte marshal order' m = gelf.toByte marshal order m ∧
    items !! "version" = Some (gelf.IString (gelf.Version m)) ∧
    items !! "host" = Some (gelf.IString (gelf.Host m)) ∧
    items !! "level" = Some (gelf.IInt (gelf.Level m)) ∧
    items !! "short_message" = Some (gelf.IString (gelf.ShortMessage m)) ∧
    items !! "full_message" = Some (gelf.IString (gelf.FullMessage m)) ∧
    items !! "timestamp" = Some (gelf.IFloat (gelf.Timestamp m)) ∧
    (∀ k v, gelf.CustomFields m !! k = Some v →
            items !! ("_" +:+ k) = Some (gelf.ICustom v)) ∧
    (gelf.CustomFields m !! "app_id" = None →
     items !! "_app_id" = Some (gelf.IString (gelf.Facility m))) ∧
    (gelf.CustomFields m !! "logger_name" = None →
     items !! "_logger_name" = Some (gelf.IString (gelf.LoggerName m))).
Proof.
  intros F V marshal order order' m Hcover Hcover' items.
  split; [done |]. split.
  { unfold gelf.toByte. f_equal. by apply add_custom_order. }
  assert (Hplain : ∀ key, (∀ k, key ≠ "_" +:+ k) → items !! key = gelf.fixed_items m !! key).
  { intros key Hkey. by apply add_custom_plain. }
  do 6 (split; [rewrite Hplain; [reflexivity | intros k; simpl; discriminate] |]).
  split; [| split].
  - intros k v Hk. unfold items. rewrite add_custom_underscore, Hk.
    rewrite decide_True; [done |]. apply Hcover. rewrite Hk; eauto.
  - intros Hnone. change "_app_id" with ("_" +:+ "app_id").
    unfold items. rewrite add_custom_underscore, Hnone. by case_decide.
  - intros Hnone. change "_logger_name" with ("_" +:+ "logger_name").
    unfold items. rewrite add_custom_underscore, Hnone. by case_decide.
Qed.

Lemma gelf_toByte_items_witness :
  let m := gelf.mkMessage (F:=Z) "1.1" "gw1" 6 "GET / [200] 3ms" "" 0 "bifrost" "access"
             (<["app_id" := 7]> (<["status" := 200]> ∅)) in
  let marshal := λ items : gmap string (gelf.item Z Z), [Z.of_nat (size items)] in
  let items := gelf.add_custom (gelf.CustomFields m) ["status"; "app_id"] (gelf.fixed_items m) in
  gelf.toByte marshal ["status"; "app_id"] m = marshal items ∧
  gelf.toByte marshal ["app_id"; "status"] m = gelf.toByte marshal ["status"; "app_id"] m ∧
  items !! "version" = Some (gelf.IString (gelf.Version m)) ∧
  items !! "host" = Some (gelf.IString (gelf.Host m)) ∧
  items !! "level" = Some (gelf.IInt (gelf.Level m)) ∧
  items !! "short_message" = Some (gelf.IString (gelf.ShortMessage m)) ∧
  items !! "full_message" = Some (gelf.IString (gelf.FullMessage m)) ∧
  items !! "timestamp" = Some (gelf.IFloat (gelf.Timestamp m)) ∧
  (∀ k v, gelf.CustomFields m !! k = Some v →
          items !! ("_" +:+ k) = Some (gelf.ICustom v)) ∧
  (gelf.CustomFields m !! "app_id" = None →
   items !! "_app_id" = Some (gelf.IString (gelf.Facility m))) ∧
  (gelf.CustomFields m !! "logger_name" = None →
   items !! "_logger_name" = Some (gelf.IString (gelf.LoggerName m))).
Proof.
  apply (gelf_toByte_items Z Z (λ items, [Z.of_nat (size items)])
           ["status"; "app_id"] ["app_id"; "status"]).
  - intros k [v Hk]. simpl in Hk.
    apply lookup_insert_Some in Hk as [[<- _]|[_ Hk]]; [apply list_elem_of_further, list_elem_of_here |].
    apply lookup_insert_Some in Hk as [[<- _]|[_ Hk]]; [apply list_elem_of_here |].
    by rewrite lookup_empty in Hk.
  - intros k [v Hk]. simpl in Hk.
    apply lookup_insert_Some in Hk as [[<- _]|[_ Hk]]; [apply list_elem_of_here |].
    apply lookup_insert_Some in Hk as [[<- _]|[_ Hk]]; [apply list_elem_of_further, list_elem_of_here |].
    by rewrite lookup_empty in Hk.
Defined.
